(** * Overstack solvability checker (src/solver.js): a shallow embedding

    The development follows the source file top-down:
    - [resolveTrayTriples] (the tray auto-clear rule),
    - [hashState] and [scoreState],
    - [beamSearchSolve] / [isSolvable] (the bounded beam search),
    - a store-level rendering of the same functions in which JS arrays are
      references into a heap, used for the statements about what the code
      leaves untouched,
    - the same functions once more over the values that occur when the
      collaborator hands out a position outside the board ([Js]).

    Conventions.  JS numbers that occur in the solver are integers; they are
    embedded as [Z] (board values, tray values, scores) or [nat] (array
    indices, counters).  The empty-slot sentinel is [-1].  [stats.timeMs]
    is wall-clock time and is not part of the embedding. *)

From stdpp Require Import gmap strings list pretty sorting.
From Stdlib Require Import Ascii.

Local Open Scope Z_scope.

(** ** JS plain objects with array-valued properties

    [resolveTrayTriples] stores, per icon, the list of tray indices holding
    it in a plain object and walks that object with [for ... in].  The walk
    visits own keys in the order fixed by ECMAScript: first the keys that
    are array indices (canonical integers in [0, 2^32 - 2]) in ascending
    numeric order, then every other key in creation order.  The object is
    embedded as the list of its properties in that order. *)

Module JsObject.

Definition t : Type := list (Z * list nat).

Definition is_array_index (k : Z) : bool :=
  bool_decide (0 ≤ k < 2 ^ 32 - 1).

(** [stays_before k' k]: the existing key [k'] is enumerated before a
    key [k] created now. *)
Definition stays_before (k' k : Z) : bool :=
  if is_array_index k then is_array_index k' && bool_decide (k' < k)
  else true.

(** [o[k]], [undefined] being [None]. *)
Fixpoint get (k : Z) (o : t) : option (list nat) :=
  match o with
  | [] => None
  | (k', v) :: o' => if bool_decide (k' = k) then Some v else get k o'
  end.

(** [o[k] = v] for a key that [o] does not have yet. *)
Fixpoint create (k : Z) (v : list nat) (o : t) : t :=
  match o with
  | [] => [(k, v)]
  | (k', v') :: o' =>
      if stays_before k' k then (k', v') :: create k v o'
      else (k, v) :: (k', v') :: o'
  end.

(** [o[k].push(idx)] for a key that [o] has. *)
Fixpoint push (k : Z) (idx : nat) (o : t) : t :=
  match o with
  | [] => []
  | (k', v) :: o' =>
      if bool_decide (k' = k) then (k', v ++ [idx]) :: o'
      else (k', v) :: push k idx o'
  end.

Definition keys (o : t) : list Z := o.*1.

End JsObject.

(** ** Array helpers *)

(** [a.splice(idx, 1)]. *)
Definition splice1 {A} (idx : nat) (a : list A) : list A :=
  take idx a ++ drop (S idx) a.

(** [a.sort((x, y) => y - x)] on indices: insertion into a descending list. *)
Fixpoint insert_desc (x : nat) (l : list nat) : list nat :=
  match l with
  | [] => [x]
  | y :: l' => if bool_decide (x < y)%nat then y :: insert_desc x l' else x :: l
  end.

Definition sort_desc (l : list nat) : list nat := foldr insert_desc [] l.

(** ** The Resolution Engine: [resolveTrayTriples] (solver.js 17-54) *)

Module Resolved.
Record t : Type := mk
  { tray : list Z; clearedCount : Z; clearedIcons : list Z }.
End Resolved.

(** The [tray.forEach((iconIdx, idx) => ...)] that fills [iconCounts],
    started at index [idx]. *)
Fixpoint countIcons (tray : list Z) (idx : nat) (iconCounts : JsObject.t)
  : JsObject.t :=
  match tray with
  | [] => iconCounts
  | iconIdx :: rest =>
      let o :=
        match JsObject.get iconIdx iconCounts with
        | None => JsObject.create iconIdx [] iconCounts
        | Some _ => iconCounts
        end in
      countIcons rest (S idx) (JsObject.push iconIdx idx o)
  end.

Definition iconCounts (tray : list Z) : JsObject.t := countIcons tray 0%nat [].

(** The [for (const iconIdx in iconCounts)] loop: the first property, in
    enumeration order, whose index list has length >= 3. *)
Definition firstTriple (o : JsObject.t) : option (Z * list nat) :=
  List.find (λ e, bool_decide (3 ≤ length e.2)%nat) o.

(** One iteration of the [while (changed)] body.  [None] is
    [changed = false]; [Some (tray', icon)] is the tray after the three
    splices together with the icon pushed on [clearedIcons]. *)
Definition clearPass (tray : list Z) : option (list Z * Z) :=
  match firstTriple (iconCounts tray) with
  | Some (iconIdx, occ) =>
      let indices := sort_desc (take 3 occ) in
      Some (foldl (λ t idx, splice1 idx t) tray indices, iconIdx)
  | None => None
  end.

(** The [while (changed)] loop, one iteration per unit of [fuel]. *)
Fixpoint resolveLoop (fuel : nat) (st : Resolved.t) : Resolved.t :=
  match fuel with
  | O => st
  | S fuel' =>
      match clearPass (Resolved.tray st) with
      | None => st
      | Some (tray', iconIdx) =>
          resolveLoop fuel'
            (Resolved.mk tray' (Resolved.clearedCount st + 3)
               (Resolved.clearedIcons st ++ [iconIdx]))
      end
  end.

(** [resolveTrayTriples]: the loop is run with more fuel than it can use
    ([resolveTrayTriples_stable] and [resolveLoop_fuel] below). *)
Definition resolveTrayTriples (trayIconIndices : list Z) : Resolved.t :=
  resolveLoop (S (length trayIconIndices))
    (Resolved.mk trayIconIndices 0 []).

(** ** [hashState] (solver.js 60-62) *)

(** [a.join(sep)] on an array of integers: decimal digits, [-] for
    negatives. *)
Definition join (sep : string) (a : list Z) : string :=
  String.concat sep (pretty <$> a).

Definition hashState (board tray : list Z) : string :=
  join "," board +:+ "|" +:+ join "," tray.

(** ** The Heuristic Scorer: [scoreState] (solver.js 67-100) *)

(** [cleared >= 3 ? 100 * Math.floor(cleared / 3) : 0] with
    [cleared = prevTray.length - tray.length]. *)
Definition tripleReward (tray prevTray : list Z) : Z :=
  let cleared := Z.of_nat (length prevTray) - Z.of_nat (length tray) in
  if bool_decide (3 ≤ cleared) then 100 * (cleared / 3) else 0.

(** The counting object of [scoreState]:
    [iconCounts[iconIdx] = (iconCounts[iconIdx] || 0) + 1]. *)
Definition occurrences (tray : list Z) : gmap Z nat :=
  foldl (λ m iconIdx, <[iconIdx := (default 0 (m !! iconIdx) + 1)%nat]> m)
    ∅ tray.

(** [Object.values(iconCounts).forEach(count => ...)]: 12 per count that
    is 2. *)
Definition pairReward (tray : list Z) : Z :=
  map_fold (λ _ count acc, if bool_decide (count = 2%nat) then acc + 12 else acc)
    0 (occurrences tray).

(** [new Set(tray.filter(iconIdx => !prevIconSet.has(iconIdx))).size]. *)
Definition newIconCount (tray prevTray : list Z) : nat :=
  let prevIconSet : gset Z := list_to_set prevTray in
  let newIcons := filter (λ iconIdx, iconIdx ∉ prevIconSet) tray in
  size (list_to_set newIcons : gset Z).

Definition scoreState (board tray prevTray : list Z)
    (prevRemaining newRemaining : nat) : Z :=
  let score := 0 in
  let score := score + tripleReward tray prevTray in
  let score := score + pairReward tray in
  let score := score - 8 * Z.of_nat (newIconCount tray prevTray) in
  let score := score - 3 * Z.of_nat (length tray) in
  let tilesRemoved := Z.of_nat prevRemaining - Z.of_nat newRemaining in
  score + tilesRemoved * 5.

(** ** The Beam Search Driver: [beamSearchSolve] (solver.js 105-223) *)

Definition SOLVER_BEAM_WIDTH : nat := 100.
Definition SOLVER_MAX_EXPANSIONS : nat := 5000.
Definition SOLVER_MAX_DEPTH : nat := 200.

(** The literal 7 of the lose condition (solver.js 170). *)
Definition TRAY_CAPACITY : nat := 7.

Module Node.
Record t : Type := mk
  { board : list Z; tray : list Z; score : Z;
    moves : list nat; depth : nat; hash : string }.
End Node.

(** A value of the [visited] map. *)
Module Entry.
Record t : Type := mk { score : Z; trayLen : nat }.
End Entry.

(** [stats] without [timeMs].  [bestScore = None] is [-Infinity];
    [depth = None] is an absent field. *)
Module Stats.
Record t : Type := mk
  { expansionsUsed : nat; bestScore : option Z;
    beamWidth : nat; depth : option nat }.
End Stats.

Inductive Result : Type :=
  | Solvable (winningMoves : list nat) (stats : Stats.t)
  | Unsolvable (stats : Stats.t).

(** [params]; a field that is [None] is absent. *)
Module Params.
Record t : Type := mk
  { beamWidth : option nat; maxExpansions : option nat;
    maxDepth : option nat }.
Definition empty : t := mk None None None.
End Params.

(** [x || d] on an optional count: absent and 0 are falsy. *)
Definition orDefault (x : option nat) (d : nat) : nat :=
  match x with
  | Some (S n) => S n
  | _ => d
  end.

(** [a.filter(iconIdx => iconIdx !== -1).length]. *)
Definition countRemaining (board : list Z) : nat :=
  length (filter (λ iconIdx, iconIdx ≠ -1) board).

(** [candidates.sort((a, b) => b.score - a.score)]: descending by score,
    stable. *)
Fixpoint insertByScore (x : Node.t) (l : list Node.t) : list Node.t :=
  match l with
  | [] => [x]
  | y :: l' =>
      if bool_decide (Node.score x < Node.score y)
      then y :: insertByScore x l'
      else x :: l
  end.

Definition sortByScore (l : list Node.t) : list Node.t :=
  foldr insertByScore [] l.

(** The variables the loops of [beamSearchSolve] update. *)
Module Vars.
Record t : Type := mk
  { visited : gmap string Entry.t; expansions : nat;
    candidates : list Node.t }.
End Vars.

(** Result of the [for (const node of beam)] loop: a [return] from inside
    it, or the variables when the loop is left. *)
Inductive NodesOutcome : Type :=
  | Returned (r : Result)
  | Left (s : Vars.t).

(** The search on arrays of integers.  In the functions below [None]
    marks the point where a run leaves the arrays of integers: the
    collaborator returned a position outside the board,
    [node.board[slotIdx]] is [undefined], and the code goes on with
    [undefined] in the tray.  What the code does from there on is
    [Js.expandSlot] further down; wherever the functions below have a
    value, it is the value of the code ([isSolvable_agrees],
    [stateAt_agrees]), and they have one for every collaborator that
    returns only positions of the board it is given
    ([isSolvable_total]). *)
Section Search.

Variable getClickableSlots : list Z → list nat.
Variables beamWidth maxExpansions : nat.

(** The body of [for (const slotIdx of clickableSlots)] after
    [expansions++] (solver.js 159-204). *)
Definition expandSlot (depth : nat) (node : Node.t) (remaining : nat)
    (slotIdx : nat) (s : Vars.t) : option Vars.t :=
  iconIdx ← Node.board node !! slotIdx;
  if bool_decide (iconIdx = -1) then Some s
  else
    let newBoard := <[slotIdx := -1]> (Node.board node) in
    let newTray := Node.tray node ++ [iconIdx] in
    let result := resolveTrayTriples newTray in
    if bool_decide (TRAY_CAPACITY < length (Resolved.tray result))%nat
    then Some s
    else
      let newRemaining := countRemaining newBoard in
      let newScore :=
        Node.score node
        + scoreState newBoard (Resolved.tray result) (Node.tray node)
            remaining newRemaining in
      let newMoves := Node.moves node ++ [slotIdx] in
      let newHash := hashState newBoard (Resolved.tray result) in
      let dominated :=
        match Vars.visited s !! newHash with
        | Some visitedEntry =>
            bool_decide (newScore ≤ Entry.score visitedEntry)
            && bool_decide
                 (Entry.trayLen visitedEntry
                  ≤ length (Resolved.tray result))%nat
        | None => false
        end in
      if dominated then Some s
      else
        Some (Vars.mk
                (<[newHash :=
                     Entry.mk newScore (length (Resolved.tray result))]>
                   (Vars.visited s))
                (Vars.expansions s)
                (Vars.candidates s
                 ++ [Node.mk newBoard (Resolved.tray result) newScore
                       newMoves (S depth) newHash])).

(** [for (const slotIdx of clickableSlots)] (solver.js 155-205). *)
Fixpoint forSlots (depth : nat) (node : Node.t) (remaining : nat)
    (clickableSlots : list nat) (s : Vars.t) : option Vars.t :=
  match clickableSlots with
  | [] => Some s
  | slotIdx :: rest =>
      if bool_decide (maxExpansions ≤ Vars.expansions s)%nat then Some s
      else
        s' ← expandSlot depth node remaining slotIdx
               (Vars.mk (Vars.visited s) (S (Vars.expansions s))
                  (Vars.candidates s));
        forSlots depth node remaining rest s'
  end.

Definition solved (node : Node.t) : bool :=
  bool_decide (countRemaining (Node.board node) = 0%nat)
  && bool_decide (length (Node.tray node) = 0%nat).

(** [for (const node of beam)] (solver.js 133-206). *)
Fixpoint forNodes (depth : nat) (beam : list Node.t) (s : Vars.t)
    : option NodesOutcome :=
  match beam with
  | [] => Some (Left s)
  | node :: rest =>
      if bool_decide (maxExpansions ≤ Vars.expansions s)%nat
      then Some (Left s)
      else
        let remaining := countRemaining (Node.board node) in
        if solved node then
          Some (Returned
                  (Solvable (Node.moves node)
                     (Stats.mk (Vars.expansions s) (Some (Node.score node))
                        beamWidth (Some depth))))
        else
          s' ← forSlots depth node remaining
                 (getClickableSlots (Node.board node)) s;
          forNodes depth rest s'
  end.

(** The result built after the depth loop (solver.js 214-222). *)
Definition noSolution (beam : list Node.t) (expansions : nat) : Result :=
  Unsolvable
    (Stats.mk expansions (Node.score <$> head beam) beamWidth None).

(** [for (let depth = 0; depth < maxDepth && beam.length > 0; depth++)]
    (solver.js 130-211); [togo] is [maxDepth - depth]. *)
Fixpoint forDepth (togo : nat) (depth : nat) (beam : list Node.t)
    (visited : gmap string Entry.t) (expansions : nat) : option Result :=
  match togo with
  | O => Some (noSolution beam expansions)
  | S togo' =>
      if bool_decide (beam = []) then Some (noSolution beam expansions)
      else
        o ← forNodes depth beam (Vars.mk visited expansions []);
        match o with
        | Returned r => Some r
        | Left s =>
            forDepth togo' (S depth)
              (take beamWidth (sortByScore (Vars.candidates s)))
              (Vars.visited s) (Vars.expansions s)
        end
  end.

End Search.

(** [initialNode] (solver.js 117-124). *)
Definition initialNode (initialBoard : list Z) : Node.t :=
  Node.mk initialBoard [] 0 [] 0%nat (hashState initialBoard []).

(** [beamSearchSolve]; [initialRemaining] (solver.js 116) is computed and
    never used, [perf] and [startTime] only feed [timeMs]. *)
Definition beamSearchSolve (initialBoard : list Z)
    (getClickableSlots : list Z → list nat) (params : Params.t)
    : option Result :=
  let beamWidth := orDefault (Params.beamWidth params) SOLVER_BEAM_WIDTH in
  let maxExpansions :=
    orDefault (Params.maxExpansions params) SOLVER_MAX_EXPANSIONS in
  let maxDepth := orDefault (Params.maxDepth params) SOLVER_MAX_DEPTH in
  let node := initialNode initialBoard in
  let visited : gmap string Entry.t :=
    <[Node.hash node := Entry.mk 0 0%nat]> ∅ in
  forDepth getClickableSlots beamWidth maxExpansions maxDepth 0%nat [node]
    visited 0%nat.

(** ** The Solver Facade: [isSolvable] (solver.js 228-230) *)

Definition isSolvable (initialBoardAssignment : list Z)
    (getClickableSlotIndices : list Z → list nat) (params : Params.t)
    : option Result :=
  beamSearchSolve initialBoardAssignment getClickableSlotIndices params.

(** The collaborator of the end-to-end scenario: every position of the
    board is selectable. *)
Definition allPositions (board : list Z) : list nat := seq 0 (length board).

(** ** The same functions over a store of arrays

    JS arrays are mutable objects passed by reference.  For the statements
    about what the solver leaves untouched, the functions are written a
    second time with every array that holds board or tray values living in
    a store: a [loc] names an array, [[...a]] and array literals allocate,
    [splice] and [a[i] = v] update in place.  The remaining locals
    ([iconCounts], [clearedIcons], [moves], [candidates], [visited]) are
    created and used inside one call and stay values.  The collaborator is
    handed the contents of the board it is asked about: it is a pure
    function of them. *)

Module Store.

Abbreviation loc := nat (only parsing).
Abbreviation heap := (list (list Z)) (only parsing).

(** Computations that read and update the store; [None] is a dangling
    [loc], or a position outside the board: the store holds arrays of
    integers, and this rendering ends where [expandSlot] above does.  (On
    that path too the code writes to the copy [newBoard] only,
    [Js.expandSlot].) *)
Definition M (A : Type) : Type := heap → option (A * heap).

Definition ret {A} (a : A) : M A := λ h, Some (a, h).

Definition bind {A B} (m : M A) (k : A → M B) : M B :=
  λ h, match m h with
       | Some (a, h') => k a h'
       | None => None
       end.

Definition fail {A} : M A := λ _, None.

Notation "'let*' x ':=' m 'in' k" := (bind m (λ x, k))
  (at level 10, x name, m at level 100, k at level 200, only parsing).

(** A new array with the given contents. *)
Definition alloc (a : list Z) : M loc := λ h, Some (length h, h ++ [a]).

Definition read (l : loc) : M (list Z) :=
  λ h, match h !! l with
       | Some a => Some (a, h)
       | None => None
       end.

Definition write (l : loc) (a : list Z) : M unit :=
  λ h, match h !! l with
       | Some _ => Some (tt, <[l := a]> h)
       | None => None
       end.

(** [a.splice(idx, 1)]. *)
Definition splice (a : loc) (idx : nat) : M unit :=
  let* contents := read a in write a (splice1 idx contents).

(** [a[i] = v] for [i] inside the array. *)
Definition setIndex (a : loc) (i : nat) (v : Z) : M unit :=
  let* contents := read a in write a (<[i := v]> contents).

Module ResolvedRef.
Record t : Type := mk
  { tray : loc; clearedCount : Z; clearedIcons : list Z }.
End ResolvedRef.

(** [indices.forEach(idx => tray.splice(idx, 1))]. *)
Fixpoint spliceEach (tray : loc) (indices : list nat) : M unit :=
  match indices with
  | [] => ret tt
  | idx :: rest => let* _ := splice tray idx in spliceEach tray rest
  end.

Fixpoint resolveLoop (fuel : nat) (st : ResolvedRef.t) : M ResolvedRef.t :=
  match fuel with
  | O => ret st
  | S fuel' =>
      let* tray := read (ResolvedRef.tray st) in
      match firstTriple (iconCounts tray) with
      | None => ret st
      | Some (iconIdx, occ) =>
          let* _ := spliceEach (ResolvedRef.tray st) (sort_desc (take 3 occ)) in
          resolveLoop fuel'
            (ResolvedRef.mk (ResolvedRef.tray st)
               (ResolvedRef.clearedCount st + 3)
               (ResolvedRef.clearedIcons st ++ [iconIdx]))
      end
  end.

(** [resolveTrayTriples]: [const tray = [...trayIconIndices]], then the
    loop on the copy. *)
Definition resolveTrayTriples (trayIconIndices : loc) : M ResolvedRef.t :=
  let* contents := read trayIconIndices in
  let* tray := alloc contents in
  resolveLoop (S (length contents)) (ResolvedRef.mk tray 0 []).

Module NodeRef.
Record t : Type := mk
  { board : loc; tray : loc; score : Z;
    moves : list nat; depth : nat; hash : string }.
End NodeRef.

Module VarsRef.
Record t : Type := mk
  { visited : gmap string Entry.t; expansions : nat;
    candidates : list NodeRef.t }.
End VarsRef.

Inductive NodesOutcomeRef : Type :=
  | ReturnedRef (r : Result)
  | LeftRef (s : VarsRef.t).

Fixpoint insertByScore (x : NodeRef.t) (l : list NodeRef.t)
    : list NodeRef.t :=
  match l with
  | [] => [x]
  | y :: l' =>
      if bool_decide (NodeRef.score x < NodeRef.score y)
      then y :: insertByScore x l'
      else x :: l
  end.

Definition sortByScore (l : list NodeRef.t) : list NodeRef.t :=
  foldr insertByScore [] l.

Section Search.

Variable getClickableSlots : list Z → list nat.
Variables beamWidth maxExpansions : nat.

Definition expandSlot (depth : nat) (node : NodeRef.t) (remaining : nat)
    (slotIdx : nat) (s : VarsRef.t) : M VarsRef.t :=
  let* board := read (NodeRef.board node) in
  match board !! slotIdx with
  | None => fail
  | Some iconIdx =>
      if bool_decide (iconIdx = -1) then ret s
      else
        let* newBoard := alloc board in
        let* _ := setIndex newBoard slotIdx (-1) in
        let* prevTray := read (NodeRef.tray node) in
        let* newTray := alloc (prevTray ++ [iconIdx]) in
        let* result := resolveTrayTriples newTray in
        let* tray := read (ResolvedRef.tray result) in
        if bool_decide (TRAY_CAPACITY < length tray)%nat then ret s
        else
          let* newBoardNow := read newBoard in
          let newRemaining := countRemaining newBoardNow in
          let* prevTrayNow := read (NodeRef.tray node) in
          let newScore :=
            NodeRef.score node
            + scoreState newBoardNow tray prevTrayNow remaining
                newRemaining in
          let newMoves := NodeRef.moves node ++ [slotIdx] in
          let newHash := hashState newBoardNow tray in
          let dominated :=
            match VarsRef.visited s !! newHash with
            | Some visitedEntry =>
                bool_decide (newScore ≤ Entry.score visitedEntry)
                && bool_decide (Entry.trayLen visitedEntry ≤ length tray)%nat
            | None => false
            end in
          if dominated then ret s
          else
            ret (VarsRef.mk
                   (<[newHash := Entry.mk newScore (length tray)]>
                      (VarsRef.visited s))
                   (VarsRef.expansions s)
                   (VarsRef.candidates s
                    ++ [NodeRef.mk newBoard (ResolvedRef.tray result)
                          newScore newMoves (S depth) newHash]))
  end.

Fixpoint forSlots (depth : nat) (node : NodeRef.t) (remaining : nat)
    (clickableSlots : list nat) (s : VarsRef.t) : M VarsRef.t :=
  match clickableSlots with
  | [] => ret s
  | slotIdx :: rest =>
      if bool_decide (maxExpansions ≤ VarsRef.expansions s)%nat then ret s
      else
        let* s' :=
          expandSlot depth node remaining slotIdx
            (VarsRef.mk (VarsRef.visited s) (S (VarsRef.expansions s))
               (VarsRef.candidates s)) in
        forSlots depth node remaining rest s'
  end.

Fixpoint forNodes (depth : nat) (beam : list NodeRef.t) (s : VarsRef.t)
    : M NodesOutcomeRef :=
  match beam with
  | [] => ret (LeftRef s)
  | node :: rest =>
      if bool_decide (maxExpansions ≤ VarsRef.expansions s)%nat
      then ret (LeftRef s)
      else
        let* board := read (NodeRef.board node) in
        let remaining := countRemaining board in
        let* tray := read (NodeRef.tray node) in
        if bool_decide (remaining = 0%nat) && bool_decide (length tray = 0%nat)
        then
          ret (ReturnedRef
                 (Solvable (NodeRef.moves node)
                    (Stats.mk (VarsRef.expansions s)
                       (Some (NodeRef.score node)) beamWidth (Some depth))))
        else
          let clickableSlots := getClickableSlots board in
          let* s' := forSlots depth node remaining clickableSlots s in
          forNodes depth rest s'
  end.

Definition noSolution (beam : list NodeRef.t) (expansions : nat) : Result :=
  Unsolvable
    (Stats.mk expansions (NodeRef.score <$> head beam) beamWidth None).

Fixpoint forDepth (togo : nat) (depth : nat) (beam : list NodeRef.t)
    (visited : gmap string Entry.t) (expansions : nat) : M Result :=
  match togo with
  | O => ret (noSolution beam expansions)
  | S togo' =>
      if bool_decide (beam = []) then ret (noSolution beam expansions)
      else
        let* o := forNodes depth beam (VarsRef.mk visited expansions []) in
        match o with
        | ReturnedRef r => ret r
        | LeftRef s =>
            forDepth togo' (S depth)
              (take beamWidth (sortByScore (VarsRef.candidates s)))
              (VarsRef.visited s) (VarsRef.expansions s)
        end
  end.

End Search.

Definition beamSearchSolve (initialBoard : loc)
    (getClickableSlots : list Z → list nat) (params : Params.t)
    : M Result :=
  let beamWidth := orDefault (Params.beamWidth params) SOLVER_BEAM_WIDTH in
  let maxExpansions :=
    orDefault (Params.maxExpansions params) SOLVER_MAX_EXPANSIONS in
  let maxDepth := orDefault (Params.maxDepth params) SOLVER_MAX_DEPTH in
  let* contents := read initialBoard in
  let* board := alloc contents in
  let* tray := alloc [] in
  let* contentsAgain := read initialBoard in
  let node :=
    NodeRef.mk board tray 0 [] 0%nat (hashState contentsAgain []) in
  let visited : gmap string Entry.t :=
    <[NodeRef.hash node := Entry.mk 0 0%nat]> ∅ in
  forDepth getClickableSlots beamWidth maxExpansions maxDepth 0%nat [node]
    visited 0%nat.

Definition isSolvable (initialBoardAssignment : loc)
    (getClickableSlotIndices : list Z → list nat) (params : Params.t)
    : M Result :=
  beamSearchSolve initialBoardAssignment getClickableSlotIndices params.

(** What a node reference stands for in a store. *)
Definition nodeAt (h : heap) (n : NodeRef.t) : option Node.t :=
  board ← h !! NodeRef.board n;
  tray ← h !! NodeRef.tray n;
  Some (Node.mk board tray (NodeRef.score n) (NodeRef.moves n)
          (NodeRef.depth n) (NodeRef.hash n)).

End Store.

(** ** The search on any positions

    The code does not stop when the collaborator hands out a position
    outside the board.  [node.board[slotIdx]] is then [undefined], which
    is not [-1], so the move is applied: the copy of the board is written
    at [slotIdx] (growing up to it when [slotIdx] is past its end),
    [undefined] is appended to the tray, [resolveTrayTriples] counts it
    under the key [undefined], and [join] prints it as the empty string.
    The functions are written here over the values that occur on such
    runs, and have a value on every input.  [initialBoard] is an array of
    integers and positions are natural numbers, as in the
    specification. *)

Module Js.

(** The values that reach boards and trays: integers and [undefined]. *)
Inductive Value : Type :=
  | Num (z : Z)
  | Undefined.

#[global] Instance Value_eq_dec : EqDecision Value.
Proof. solve_decision. Defined.

#[global] Instance Value_countable : Countable Value.
Proof.
  apply (inj_countable'
           (λ v, match v with Num z => Some z | Undefined => None end)
           (λ o, match o with Some z => Num z | None => Undefined end)).
  by intros [].
Defined.

#[global] Instance Num_inj : Inj (=) (=) Num.
Proof. by intros z1 z2 [= ->]. Qed.

(** A board array.  [elems] are the array elements in index order, [None]
    being a hole (an index below [length] that holds nothing); [props]
    are the keys that are not array indices (2^32 - 1 and above) under
    which the array object holds [-1] as an ordinary property. *)
Module Board.
Record t : Type := mk { elems : list (option Value); props : list nat }.
End Board.

(** An array of integers, as [initialBoard] is. *)
Definition ofArray (a : list Z) : Board.t :=
  Board.mk ((λ z, Some (Num z)) <$> a) [].

(** What iteration over the array yields ([join], spread): holes read as
    [undefined]. *)
Definition values (board : Board.t) : list Value :=
  default Undefined <$> Board.elems board.

(** What [filter] visits: holes are skipped. *)
Definition present (board : Board.t) : list Value :=
  omap id (Board.elems board).

(** [board[i]]. *)
Definition elemAt (board : Board.t) (i : nat) : Value :=
  match Board.elems board !! i with
  | Some slot => default Undefined slot
  | None =>
      if bool_decide (i ∈ Board.props board) then Num (-1) else Undefined
  end.

(** [[...board]]. *)
Definition spread (board : Board.t) : Board.t :=
  Board.mk (Some <$> values board) [].

(** [board[i] = -1]: inside the array the element is replaced; beyond its
    end the array grows to length [i + 1], the indices in between staying
    holes; a key that is not an array index becomes an ordinary
    property. *)
Definition setEmpty (board : Board.t) (i : nat) : Board.t :=
  let a := Board.elems board in
  if bool_decide (i < length a)%nat then
    Board.mk (<[i := Some (Num (-1))]> a) (Board.props board)
  else if bool_decide (Z.of_nat i < 2 ^ 32 - 1) then
    Board.mk (a ++ replicate (i - length a) None ++ [Some (Num (-1))])
      (Board.props board)
  else Board.mk a (i :: Board.props board).

(** [a.filter(iconIdx => iconIdx !== -1).length]. *)
Definition countRemaining (board : Board.t) : nat :=
  length (filter (λ iconIdx, iconIdx ≠ Num (-1)) (present board)).

(** ** Plain objects keyed by values

    The key of a value is its string: the decimal digits of an integer,
    [undefined] for [undefined]; different values have different keys. *)
Module Object.

Definition t : Type := list (Value * list nat).

(** The number a key denotes when it is an array index. *)
Definition index (k : Value) : option Z :=
  match k with
  | Num z => if bool_decide (0 ≤ z < 2 ^ 32 - 1) then Some z else None
  | Undefined => None
  end.

(** [stays_before k' k]: the existing key [k'] is enumerated before a
    key [k] created now (array indices ascending, then the other keys in
    creation order). *)
Definition stays_before (k' k : Value) : bool :=
  match index k with
  | Some z =>
      match index k' with
      | Some z' => bool_decide (z' < z)
      | None => false
      end
  | None => true
  end.

(** [o[k]], [undefined] being [None]. *)
Fixpoint get (k : Value) (o : t) : option (list nat) :=
  match o with
  | [] => None
  | (k', v) :: o' => if bool_decide (k' = k) then Some v else get k o'
  end.

(** [o[k] = v] for a key that [o] does not have yet. *)
Fixpoint create (k : Value) (v : list nat) (o : t) : t :=
  match o with
  | [] => [(k, v)]
  | (k', v') :: o' =>
      if stays_before k' k then (k', v') :: create k v o'
      else (k, v) :: (k', v') :: o'
  end.

(** [o[k].push(idx)] for a key that [o] has. *)
Fixpoint push (k : Value) (idx : nat) (o : t) : t :=
  match o with
  | [] => []
  | (k', v) :: o' =>
      if bool_decide (k' = k) then (k', v ++ [idx]) :: o'
      else (k', v) :: push k idx o'
  end.

End Object.

(** ** [resolveTrayTriples] (solver.js 17-54) *)

(** [clearedIcons] holds [parseInt(key, 10)]: [None] is [NaN], the result
    for the key [undefined]. *)
Module Resolved.
Record t : Type := mk
  { tray : list Value; clearedCount : Z; clearedIcons : list (option Z) }.
End Resolved.

(** [parseInt(key, 10)]. *)
Definition parseInt (key : Value) : option Z :=
  match key with
  | Num z => Some z
  | Undefined => None
  end.

(** The [tray.forEach((iconIdx, idx) => ...)] that fills [iconCounts],
    started at index [idx]. *)
Fixpoint countIcons (tray : list Value) (idx : nat) (iconCounts : Object.t)
  : Object.t :=
  match tray with
  | [] => iconCounts
  | iconIdx :: rest =>
      let o :=
        match Object.get iconIdx iconCounts with
        | None => Object.create iconIdx [] iconCounts
        | Some _ => iconCounts
        end in
      countIcons rest (S idx) (Object.push iconIdx idx o)
  end.

Definition iconCounts (tray : list Value) : Object.t :=
  countIcons tray 0%nat [].

(** The [for (const iconIdx in iconCounts)] loop: the first property, in
    enumeration order, whose index list has length >= 3. *)
Definition firstTriple (o : Object.t) : option (Value * list nat) :=
  List.find (λ e, bool_decide (3 ≤ length e.2)%nat) o.

(** One iteration of the [while (changed)] body; [None] is
    [changed = false]. *)
Definition clearPass (tray : list Value) : option (list Value * Value) :=
  match firstTriple (iconCounts tray) with
  | Some (iconIdx, occ) =>
      let indices := sort_desc (take 3 occ) in
      Some (foldl (λ t idx, splice1 idx t) tray indices, iconIdx)
  | None => None
  end.

(** The [while (changed)] loop, one iteration per unit of [fuel]. *)
Fixpoint resolveLoop (fuel : nat) (st : Resolved.t) : Resolved.t :=
  match fuel with
  | O => st
  | S fuel' =>
      match clearPass (Resolved.tray st) with
      | None => st
      | Some (tray', iconIdx) =>
          resolveLoop fuel'
            (Resolved.mk tray' (Resolved.clearedCount st + 3)
               (Resolved.clearedIcons st ++ [parseInt iconIdx]))
      end
  end.

(** [resolveTrayTriples]: the loop is run with more fuel than it can use
    ([Js_resolveTrayTriples_stable] and [Js_resolveLoop_fuel] below). *)
Definition resolveTrayTriples (trayIconIndices : list Value) : Resolved.t :=
  resolveLoop (S (length trayIconIndices))
    (Resolved.mk trayIconIndices 0 []).

(** ** [hashState] (solver.js 60-62) *)

(** [join] prints [undefined] (and so a hole) as the empty string. *)
Definition print (v : Value) : string :=
  match v with
  | Num z => pretty z
  | Undefined => EmptyString
  end.

Definition join (sep : string) (a : list Value) : string :=
  String.concat sep (print <$> a).

Definition hashState (board : Board.t) (tray : list Value) : string :=
  join "," (values board) +:+ "|" +:+ join "," tray.

(** ** [scoreState] (solver.js 67-100) *)

(** [cleared >= 3 ? 100 * Math.floor(cleared / 3) : 0] with
    [cleared = prevTray.length - tray.length]. *)
Definition tripleReward (tray prevTray : list Value) : Z :=
  let cleared := Z.of_nat (length prevTray) - Z.of_nat (length tray) in
  if bool_decide (3 ≤ cleared) then 100 * (cleared / 3) else 0.

(** [iconCounts[iconIdx] = (iconCounts[iconIdx] || 0) + 1]. *)
Definition occurrences (tray : list Value) : gmap Value nat :=
  foldl (λ m iconIdx, <[iconIdx := (default 0 (m !! iconIdx) + 1)%nat]> m)
    ∅ tray.

(** [Object.values(iconCounts).forEach(count => ...)]: 12 per count that
    is 2. *)
Definition pairReward (tray : list Value) : Z :=
  map_fold (λ _ count acc, if bool_decide (count = 2%nat) then acc + 12 else acc)
    0 (occurrences tray).

(** [new Set(tray.filter(iconIdx => !prevIconSet.has(iconIdx))).size]. *)
Definition newIconCount (tray prevTray : list Value) : nat :=
  let prevIconSet : gset Value := list_to_set prevTray in
  let newIcons := filter (λ iconIdx, iconIdx ∉ prevIconSet) tray in
  size (list_to_set newIcons : gset Value).

Definition scoreState (board : Board.t) (tray prevTray : list Value)
    (prevRemaining newRemaining : nat) : Z :=
  let score := 0 in
  let score := score + tripleReward tray prevTray in
  let score := score + pairReward tray in
  let score := score - 8 * Z.of_nat (newIconCount tray prevTray) in
  let score := score - 3 * Z.of_nat (length tray) in
  let tilesRemoved := Z.of_nat prevRemaining - Z.of_nat newRemaining in
  score + tilesRemoved * 5.

(** ** [beamSearchSolve] (solver.js 105-223) and [isSolvable]
    (solver.js 228-230) *)

Module Node.
Record t : Type := mk
  { board : Board.t; tray : list Value; score : Z;
    moves : list nat; depth : nat; hash : string }.
End Node.

(** [candidates.sort((a, b) => b.score - a.score)]: descending by score,
    stable. *)
Fixpoint insertByScore (x : Node.t) (l : list Node.t) : list Node.t :=
  match l with
  | [] => [x]
  | y :: l' =>
      if bool_decide (Node.score x < Node.score y)
      then y :: insertByScore x l'
      else x :: l
  end.

Definition sortByScore (l : list Node.t) : list Node.t :=
  foldr insertByScore [] l.

(** The variables the loops of [beamSearchSolve] update. *)
Module Vars.
Record t : Type := mk
  { visited : gmap string Entry.t; expansions : nat;
    candidates : list Node.t }.
End Vars.

(** Result of the [for (const node of beam)] loop: a [return] from inside
    it, or the variables when the loop is left. *)
Inductive NodesOutcome : Type :=
  | Returned (r : Result)
  | Left (s : Vars.t).

Section Search.

Variable getClickableSlots : Board.t → list nat.
Variables beamWidth maxExpansions : nat.

(** The body of [for (const slotIdx of clickableSlots)] after
    [expansions++] (solver.js 159-204), for any position. *)
Definition expandSlot (depth : nat) (node : Node.t) (remaining : nat)
    (slotIdx : nat) (s : Vars.t) : Vars.t :=
  let iconIdx := elemAt (Node.board node) slotIdx in
  if bool_decide (iconIdx = Num (-1)) then s
  else
    let newBoard := setEmpty (spread (Node.board node)) slotIdx in
    let newTray := Node.tray node ++ [iconIdx] in
    let result := resolveTrayTriples newTray in
    if bool_decide (TRAY_CAPACITY < length (Resolved.tray result))%nat
    then s
    else
      let newRemaining := countRemaining newBoard in
      let newScore :=
        Node.score node
        + scoreState newBoard (Resolved.tray result) (Node.tray node)
            remaining newRemaining in
      let newMoves := Node.moves node ++ [slotIdx] in
      let newHash := hashState newBoard (Resolved.tray result) in
      let dominated :=
        match Vars.visited s !! newHash with
        | Some visitedEntry =>
            bool_decide (newScore ≤ Entry.score visitedEntry)
            && bool_decide
                 (Entry.trayLen visitedEntry
                  ≤ length (Resolved.tray result))%nat
        | None => false
        end in
      if dominated then s
      else
        Vars.mk
          (<[newHash :=
               Entry.mk newScore (length (Resolved.tray result))]>
             (Vars.visited s))
          (Vars.expansions s)
          (Vars.candidates s
           ++ [Node.mk newBoard (Resolved.tray result) newScore
                 newMoves (S depth) newHash]).

(** [for (const slotIdx of clickableSlots)] (solver.js 155-205). *)
Fixpoint forSlots (depth : nat) (node : Node.t) (remaining : nat)
    (clickableSlots : list nat) (s : Vars.t) : Vars.t :=
  match clickableSlots with
  | [] => s
  | slotIdx :: rest =>
      if bool_decide (maxExpansions ≤ Vars.expansions s)%nat then s
      else
        forSlots depth node remaining rest
          (expandSlot depth node remaining slotIdx
             (Vars.mk (Vars.visited s) (S (Vars.expansions s))
                (Vars.candidates s)))
  end.

Definition solved (node : Node.t) : bool :=
  bool_decide (countRemaining (Node.board node) = 0%nat)
  && bool_decide (length (Node.tray node) = 0%nat).

(** [for (const node of beam)] (solver.js 133-206). *)
Fixpoint forNodes (depth : nat) (beam : list Node.t) (s : Vars.t)
    : NodesOutcome :=
  match beam with
  | [] => Left s
  | node :: rest =>
      if bool_decide (maxExpansions ≤ Vars.expansions s)%nat
      then Left s
      else
        let remaining := countRemaining (Node.board node) in
        if solved node then
          Returned
            (Solvable (Node.moves node)
               (Stats.mk (Vars.expansions s) (Some (Node.score node))
                  beamWidth (Some depth)))
        else
          forNodes depth rest
            (forSlots depth node remaining
               (getClickableSlots (Node.board node)) s)
  end.

(** The result built after the depth loop (solver.js 214-222). *)
Definition noSolution (beam : list Node.t) (expansions : nat) : Result :=
  Unsolvable
    (Stats.mk expansions (Node.score <$> head beam) beamWidth None).

(** [for (let depth = 0; depth < maxDepth && beam.length > 0; depth++)]
    (solver.js 130-211); [togo] is [maxDepth - depth]. *)
Fixpoint forDepth (togo : nat) (depth : nat) (beam : list Node.t)
    (visited : gmap string Entry.t) (expansions : nat) : Result :=
  match togo with
  | O => noSolution beam expansions
  | S togo' =>
      if bool_decide (beam = []) then noSolution beam expansions
      else
        match forNodes depth beam (Vars.mk visited expansions []) with
        | Returned r => r
        | Left s =>
            forDepth togo' (S depth)
              (take beamWidth (sortByScore (Vars.candidates s)))
              (Vars.visited s) (Vars.expansions s)
        end
  end.

End Search.

(** [initialNode] (solver.js 117-124): the board is [[...initialBoard]],
    the hash is computed from [initialBoard] itself. *)
Definition initialNode (initialBoard : list Z) : Node.t :=
  Node.mk (spread (ofArray initialBoard)) [] 0 [] 0%nat
    (hashState (ofArray initialBoard) []).

Definition beamSearchSolve (initialBoard : list Z)
    (getClickableSlots : Board.t → list nat) (params : Params.t)
    : Result :=
  let beamWidth := orDefault (Params.beamWidth params) SOLVER_BEAM_WIDTH in
  let maxExpansions :=
    orDefault (Params.maxExpansions params) SOLVER_MAX_EXPANSIONS in
  let maxDepth := orDefault (Params.maxDepth params) SOLVER_MAX_DEPTH in
  let node := initialNode initialBoard in
  let visited : gmap string Entry.t :=
    <[Node.hash node := Entry.mk 0 0%nat]> ∅ in
  forDepth getClickableSlots beamWidth maxExpansions maxDepth 0%nat [node]
    visited 0%nat.

Definition isSolvable (initialBoardAssignment : list Z)
    (getClickableSlotIndices : Board.t → list nat) (params : Params.t)
    : Result :=
  beamSearchSolve initialBoardAssignment getClickableSlotIndices params.

(** The variables [(beam, visited, expansions)] at the head of the depth
    loop when [depth] iterations have been completed; [None] when the
    call does not get there (the loop was left or the function returned
    earlier). *)
Fixpoint stateAt (getClickableSlots : Board.t → list nat)
    (beamWidth maxExpansions : nat) (initialBoard : list Z) (depth : nat)
    : option (list Node.t * gmap string Entry.t * nat) :=
  match depth with
  | O =>
      Some ([initialNode initialBoard],
            <[Node.hash (initialNode initialBoard) := Entry.mk 0 0%nat]> ∅,
            0%nat)
  | S depth' =>
      st ← stateAt getClickableSlots beamWidth maxExpansions initialBoard
             depth';
      let '(beam, visited, expansions) := st in
      if bool_decide (beam = []) then None
      else
        match forNodes getClickableSlots beamWidth maxExpansions depth' beam
                (Vars.mk visited expansions []) with
        | Returned _ => None
        | Left s =>
            Some (take beamWidth (sortByScore (Vars.candidates s)),
                  Vars.visited s, Vars.expansions s)
        end
  end.

(** Every position of the board is selectable. *)
Definition allPositions (board : Board.t) : list nat :=
  seq 0 (length (Board.elems board)).

(** A collaborator that, while the board has fewer than 6 elements, hands
    out the position just past its end, and the first three positions
    afterwards. *)
Definition pastTheEnd (board : Board.t) : list nat :=
  if bool_decide (length (Board.elems board) < 6)%nat
  then [length (Board.elems board)]
  else [0; 1; 2]%nat.

(** The collaborator as arrays of integers see it. *)
Definition onArrays (getClickableSlots : Board.t → list nat)
    : list Z → list nat :=
  λ board, getClickableSlots (ofArray board).

End Js.

(** ** Specification-side notions for the Resolution Engine *)

(** Total occurrence count of a piece type in a tray. *)
Definition occurrenceCount (k : Z) (tray : list Z) : nat :=
  length (filter (λ x, x = k) tray).

(** The tray without the [n] lowest-index occurrences of [k]. *)
Fixpoint removeEarliest (n : nat) (k : Z) (tray : list Z) : list Z :=
  match n, tray with
  | O, _ => tray
  | _, [] => []
  | S n', x :: rest =>
      if bool_decide (x = k) then removeEarliest n' k rest
      else x :: removeEarliest n k rest
  end.

(** [clears tray ks tray']: starting from [tray], removing in turn the
    three earliest occurrences of each type of [ks], every one of them
    having count >= 3 when its turn comes, ends in [tray'], in which no
    type has count >= 3. *)
Inductive clears : list Z → list Z → list Z → Prop :=
| clears_done tray :
    (∀ k, (occurrenceCount k tray < 3)%nat) → clears tray [] tray
| clears_step tray k ks tray' :
    (3 ≤ occurrenceCount k tray)%nat →
    clears (removeEarliest 3 k tray) ks tray' →
    clears tray (k :: ks) tray'.

(** [passes ks tray tray']: [length ks] acting iterations of the [while]
    body lead from [tray] to [tray'], pushing the icons [ks] on
    [clearedIcons] in this order. *)
Inductive passes : list Z → list Z → list Z → Prop :=
| passes_nil tray : passes [] tray tray
| passes_cons tray tray1 iconIdx ks tray' :
    clearPass tray = Some (tray1, iconIdx) →
    passes ks tray1 tray' →
    passes (iconIdx :: ks) tray tray'.

(** A piece-type identifier as the specification has it: a small
    non-negative integer (here: any array-index key). *)
Definition pieceType (k : Z) : Prop := 0 ≤ k < 2 ^ 32 - 1.

(** The indices of [tray] that hold [k], ascending, counted from [idx]. *)
Fixpoint positions (k : Z) (tray : list Z) (idx : nat) : list nat :=
  match tray with
  | [] => []
  | x :: rest =>
      if bool_decide (x = k) then idx :: positions k rest (S idx)
      else positions k rest (S idx)
  end.

(** ** Specification-side notions for the search *)

(** Replaying a move sequence from a board and a tray: each position
    must be among the currently selectable ones and hold a piece; the
    piece leaves the board for the end of the tray, and the tray is
    resolved.  [None] when a step is not allowed. *)
Fixpoint replay (selectablePositions : list Z → list nat)
    (board tray : list Z) (moves : list nat) : option (list Z * list Z) :=
  match moves with
  | [] => Some (board, tray)
  | pos :: rest =>
      if bool_decide (pos ∈ selectablePositions board) then
        match board !! pos with
        | Some piece =>
            if bool_decide (piece = -1) then None
            else
              replay selectablePositions (<[pos := -1]> board)
                (Resolved.tray (resolveTrayTriples (tray ++ [piece]))) rest
        | None => None
        end
      else None
  end.

(** The variables [(beam, visited, expansions)] at the head of the depth
    loop when [depth] iterations have been completed; [None] when the
    call does not get there (the loop was left or the function returned
    earlier, or the run left the embedding).  [maxDepth] only decides
    where the loop stops. *)
Fixpoint stateAt (getClickableSlots : list Z → list nat)
    (beamWidth maxExpansions : nat) (initialBoard : list Z) (depth : nat)
    : option (list Node.t * gmap string Entry.t * nat) :=
  match depth with
  | O =>
      Some ([initialNode initialBoard],
            <[Node.hash (initialNode initialBoard) := Entry.mk 0 0%nat]> ∅,
            0%nat)
  | S depth' =>
      st ← stateAt getClickableSlots beamWidth maxExpansions initialBoard
             depth';
      let '(beam, visited, expansions) := st in
      if bool_decide (beam = []) then None
      else
        o ← forNodes getClickableSlots beamWidth maxExpansions depth' beam
              (Vars.mk visited expansions []);
        match o with
        | Returned _ => None
        | Left s =>
            Some (take beamWidth (sortByScore (Vars.candidates s)),
                  Vars.visited s, Vars.expansions s)
        end
  end.

(** A collaborator is well formed when it only returns positions of the
    board it is given. *)
Definition wellFormed (selectablePositions : list Z → list nat) : Prop :=
  ∀ board pos, pos ∈ selectablePositions board → (pos < length board)%nat.

(** ** Invariants and relations used in the proofs *)

(** The invariant of the [forEach] that fills [iconCounts]: after the
    prefix [p] of the tray has been visited, every icon of [p] is a key
    and is mapped to its positions in [p]. *)
Definition counted (p : list Z) (o : JsObject.t) : Prop :=
  NoDup (JsObject.keys o)
  ∧ ∀ k, JsObject.get k o
         = if bool_decide (k ∈ p) then Some (positions k p 0) else None.

(** Equal lists up to the bracketing of [++]. *)
Ltac reassoc := repeat (rewrite <- app_assoc; simpl); reflexivity.

(** Goals about [occurrenceCount] on a tray written out element by
    element: case analysis on the equalities between its elements. *)
Ltac count_cases :=
  unfold occurrenceCount; rewrite ?filter_cons, ?filter_nil;
  repeat case_decide; simpl; subst; try congruence; try lia.

(** A node is the state reached by replaying its own moves. *)
Definition replays (sel : list Z → list nat) (initialBoard : list Z)
    (node : Node.t) : Prop :=
  replay sel initialBoard [] (Node.moves node)
  = Some (Node.board node, Node.tray node).

(** The tray of a node fits the tray capacity. *)
Definition withinCapacity (node : Node.t) : Prop :=
  (length (Node.tray node) ≤ TRAY_CAPACITY)%nat.

(** The increment as the specification describes it, from the result of
    the Resolution Engine for this step, the tray before the move and the
    two remaining-piece counts. *)
Definition describedIncrement (result : Resolved.t) (prevTray : list Z)
    (prevRemaining newRemaining : nat) : Z :=
  let tray := Resolved.tray result in
  let types := remove_dups tray in
  100 * (Resolved.clearedCount result / 3)
  + 12 * Z.of_nat
           (length (filter (λ k, occurrenceCount k tray = 2%nat) types))
  - 8 * Z.of_nat (length (filter (λ k, k ∉ prevTray) types))
  - 3 * Z.of_nat (length tray)
  + 5 * (Z.of_nat prevRemaining - Z.of_nat newRemaining).

(** In the store [h] the node reference [nR] stands for the node [n]. *)
Definition nodeRel (h : list (list Z)) (nR : Store.NodeRef.t) (n : Node.t)
    : Prop :=
  Store.nodeAt h nR = Some n.

(** The same for the loop variables: equal [visited] and [expansions],
    candidates related one by one. *)
Definition varsRel (h : list (list Z)) (sR : Store.VarsRef.t) (s : Vars.t)
    : Prop :=
  Store.VarsRef.visited sR = Vars.visited s
  ∧ Store.VarsRef.expansions sR = Vars.expansions s
  ∧ Forall2 (nodeRel h) (Store.VarsRef.candidates sR) (Vars.candidates s).

(** ** Notions for the properties beyond the claims *)

(** [r.stats] of a result object. *)
Definition statsOf (r : Result) : Stats.t :=
  match r with
  | Solvable _ stats => stats
  | Unsolvable stats => stats
  end.

(** The tray in which an element stays when the occurrences of its type
    from it to the end of the tray number at most [keep] of that type. *)
Fixpoint keepLast (keep : Z → nat) (tray : list Z) : list Z :=
  match tray with
  | [] => []
  | x :: rest =>
      if bool_decide (occurrenceCount x (x :: rest) ≤ keep x)%nat
      then x :: keepLast keep rest
      else keepLast keep rest
  end.

(** Every type keeps its last [count mod 3] occurrences. *)
Definition residue (tray : list Z) : list Z :=
  keepLast (λ k, occurrenceCount k tray `mod` 3)%nat tray.

(** [replay] with the lose condition of the game: a step after which the
    resolved tray is longer than [capacity] is not allowed either. *)
Fixpoint replayWithin (capacity : nat)
    (selectablePositions : list Z → list nat)
    (board tray : list Z) (moves : list nat) : option (list Z * list Z) :=
  match moves with
  | [] => Some (board, tray)
  | pos :: rest =>
      if bool_decide (pos ∈ selectablePositions board) then
        match board !! pos with
        | Some piece =>
            let tray' :=
              Resolved.tray (resolveTrayTriples (tray ++ [piece])) in
            if bool_decide (piece = -1) then None
            else if bool_decide (capacity < length tray')%nat then None
            else
              replayWithin capacity selectablePositions
                (<[pos := -1]> board) tray' rest
        | None => None
        end
      else None
  end.

(** The character [c] does not occur in the string [s]. *)
Fixpoint lacks (c : ascii) (s : string) : bool :=
  match s with
  | EmptyString => true
  | String a s' => negb (Ascii.eqb a c) && lacks c s'
  end.

(** What follows the first element in [a.join(",")]: nothing, or a comma
    and the rest joined. *)
Definition joinTail (rest : list string) : string :=
  match rest with
  | [] => EmptyString
  | _ :: _ => String ","%char (String.concat "," rest)
  end.

(** Descending by score, as [candidates.sort] leaves the array. *)
Definition byScoreDesc (a b : Node.t) : Prop := Node.score b ≤ Node.score a.

(** What every frontier node records. *)
Definition nodeRecords (initialBoard : list Z) (depth : nat) (node : Node.t)
    : Prop :=
  Node.depth node = depth
  ∧ length (Node.moves node) = depth
  ∧ Node.hash node = hashState (Node.board node) (Node.tray node)
  ∧ length (Node.board node) = length initialBoard
  ∧ (countRemaining (Node.board node) + depth)%nat
    = countRemaining initialBoard.

(** The node is the state its own moves lead to, the tray never
    exceeding the capacity on the way. *)
Definition replaysWithin (sel : list Z → list nat) (initialBoard : list Z)
    (node : Node.t) : Prop :=
  replayWithin TRAY_CAPACITY sel initialBoard [] (Node.moves node)
  = Some (Node.board node, Node.tray node).




(** ** Notions relating the search on arrays of integers to the search
    on any positions *)

(** An object of the integer rendering with its keys read through [f]. *)
Definition keysBy (f : Z → Js.Value) (o : JsObject.t) : Js.Object.t :=
  prod_map f id <$> o.

(** A result of the integer rendering with its values read through [f]. *)
Definition resolvedBy (f : Z → Js.Value) (st : Resolved.t) : Js.Resolved.t :=
  Js.Resolved.mk (f <$> Resolved.tray st) (Resolved.clearedCount st)
    (Js.parseInt ∘ f <$> Resolved.clearedIcons st).

(** An integer below every integer of the tray, and negative: the key of
    no array index. *)
Definition below (tray : list Js.Value) : Z :=
  foldr (λ v m, match v with Js.Num z => Z.min z m | Js.Undefined => m end)
    (-1) tray - 1.

(** Reading the integer [z0] as [undefined] and back. *)
Definition asValue (z0 z : Z) : Js.Value :=
  if bool_decide (z = z0) then Js.Undefined else Js.Num z.

Definition asNumber (z0 : Z) (v : Js.Value) : Z :=
  match v with
  | Js.Num z => z
  | Js.Undefined => z0
  end.

(** Nodes, loop variables and loop outcomes of the integer rendering as
    the general one has them. *)
Definition nodeOf (node : Node.t) : Js.Node.t :=
  Js.Node.mk (Js.ofArray (Node.board node)) (Js.Num <$> Node.tray node)
    (Node.score node) (Node.moves node) (Node.depth node) (Node.hash node).

Definition varsOf (s : Vars.t) : Js.Vars.t :=
  Js.Vars.mk (Vars.visited s) (Vars.expansions s)
    (nodeOf <$> Vars.candidates s).

Definition outcomeOf (o : NodesOutcome) : Js.NodesOutcome :=
  match o with
  | Returned r => Js.Returned r
  | Left s => Js.Left (varsOf s)
  end.

(** What every frontier node records when all moves were inside the
    board. *)
Definition nodeRecordsOnBoard (initialBoard : list Z) (depth : nat)
    (node : Js.Node.t) : Prop :=
  Js.Node.depth node = depth
  ∧ length (Js.Node.moves node) = depth
  ∧ Js.Node.hash node
    = Js.hashState (Js.Node.board node) (Js.Node.tray node)
  ∧ length (Js.Board.elems (Js.Node.board node)) = length initialBoard
  ∧ (Js.countRemaining (Js.Node.board node) + depth)%nat
    = countRemaining initialBoard
  ∧ ∃ board tray,
      Js.Node.board node = Js.ofArray board
      ∧ Js.Node.tray node = Js.Num <$> tray.

(** What every frontier node records, whatever positions the collaborator
    hands out. *)
Definition nodeRecordsAnywhere (depth : nat) (node : Js.Node.t) : Prop :=
  Js.Node.depth node = depth
  ∧ length (Js.Node.moves node) = depth
  ∧ Js.Node.hash node
    = Js.hashState (Js.Node.board node) (Js.Node.tray node)
  ∧ (length (Js.Node.tray node) ≤ TRAY_CAPACITY)%nat
  ∧ Js.clearPass (Js.Node.tray node) = None.

(** * Theorems *)

(** ** JS objects *)

Section JsObjectFacts.
Import JsObject.

Lemma get_None_keys k o : get k o = None ↔ k ∉ keys o.
Proof.
  unfold keys. induction o as [|[k' v] o IH]; simpl.
  - split; [intros _; apply not_elem_of_nil | done].
  - rewrite not_elem_of_cons. destruct (decide (k' = k)) as [->|Hne].
    + rewrite bool_decide_eq_true_2 by done.
      split; [intros ?; discriminate | intros [? _]; congruence].
    + rewrite bool_decide_eq_false_2 by done. rewrite IH.
      split; [intros; split; [congruence | done] | tauto].
Qed.

Lemma get_elem_of k v o : NoDup (keys o) → (k, v) ∈ o → get k o = Some v.
Proof.
  unfold keys. induction o as [|[k' v'] o IH]; simpl; intros Hnd Hin.
  - by apply elem_of_nil in Hin.
  - apply NoDup_cons in Hnd as [Hk Hnd].
    apply elem_of_cons in Hin as [[= <- <-]|Hin].
    + by rewrite bool_decide_eq_true_2.
    + case_bool_decide; subst; [|by apply IH].
      destruct Hk. apply list_elem_of_fmap. by exists (k, v).
Qed.

Lemma get_Some_elem_of k v o : get k o = Some v → (k, v) ∈ o.
Proof.
  induction o as [|[k' v'] o IH]; simpl; [done|].
  case_bool_decide; subst.
  - intros [= ->]. left.
  - intros. right. auto.
Qed.

Lemma keys_create k v o : keys (create k v o) ≡ₚ k :: keys o.
Proof.
  unfold keys. induction o as [|[k' v'] o IH]; csimpl; [done|].
  destruct (stays_before k' k); csimpl; [|done].
  rewrite IH. apply Permutation_swap.
Qed.

Lemma keys_push k idx o : keys (push k idx o) = keys o.
Proof.
  unfold keys. induction o as [|[k' v'] o IH]; csimpl; [done|].
  case_bool_decide; csimpl; [done | by rewrite IH].
Qed.

Lemma get_create k v j o :
  get k o = None →
  get j (create k v o) = if bool_decide (j = k) then Some v else get j o.
Proof.
  induction o as [|[k' v'] o IH]; simpl.
  - intros _. repeat case_bool_decide; congruence.
  - destruct (decide (k' = k)) as [->|Hk];
      [by rewrite bool_decide_eq_true_2|].
    rewrite (bool_decide_eq_false_2 (k' = k)) by done. intros Hg.
    destruct (stays_before k' k); simpl; rewrite ?IH by done;
      repeat case_bool_decide; congruence.
Qed.

Lemma get_push k idx j o :
  get j (push k idx o)
  = if bool_decide (j = k) then (λ v, v ++ [idx]) <$> get k o else get j o.
Proof.
  induction o as [|[k' v'] o IH]; simpl.
  - by case_bool_decide.
  - repeat (case_bool_decide; simpl; subst); congruence.
Qed.

Lemma create_sorted k v o :
  is_array_index k = true →
  Forall (λ k', is_array_index k' = true) (keys o) →
  k ∉ keys o →
  StronglySorted Z.lt (keys o) →
  StronglySorted Z.lt (keys (create k v o)).
Proof.
  unfold keys. intros Hk.
  induction o as [|[k' v'] o IH]; simpl; intros Hall Hnin Hs.
  - repeat constructor.
  - apply Forall_cons in Hall as [Hk' Hall].
    apply not_elem_of_cons in Hnin as [Hne Hnin].
    apply StronglySorted_inv in Hs as [Hs Hlt].
    unfold stays_before. rewrite Hk, Hk'. simpl.
    case_bool_decide as Hc; simpl.
    + constructor; [by apply IH|].
      fold (keys (create k v o)). rewrite keys_create.
      constructor; [done | exact Hlt].
    + assert (k < k') by lia.
      constructor; [by constructor|].
      constructor; [done|].
      eapply Forall_impl; [exact Hlt|]. simpl. intros; lia.
Qed.

End JsObjectFacts.

(** ** [iconCounts] holds, per icon, its positions in the tray *)

Lemma positions_app k p q idx :
  positions k (p ++ q) idx
  = positions k p idx ++ positions k q (idx + length p).
Proof.
  revert idx. induction p as [|x p IH]; intros idx; simpl.
  - by rewrite Nat.add_0_r.
  - rewrite IH, Nat.add_succ_r. by case_bool_decide.
Qed.

Lemma positions_nil_iff k tray idx : positions k tray idx = [] ↔ k ∉ tray.
Proof.
  revert idx. induction tray as [|x tray IH]; intros idx; simpl.
  - split; [intros _; apply not_elem_of_nil | done].
  - rewrite not_elem_of_cons. destruct (decide (x = k)) as [->|Hne].
    + rewrite bool_decide_eq_true_2 by done. split; [done | tauto].
    + rewrite bool_decide_eq_false_2 by done. rewrite IH.
      split; [auto | tauto].
Qed.

Lemma length_positions k tray idx :
  length (positions k tray idx) = occurrenceCount k tray.
Proof.
  unfold occurrenceCount. revert idx.
  induction tray as [|x tray IH]; intros idx; simpl; [done|].
  rewrite filter_cons. case_bool_decide; case_decide; simpl;
    try congruence; by rewrite IH.
Qed.

Lemma counted_nil : counted [] [].
Proof.
  split; [constructor | done].
Qed.

Lemma counted_step p o x :
  counted p o →
  counted (p ++ [x])
    (JsObject.push x (length p)
       match JsObject.get x o with
       | None => JsObject.create x [] o
       | Some _ => o
       end).
Proof.
  intros [Hnd Hget].
  assert (Hx := Hget x).
  split.
  - rewrite keys_push. destruct (JsObject.get x o) eqn:Hgx; [done|].
    rewrite keys_create. apply NoDup_cons. split; [|done].
    by apply get_None_keys.
  - intros k. rewrite get_push, positions_app. simpl.
    destruct (decide (k = x)) as [->|Hne].
    + rewrite !bool_decide_eq_true_2 by (done || set_solver).
      destruct (JsObject.get x o) eqn:Hgx.
      * rewrite Hgx. case_bool_decide; [|done].
        injection Hx as ->. done.
      * rewrite get_create, bool_decide_eq_true_2 by done. simpl.
        case_bool_decide; [done|].
        assert (positions x p 0 = []) as -> by by apply positions_nil_iff.
        done.
    + rewrite (bool_decide_eq_false_2 (k = x)) by done.
      rewrite (bool_decide_eq_false_2 (x = k)) by done.
      rewrite app_nil_r.
      assert (JsObject.get k
                match JsObject.get x o with
                | Some _ => o
                | None => JsObject.create x [] o
                end = JsObject.get k o) as ->.
      { destruct (JsObject.get x o) eqn:Hgx; [done|].
        rewrite get_create by done. by rewrite bool_decide_eq_false_2. }
      rewrite Hget.
      rewrite (bool_decide_ext (k ∈ p ++ [x]) (k ∈ p)); [done|].
      rewrite elem_of_app, list_elem_of_singleton. tauto.
Qed.

Lemma countIcons_counted rest p o :
  counted p o → counted (p ++ rest) (countIcons rest (length p) o).
Proof.
  revert p o. induction rest as [|x rest IH]; intros p o Hc; simpl.
  - by rewrite app_nil_r.
  - replace (p ++ x :: rest) with ((p ++ [x]) ++ rest)
      by by rewrite <- app_assoc.
    replace (S (length p)) with (length (p ++ [x]))
      by (rewrite length_app; simpl; lia).
    apply IH. by apply counted_step.
Qed.

Lemma iconCounts_counted tray : counted tray (iconCounts tray).
Proof. apply (countIcons_counted tray [] []), counted_nil. Qed.

(** ** One pass of the loop against [removeEarliest] *)

Lemma firstTriple_Some o k v :
  firstTriple o = Some (k, v) → (k, v) ∈ o ∧ (3 ≤ length v)%nat.
Proof.
  unfold firstTriple. intros H. apply find_some in H as [Hin Hp].
  apply list_elem_of_In in Hin. apply bool_decide_eq_true in Hp. done.
Qed.

Lemma firstTriple_None o k v :
  firstTriple o = None → (k, v) ∈ o → (length v < 3)%nat.
Proof.
  unfold firstTriple. intros H Hin. apply list_elem_of_In in Hin.
  pose proof (find_none _ _ H _ Hin) as Hp. simpl in Hp.
  apply bool_decide_eq_false in Hp. lia.
Qed.

Lemma firstTriple_is_Some o k v :
  (k, v) ∈ o → (3 ≤ length v)%nat → is_Some (firstTriple o).
Proof.
  intros Hin Hlen. destruct (firstTriple o) eqn:E; [by eexists|].
  pose proof (firstTriple_None _ _ _ E Hin). lia.
Qed.

Lemma positions_cons_inv k tray idx i rest :
  positions k tray idx = i :: rest →
  ∃ a tray', tray = a ++ k :: tray' ∧ (k ∉ a)
             ∧ i = (idx + length a)%nat ∧ rest = positions k tray' (S i).
Proof.
  revert idx. induction tray as [|x tray IH]; intros idx; simpl; [done|].
  destruct (decide (x = k)) as [->|Hne].
  - rewrite bool_decide_eq_true_2 by done. intros [= <- <-].
    exists [], tray. simpl. rewrite Nat.add_0_r.
    split_and!; [done | apply not_elem_of_nil | done | done].
  - rewrite bool_decide_eq_false_2 by done. intros H.
    destruct (IH _ H) as (a & tray' & -> & Hnin & -> & ->).
    exists (x :: a), tray'. simpl.
    split_and!; [done | | lia | done].
    apply not_elem_of_cons. auto.
Qed.

Lemma splice1_at {A} (p : list A) x q i l :
  l = p ++ x :: q → i = length p → splice1 i l = p ++ q.
Proof.
  intros -> ->. unfold splice1. rewrite take_app_length.
  rewrite drop_app_ge by lia.
  by replace (S (length p) - length p)%nat with 1%nat by lia.
Qed.

Lemma removeEarliest_app n k a r :
  k ∉ a → removeEarliest (S n) k (a ++ k :: r) = a ++ removeEarliest n k r.
Proof.
  induction a as [|x a IH]; simpl; intros Hnin.
  - by rewrite bool_decide_eq_true_2.
  - apply not_elem_of_cons in Hnin as [Hne Hnin].
    rewrite bool_decide_eq_false_2 by done. by rewrite IH.
Qed.

Lemma removeEarliest_0 k tray : removeEarliest 0 k tray = tray.
Proof. by destruct tray. Qed.

Lemma sort_desc_ascending3 i1 i2 i3 :
  (i1 < i2)%nat → (i2 < i3)%nat → sort_desc [i1; i2; i3] = [i3; i2; i1].
Proof.
  intros H12 H23. unfold sort_desc. simpl.
  rewrite (bool_decide_eq_true_2 (i2 < i3)%nat) by done. simpl.
  rewrite (bool_decide_eq_true_2 (i1 < i3)%nat) by lia.
  by rewrite (bool_decide_eq_true_2 (i1 < i2)%nat) by done.
Qed.

Lemma splices_removeEarliest k tray occ :
  positions k tray 0 = occ → (3 ≤ length occ)%nat →
  foldl (λ t idx, splice1 idx t) tray (sort_desc (take 3 occ))
  = removeEarliest 3 k tray.
Proof.
  intros Hocc Hlen.
  destruct occ as [|i1 [|i2 [|i3 occ]]]; simpl in Hlen; try lia.
  apply positions_cons_inv in Hocc as (a & t1 & -> & Ha & -> & Hocc).
  symmetry in Hocc.
  apply positions_cons_inv in Hocc as (b & t2 & -> & Hb & -> & Hocc).
  symmetry in Hocc.
  apply positions_cons_inv in Hocc as (c & t3 & -> & Hc & -> & _).
  simpl take. rewrite sort_desc_ascending3 by lia. simpl foldl.
  rewrite !removeEarliest_app, removeEarliest_0 by done.
  rewrite (splice1_at (a ++ k :: b ++ k :: c) k t3 _
             (a ++ k :: b ++ k :: c ++ k :: t3));
    [ | reassoc
      | rewrite !length_app; simpl; rewrite !length_app; simpl; lia ].
  rewrite (splice1_at (a ++ k :: b) k (c ++ t3) _
             ((a ++ k :: b ++ k :: c) ++ t3));
    [ | reassoc
      | rewrite !length_app; simpl; lia ].
  rewrite (splice1_at a k (b ++ c ++ t3) _ ((a ++ k :: b) ++ c ++ t3));
    [ done | reassoc | lia ].
Qed.

Lemma clearPass_Some tray tray' k :
  clearPass tray = Some (tray', k) →
  (3 ≤ occurrenceCount k tray)%nat ∧ tray' = removeEarliest 3 k tray.
Proof.
  unfold clearPass. destruct (firstTriple _) as [[k0 occ]|] eqn:E; [|done].
  intros [= <- <-]. apply firstTriple_Some in E as [Hin Hlen].
  destruct (iconCounts_counted tray) as [Hnd Hget].
  apply (get_elem_of _ _ _ Hnd) in Hin. rewrite Hget in Hin.
  case_bool_decide; [|done]. injection Hin as <-.
  split.
  - by rewrite <- (length_positions k0 tray 0).
  - by apply splices_removeEarliest.
Qed.

Lemma clearPass_None tray k :
  clearPass tray = None → (occurrenceCount k tray < 3)%nat.
Proof.
  unfold clearPass. destruct (firstTriple _) as [[k0 occ]|] eqn:E; [done|].
  intros _. destruct (iconCounts_counted tray) as [Hnd Hget].
  specialize (Hget k). case_bool_decide as Hin.
  - apply get_Some_elem_of in Hget.
    rewrite <- (length_positions k tray 0).
    eapply firstTriple_None; eauto.
  - apply (positions_nil_iff k tray 0) in Hin.
    rewrite <- (length_positions k tray 0), Hin. simpl. lia.
Qed.

Lemma clearPass_is_Some tray k :
  (3 ≤ occurrenceCount k tray)%nat → is_Some (clearPass tray).
Proof.
  intros Hk. destruct (clearPass tray) as [r|] eqn:E; [by eexists|].
  pose proof (clearPass_None tray k E). lia.
Qed.

Lemma length_removeEarliest n k tray :
  (n ≤ occurrenceCount k tray)%nat →
  (length (removeEarliest n k tray) + n = length tray)%nat.
Proof.
  unfold occurrenceCount. revert n.
  induction tray as [|x tray IH]; intros n; simpl.
  - destruct n; simpl; lia.
  - rewrite filter_cons. destruct n as [|n]; [simpl; lia|].
    case_bool_decide; case_decide; try congruence; simpl; intros Hn.
    + specialize (IH n). lia.
    + specialize (IH (S n)). lia.
Qed.

Lemma clearPass_length tray tray' k :
  clearPass tray = Some (tray', k) → length tray = (length tray' + 3)%nat.
Proof.
  intros H. apply clearPass_Some in H as [Hk ->].
  by rewrite length_removeEarliest.
Qed.

(** ** The [while (changed)] loop *)

Lemma passes_unique ks1 ks2 tray t1 t2 :
  passes ks1 tray t1 → clearPass t1 = None →
  passes ks2 tray t2 → clearPass t2 = None →
  ks1 = ks2 ∧ t1 = t2.
Proof.
  intros H1. revert ks2 t2.
  induction H1 as [tray|tray tray1 k ks tray' Hp H1 IH];
    intros ks2 t2 Hn1 H2 Hn2.
  - inversion H2; subst; [done | congruence].
  - inversion H2 as [|? ? ? ? ? Hp2 H2']; subst; [congruence|].
    rewrite Hp in Hp2. injection Hp2 as <- <-.
    destruct (IH _ _ Hn1 H2' Hn2) as [-> ->]. done.
Qed.

Lemma passes_length ks tray tray' :
  passes ks tray tray' → length tray = (length tray' + 3 * length ks)%nat.
Proof.
  induction 1 as [|? ? ? ? ? Hp _ IH]; simpl; [lia|].
  apply clearPass_length in Hp. lia.
Qed.

Lemma passes_clears ks tray tray' :
  passes ks tray tray' → clearPass tray' = None → clears tray ks tray'.
Proof.
  induction 1 as [tray|? ? ? ? ? Hp _ IH]; intros Hn.
  - constructor. intros k. by apply clearPass_None.
  - apply clearPass_Some in Hp as [Hk ->]. constructor; auto.
Qed.

(** With enough fuel the loop is left through [changed = false]. *)
Lemma resolveLoop_passes fuel st :
  (length (Resolved.tray st) / 3 < fuel)%nat →
  ∃ ks tray',
    passes ks (Resolved.tray st) tray'
    ∧ clearPass tray' = None
    ∧ resolveLoop fuel st
      = Resolved.mk tray'
          (Resolved.clearedCount st + 3 * Z.of_nat (length ks))
          (Resolved.clearedIcons st ++ ks).
Proof.
  revert st. induction fuel as [|fuel IH]; intros [tray cc ci]; simpl;
    [lia|].
  intros Hfuel. destruct (clearPass tray) as [[tray1 k]|] eqn:Hp.
  - pose proof (clearPass_length _ _ _ Hp) as Hlen.
    destruct (IH (Resolved.mk tray1 (cc + 3) (ci ++ [k])))
      as (ks & tray' & Hps & Hn & ->).
    { simpl. rewrite Hlen in Hfuel.
      pose proof (Nat.div_add (length tray1) 1 3) as Hdiv.
      simpl in Hdiv. rewrite Hdiv in Hfuel by lia. lia. }
    exists (k :: ks), tray'. simpl in *.
    split_and!; [econstructor; eauto | done |].
    f_equal; [lia | by rewrite <- app_assoc].
  - exists [], tray. simpl.
    split_and!; [constructor | done |].
    f_equal; [lia | by rewrite app_nil_r].
Qed.

Lemma resolveTrayTriples_passes tray :
  ∃ ks tray',
    passes ks tray tray'
    ∧ clearPass tray' = None
    ∧ resolveTrayTriples tray
      = Resolved.mk tray' (3 * Z.of_nat (length ks)) ks.
Proof.
  unfold resolveTrayTriples.
  destruct (resolveLoop_passes (S (length tray)) (Resolved.mk tray 0 []))
    as (ks & tray' & Hps & Hn & ->).
  { pose proof (Nat.Div0.div_le_upper_bound (length tray) 3 (length tray)).
    cbn [Resolved.tray]. lia. }
  exists ks, tray'. simpl. by rewrite Z.add_0_l.
Qed.

(** The result does not depend on how much spare fuel there is. *)
Lemma resolveLoop_fuel fuel tray :
  (length tray / 3 < fuel)%nat →
  resolveLoop fuel (Resolved.mk tray 0 []) = resolveTrayTriples tray.
Proof.
  intros Hfuel.
  destruct (resolveLoop_passes fuel (Resolved.mk tray 0 []) Hfuel)
    as (ks & tray' & Hps & Hn & ->).
  destruct (resolveTrayTriples_passes tray) as (ks2 & t2 & Hps2 & Hn2 & ->).
  destruct (passes_unique _ _ _ _ _ Hps Hn Hps2 Hn2) as [-> ->]. done.
Qed.

Lemma resolveTrayTriples_stable tray :
  clearPass (Resolved.tray (resolveTrayTriples tray)) = None.
Proof.
  by destruct (resolveTrayTriples_passes tray) as (ks & t' & _ & Hn & ->).
Qed.

Lemma resolveTrayTriples_unfold tray :
  resolveTrayTriples tray
  = match clearPass tray with
    | None => Resolved.mk tray 0 []
    | Some (tray1, k) =>
        let r := resolveTrayTriples tray1 in
        Resolved.mk (Resolved.tray r) (3 + Resolved.clearedCount r)
          (k :: Resolved.clearedIcons r)
    end.
Proof.
  destruct (resolveTrayTriples_passes tray) as (ks & t' & Hps & Hn & ->).
  inversion Hps as [|? ? ? ? ? Hp Hps']; subst.
  - by rewrite Hn.
  - rewrite Hp.
    destruct (resolveTrayTriples_passes tray1)
      as (ks2 & t2 & Hps2 & Hn2 & ->).
    destruct (passes_unique _ _ _ _ _ Hps' Hn Hps2 Hn2) as [-> ->].
    simpl. f_equal. lia.
Qed.

Lemma resolveTrayTriples_length tray :
  length tray
  = (length (Resolved.tray (resolveTrayTriples tray))
     + 3 * length (Resolved.clearedIcons (resolveTrayTriples tray)))%nat.
Proof.
  destruct (resolveTrayTriples_passes tray) as (ks & t' & Hps & _ & ->).
  simpl. by apply passes_length.
Qed.

(** ** Enumeration order on trays of piece types *)

Lemma pieceType_array_index k :
  pieceType k ↔ JsObject.is_array_index k = true.
Proof. unfold pieceType, JsObject.is_array_index. by rewrite bool_decide_eq_true. Qed.

Lemma counted_keys p o k : counted p o → k ∈ JsObject.keys o ↔ k ∈ p.
Proof.
  intros [_ Hget]. specialize (Hget k).
  destruct (decide (k ∈ JsObject.keys o)) as [Hin|Hnin].
  - case_bool_decide; [tauto|]. apply get_None_keys in Hget. tauto.
  - pose proof (proj2 (get_None_keys k o) Hnin) as Hg. rewrite Hg in Hget.
    case_bool_decide; [done | tauto].
Qed.

Lemma countIcons_sorted rest p o :
  counted p o → Forall pieceType (p ++ rest) →
  StronglySorted Z.lt (JsObject.keys o) →
  StronglySorted Z.lt (JsObject.keys (countIcons rest (length p) o)).
Proof.
  revert p o. induction rest as [|x rest IH]; intros p o Hc Hall Hs; simpl;
    [done|].
  replace (S (length p)) with (length (p ++ [x]))
    by (rewrite length_app; simpl; lia).
  apply IH.
  - by apply counted_step.
  - by rewrite <- app_assoc.
  - rewrite keys_push. destruct (JsObject.get x o) eqn:Hgx; [done|].
    apply Forall_app in Hall as [Hp Hrest].
    apply Forall_cons in Hrest as [Hx _].
    apply create_sorted; [by apply pieceType_array_index | | | done].
    + apply Forall_forall. intros k Hk.
      apply pieceType_array_index.
      apply (counted_keys _ _ _ Hc) in Hk.
      by apply (proj1 (Forall_forall _ _) Hp).
    + by apply get_None_keys.
Qed.

Lemma iconCounts_sorted tray :
  Forall pieceType tray → StronglySorted Z.lt (JsObject.keys (iconCounts tray)).
Proof.
  intros Hall. apply (countIcons_sorted tray [] []);
    [apply counted_nil | done | constructor].
Qed.

Lemma firstTriple_min o k v k' v' :
  StronglySorted Z.lt (JsObject.keys o) →
  firstTriple o = Some (k, v) →
  (k', v') ∈ o → (3 ≤ length v')%nat → k ≤ k'.
Proof.
  unfold firstTriple, JsObject.keys.
  induction o as [|[k0 v0] o IH]; csimpl; [done|].
  intros Hs Hf Hin Hlen.
  apply StronglySorted_inv in Hs as [Hs Hlt].
  apply elem_of_cons in Hin as [[= -> ->]|Hin].
  - rewrite bool_decide_eq_true_2 in Hf by done.
    injection Hf as <- <-. lia.
  - case_bool_decide.
    + injection Hf as <- <-.
      assert (k' ∈ o.*1) as Hk' by (apply list_elem_of_fmap; by exists (k', v')).
      pose proof (proj1 (Forall_forall _ _) Hlt _ Hk'). lia.
    + by apply IH.
Qed.

Lemma clearPass_smallest tray k :
  Forall pieceType tray →
  (3 ≤ occurrenceCount k tray)%nat →
  (∀ k', (3 ≤ occurrenceCount k' tray)%nat → k ≤ k') →
  clearPass tray = Some (removeEarliest 3 k tray, k).
Proof.
  intros Hall Hk Hmin.
  destruct (clearPass_is_Some _ _ Hk) as [[tray' k0] Hp].
  destruct (clearPass_Some _ _ _ Hp) as [Hk0 ->].
  assert (k0 = k) as ->; [|done].
  apply Z.le_antisymm; [|by apply Hmin].
  unfold clearPass in Hp.
  destruct (firstTriple (iconCounts tray)) as [[k1 occ]|] eqn:E; [|done].
  injection Hp as _ ->.
  destruct (iconCounts_counted tray) as [Hnd Hget].
  eapply (firstTriple_min _ _ _ k (positions k tray 0));
    [by apply iconCounts_sorted | exact E | | by rewrite length_positions].
  apply get_Some_elem_of. rewrite Hget.
  rewrite bool_decide_eq_true_2; [done|].
  apply dec_stable. intros Hnin.
  apply (positions_nil_iff k tray 0) in Hnin.
  rewrite <- (length_positions k tray 0), Hnin in Hk. simpl in Hk. lia.
Qed.

Lemma clearPass_None_intro tray :
  (∀ k, (occurrenceCount k tray < 3)%nat) → clearPass tray = None.
Proof.
  intros H. destruct (clearPass tray) as [[t' k]|] eqn:E; [|done].
  apply clearPass_Some in E as [Hk _]. specialize (H k). lia.
Qed.

Lemma pieceType_smallest_0 tray k :
  Forall pieceType tray → (3 ≤ occurrenceCount k tray)%nat → 0 ≤ k.
Proof.
  intros Hall Hk. assert (k ∈ tray) as Hin.
  { apply dec_stable. intros Hnin.
    apply (positions_nil_iff k tray 0) in Hnin.
    rewrite <- (length_positions k tray 0), Hnin in Hk. simpl in Hk. lia. }
  pose proof (proj1 (Forall_forall _ _) Hall _ Hin) as [? _]. done.
Qed.

(** C6 (tie-break).  On a tray of piece types, whenever some type has
    count >= 3, the pass clears the qualifying type with the smallest
    identifier [k] (its three earliest occurrences), whatever the
    positions of the types in the tray, and the loop goes on from the
    tray so obtained; in particular, when types 0 and 2 both have count 3,
    type 0 is cleared first. *)
Theorem C6_smallest_identifier_first (tray : list Z) :
  Forall pieceType tray →
  (∀ k,
     (3 ≤ occurrenceCount k tray)%nat →
     (∀ k', (3 ≤ occurrenceCount k' tray)%nat → k ≤ k') →
     clearPass tray = Some (removeEarliest 3 k tray, k)
     ∧ resolveTrayTriples tray
       = let r := resolveTrayTriples (removeEarliest 3 k tray) in
         Resolved.mk (Resolved.tray r) (3 + Resolved.clearedCount r)
           (k :: Resolved.clearedIcons r))
  ∧ (occurrenceCount 0 tray = 3%nat → occurrenceCount 2 tray = 3%nat →
     clearPass tray = Some (removeEarliest 3 0 tray, 0)
     ∧ head (Resolved.clearedIcons (resolveTrayTriples tray)) = Some 0).
Proof.
  intros Hall. split.
  - intros k Hk Hmin.
    pose proof (clearPass_smallest _ _ Hall Hk Hmin) as Hp.
    split; [done|]. by rewrite resolveTrayTriples_unfold, Hp.
  - intros H0 H2.
    assert (clearPass tray = Some (removeEarliest 3 0 tray, 0)) as Hp.
    { apply clearPass_smallest; [done | lia |].
      intros k' Hk'. by eapply pieceType_smallest_0. }
    split; [done|]. by rewrite resolveTrayTriples_unfold, Hp.
Qed.

Lemma C6_witness :
  clearPass [2; 2; 2; 0; 0; 0] = Some ([2; 2; 2], 0)
  ∧ Resolved.clearedIcons (resolveTrayTriples [2; 2; 2; 0; 0; 0]) = [0; 2].
Proof.
  assert (Forall pieceType [2; 2; 2; 0; 0; 0]) as Hall.
  { repeat constructor; unfold pieceType; lia. }
  destruct (C6_smallest_identifier_first [2; 2; 2; 0; 0; 0] Hall)
    as [_ Hinst].
  destruct (Hinst eq_refl eq_refl) as [Hp _].
  split; [exact Hp | reflexivity].
Defined.

(** Outside the piece types the walk over [iconCounts] is not numeric:
    keys that are not array indices come in creation order, so on the
    tray [-2,-2,-2,-3,-3,-3] type -2 is cleared before type -3. *)
Lemma resolve_creation_order :
  resolveTrayTriples [-2; -2; -2; -3; -3; -3] = Resolved.mk [] 6 [-2; -3].
Proof. reflexivity. Qed.

(** ** The store-level Resolution Engine against the value-level one *)

Lemma store_splice_run (h : Store.heap) t cur idx :
  h !! t = Some cur →
  Store.splice t idx h = Some (tt, <[t := splice1 idx cur]> h).
Proof.
  intros Ht. unfold Store.splice, Store.bind, Store.read, Store.write.
  rewrite Ht. simpl. by rewrite Ht.
Qed.

Lemma store_spliceEach_run indices (h : Store.heap) t cur :
  h !! t = Some cur →
  Store.spliceEach t indices h
  = Some (tt, <[t := foldl (λ a idx, splice1 idx a) cur indices]> h).
Proof.
  revert h cur. induction indices as [|idx rest IH]; intros h cur Ht;
    cbn [Store.spliceEach foldl].
  - unfold Store.ret. by rewrite list_insert_id.
  - unfold Store.bind. rewrite (store_splice_run _ _ _ _ Ht).
    rewrite (IH _ (splice1 idx cur)).
    + by rewrite list_insert_insert_eq.
    + apply list_lookup_insert_eq. by eapply lookup_lt_Some.
Qed.

Lemma store_resolveLoop_run fuel (h : Store.heap) t cc ci cur :
  h !! t = Some cur →
  let r := resolveLoop fuel (Resolved.mk cur cc ci) in
  Store.resolveLoop fuel (Store.ResolvedRef.mk t cc ci) h
  = Some (Store.ResolvedRef.mk t (Resolved.clearedCount r)
            (Resolved.clearedIcons r),
          <[t := Resolved.tray r]> h).
Proof.
  revert h cc ci cur.
  induction fuel as [|fuel IH]; intros h cc ci cur Ht;
    cbn [Store.resolveLoop resolveLoop Resolved.tray Resolved.clearedCount
         Resolved.clearedIcons Store.ResolvedRef.tray
         Store.ResolvedRef.clearedCount Store.ResolvedRef.clearedIcons].
  - unfold Store.ret. by rewrite list_insert_id.
  - unfold Store.bind at 1. unfold Store.read. rewrite Ht.
    unfold clearPass.
    destruct (firstTriple (iconCounts cur)) as [[k occ]|].
    + unfold Store.bind. rewrite (store_spliceEach_run _ _ _ _ Ht).
      erewrite IH.
      * by rewrite list_insert_insert_eq.
      * apply list_lookup_insert_eq. by eapply lookup_lt_Some.
    + unfold Store.ret. by rewrite list_insert_id.
Qed.

(** A call allocates one array, the result tray, and changes nothing
    else. *)
Lemma store_resolveTrayTriples_run (h : Store.heap) l a :
  h !! l = Some a →
  let r := resolveTrayTriples a in
  Store.resolveTrayTriples l h
  = Some (Store.ResolvedRef.mk (length h) (Resolved.clearedCount r)
            (Resolved.clearedIcons r),
          h ++ [Resolved.tray r]).
Proof.
  intros Hl. simpl.
  unfold Store.resolveTrayTriples, Store.bind, Store.read, Store.alloc.
  rewrite Hl.
  rewrite (store_resolveLoop_run _ (h ++ [a]) (length h) 0 [] a).
  - unfold resolveTrayTriples. do 2 f_equal.
    rewrite insert_app_r_alt by lia. by rewrite Nat.sub_diag.
  - rewrite lookup_app_r by lia. by rewrite Nat.sub_diag.
Qed.

(** ** The instances of the specification's examples *)

Lemma resolve_one (A : Z) :
  resolveTrayTriples [A] = Resolved.mk [A] 0 [].
Proof.
  rewrite resolveTrayTriples_unfold, clearPass_None_intro; [done|].
  intros k. count_cases.
Qed.

Lemma resolve_three (A : Z) :
  resolveTrayTriples [A; A; A] = Resolved.mk [] 3 [A].
Proof.
  rewrite resolveTrayTriples_unfold.
  destruct (clearPass_is_Some [A; A; A] A) as [[t' k] Hp]; [count_cases|].
  rewrite Hp. apply clearPass_Some in Hp as [Hk ->].
  assert (k = A) as -> by (revert Hk; count_cases).
  simpl. rewrite !bool_decide_eq_true_2 by done. reflexivity.
Qed.

Lemma resolve_four (A : Z) :
  resolveTrayTriples [A; A; A; A] = Resolved.mk [A] 3 [A].
Proof.
  rewrite resolveTrayTriples_unfold.
  destruct (clearPass_is_Some [A; A; A; A] A) as [[t' k] Hp]; [count_cases|].
  rewrite Hp. apply clearPass_Some in Hp as [Hk ->].
  assert (k = A) as -> by (revert Hk; count_cases).
  simpl. rewrite !bool_decide_eq_true_2 by done.
  by rewrite resolve_one.
Qed.

Lemma resolve_interleaved (A B : Z) :
  Resolved.tray (resolveTrayTriples [A; B; A; B; A; B]) = []
  ∧ Resolved.clearedCount (resolveTrayTriples [A; B; A; B; A; B]) = 6.
Proof.
  rewrite resolveTrayTriples_unfold.
  destruct (clearPass_is_Some [A; B; A; B; A; B] A) as [[t' k] Hp];
    [count_cases|].
  rewrite Hp. apply clearPass_Some in Hp as [Hk ->].
  destruct (decide (A = B)) as [<-|Hne].
  - assert (k = A) as -> by (revert Hk; count_cases).
    simpl. rewrite !bool_decide_eq_true_2 by done.
    by rewrite resolve_three.
  - assert (k = A ∨ k = B) as [-> | ->] by (revert Hk; count_cases; auto).
    + simpl. rewrite !(bool_decide_eq_true_2 (A = A)) by done.
      rewrite !(bool_decide_eq_false_2 (B = A)) by done.
      by rewrite resolve_three.
    + simpl. rewrite !(bool_decide_eq_true_2 (B = B)) by done.
      rewrite !(bool_decide_eq_false_2 (A = B)) by done.
      by rewrite resolve_three.
Qed.

(** C7, counterexample.  The tray [0,1,0,1,0,1] is not returned
    unchanged: each of its two types occurs three times, and both are
    cleared. *)
Lemma C7_interleaved_not_unchanged :
  resolveTrayTriples [0; 1; 0; 1; 0; 1] = Resolved.mk [] 6 [0; 1]
  ∧ Resolved.tray (resolveTrayTriples [0; 1; 0; 1; 0; 1])
    ≠ [0; 1; 0; 1; 0; 1].
Proof. split; [reflexivity | discriminate]. Qed.

(** C7 (amended).  For every tray the engine repeatedly removes the three
    earliest occurrences of a type whose count is >= 3 until no type
    qualifies ([clears]); it returns the tray so obtained, the number of
    pieces cleared (3 per removal, the difference of the tray lengths) and
    the sequence of cleared types.  [A,A,A] gives the empty tray, 3
    cleared, types [A]; [A,B,A,B,A,B], in which A and B each occur three
    times, gives the empty tray with 6 cleared; [A,A,A,A] gives [A]. *)
Theorem C7_resolution_contract :
  (∀ tray,
     let r := resolveTrayTriples tray in
     clears tray (Resolved.clearedIcons r) (Resolved.tray r)
     ∧ Resolved.clearedCount r
       = 3 * Z.of_nat (length (Resolved.clearedIcons r))
     ∧ Resolved.clearedCount r
       = Z.of_nat (length tray) - Z.of_nat (length (Resolved.tray r)))
  ∧ (∀ A, resolveTrayTriples [A; A; A] = Resolved.mk [] 3 [A])
  ∧ (∀ A B,
       Resolved.tray (resolveTrayTriples [A; B; A; B; A; B]) = []
       ∧ Resolved.clearedCount (resolveTrayTriples [A; B; A; B; A; B]) = 6)
  ∧ (∀ A, Resolved.tray (resolveTrayTriples [A; A; A; A]) = [A]).
Proof.
  split_and!.
  - intros tray.
    destruct (resolveTrayTriples_passes tray) as (ks & t' & Hps & Hn & E).
    simpl. rewrite E. simpl. split_and!.
    + by apply passes_clears.
    + done.
    + apply passes_length in Hps. lia.
  - apply resolve_three.
  - apply resolve_interleaved.
  - intros A. by rewrite resolve_four.
Qed.

(** C8.  For a tray array [l] with contents [tray] in any store [h]:
    the call returns; every iteration of the loop that acts shortens the
    tray by exactly 3; the number of acting iterations is at most
    [length tray / 3]; any fuel above that bound gives the same result;
    and the store after the call is the store before it followed by one
    new array, the result tray: the input array and every other array are
    as they were, and the result is a function of the input's contents
    alone. *)
Theorem C8_resolution_terminates_pure (h : list (list Z)) (l : nat)
    (tray : list Z) :
  h !! l = Some tray →
  let r := resolveTrayTriples tray in
  (∀ t t' k, clearPass t = Some (t', k) → length t = (length t' + 3)%nat)
  ∧ (∃ ks,
       passes ks tray (Resolved.tray r)
       ∧ clearPass (Resolved.tray r) = None
       ∧ ks = Resolved.clearedIcons r
       ∧ (length ks ≤ length tray / 3)%nat)
  ∧ (∀ fuel,
       (length tray / 3 < fuel)%nat →
       resolveLoop fuel (Resolved.mk tray 0 []) = r)
  ∧ Store.resolveTrayTriples l h
    = Some (Store.ResolvedRef.mk (length h) (Resolved.clearedCount r)
              (Resolved.clearedIcons r),
            h ++ [Resolved.tray r])
  ∧ (h ++ [Resolved.tray r]) !! l = Some tray
  ∧ (∀ l' a, h !! l' = Some a → (h ++ [Resolved.tray r]) !! l' = Some a).
Proof.
  intros Hl r. split_and!.
  - apply clearPass_length.
  - subst r.
    destruct (resolveTrayTriples_passes tray) as (ks & t' & Hps & Hn & ->).
    exists ks. cbn [Resolved.tray Resolved.clearedIcons].
    split_and!; try done.
    apply passes_length in Hps.
    apply Nat.div_le_lower_bound; lia.
  - intros fuel Hfuel. by apply resolveLoop_fuel.
  - by apply store_resolveTrayTriples_run.
  - by apply lookup_app_l_Some.
  - intros l' a. apply lookup_app_l_Some.
Qed.

Lemma C8_witness :
  Store.resolveTrayTriples 1 [[9]; [4; 4; 4; 4]; [0]]
  = Some (Store.ResolvedRef.mk 3 3 [4], [[9]; [4; 4; 4; 4]; [0]; [4]]).
Proof.
  exact (proj1 (proj2 (proj2 (proj2
    (C8_resolution_terminates_pure [[9]; [4; 4; 4; 4]; [0]] 1%nat
       [4; 4; 4; 4] eq_refl))))).
Defined.

(** ** The loops of [beamSearchSolve] *)

(** What one execution of the slot body can do. *)
Lemma expandSlot_inv depth node remaining slotIdx s s' :
  expandSlot depth node remaining slotIdx s = Some s' →
  ∃ iconIdx,
    Node.board node !! slotIdx = Some iconIdx
    ∧ Vars.expansions s' = Vars.expansions s
    ∧ (s' = s
       ∨ ∃ newScore newHash,
           let result := resolveTrayTriples (Node.tray node ++ [iconIdx]) in
           iconIdx ≠ -1
           ∧ (length (Resolved.tray result) ≤ TRAY_CAPACITY)%nat
           ∧ Vars.candidates s'
             = Vars.candidates s
               ++ [Node.mk (<[slotIdx := -1]> (Node.board node))
                     (Resolved.tray result) newScore
                     (Node.moves node ++ [slotIdx]) (S depth) newHash]).
Proof.
  unfold expandSlot. destruct (Node.board node !! slotIdx) as [iconIdx|];
    [|done]. simpl.
  intros H. exists iconIdx. split; [done|].
  case_bool_decide; [injection H as <-; auto|].
  case_bool_decide; [injection H as <-; auto|].
  match type of H with (if ?d then _ else _) = _ => destruct d end;
    injection H as <-; [auto|].
  simpl. split; [done|]. right. eexists _, _.
  split_and!; [done | lia | done].
Qed.

Lemma forSlots_expansions me depth node remaining slots s s' :
  forSlots me depth node remaining slots s = Some s' →
  (Vars.expansions s ≤ Vars.expansions s')%nat.
Proof.
  revert s. induction slots as [|slotIdx rest IH]; intros s; simpl.
  - by intros [= ->].
  - case_bool_decide; [by intros [= ->]|].
    destruct (expandSlot _ _ _ _ _) as [s1|] eqn:E; simpl; [|done].
    intros Hrun. apply IH in Hrun.
    apply expandSlot_inv in E as (? & _ & E & _). simpl in E. lia.
Qed.

Lemma forNodes_app sel bw me depth pre rest s :
  forNodes sel bw me depth (pre ++ rest) s
  = match forNodes sel bw me depth pre s with
    | Some (Left s') => forNodes sel bw me depth rest s'
    | o => o
    end.
Proof.
  revert s. induction pre as [|node pre IH]; intros s; simpl; [done|].
  case_bool_decide as Hb.
  - destruct rest as [|node' rest]; simpl; [done|].
    by rewrite bool_decide_eq_true_2.
  - destruct (solved node); [done|].
    destruct (forSlots _ _ _ _ _ _) as [s1|]; simpl; [|done].
    apply IH.
Qed.

Lemma forNodes_returned sel bw me depth beam s r :
  forNodes sel bw me depth beam s = Some (Returned r) →
  ∃ node exps,
    node ∈ beam ∧ solved node = true ∧ (exps < me)%nat
    ∧ r = Solvable (Node.moves node)
            (Stats.mk exps (Some (Node.score node)) bw (Some depth)).
Proof.
  revert s. induction beam as [|node rest IH]; intros s; simpl; [done|].
  case_bool_decide as Hb; [done|].
  destruct (solved node) eqn:Hs.
  - intros [= <-]. exists node, (Vars.expansions s).
    split_and!; [left | done | lia | done].
  - destruct (forSlots _ _ _ _ _ _) as [s1|]; simpl; [|done].
    intros Hrun. destruct (IH _ Hrun) as (n & e & Hin & ?).
    exists n, e. split; [by right | done].
Qed.

Lemma insertByScore_perm x l : insertByScore x l ≡ₚ x :: l.
Proof.
  induction l as [|y l IH]; simpl; [done|].
  case_bool_decide; [|done]. rewrite IH. apply Permutation_swap.
Qed.

Lemma sortByScore_perm l : sortByScore l ≡ₚ l.
Proof.
  induction l as [|x l IH]; simpl; [done|].
  by rewrite insertByScore_perm, IH.
Qed.

Lemma next_beam_Forall (P : Node.t → Prop) bw l :
  Forall P l → Forall P (take bw (sortByScore l)).
Proof.
  intros H. apply Forall_take. by rewrite sortByScore_perm.
Qed.

Section NodeInvariant.

Variable sel : list Z → list nat.
Variables bw me : nat.
Variable P : Node.t → Prop.

Hypothesis P_expand : ∀ depth node remaining slotIdx s s',
  P node → slotIdx ∈ sel (Node.board node) →
  Forall P (Vars.candidates s) →
  expandSlot depth node remaining slotIdx s = Some s' →
  Forall P (Vars.candidates s').

Lemma forSlots_invariant depth node remaining slots s s' :
  P node → (∀ x, x ∈ slots → x ∈ sel (Node.board node)) →
  Forall P (Vars.candidates s) →
  forSlots me depth node remaining slots s = Some s' →
  Forall P (Vars.candidates s').
Proof.
  intros Hn. revert s. induction slots as [|slotIdx rest IH];
    intros s Hsub Hc; simpl.
  - by intros [= <-].
  - case_bool_decide; [by intros [= <-]|].
    destruct (expandSlot _ _ _ _ _) as [s1|] eqn:E; simpl; [|done].
    apply IH.
    + intros x Hx. apply Hsub. by right.
    + eapply P_expand; [exact Hn | apply Hsub; left | | exact E]. done.
Qed.

Lemma forNodes_invariant depth beam s s' :
  Forall P beam → Forall P (Vars.candidates s) →
  forNodes sel bw me depth beam s = Some (Left s') →
  Forall P (Vars.candidates s').
Proof.
  revert s. induction beam as [|node rest IH]; intros s Hb Hc; simpl.
  - by intros [= <-].
  - case_bool_decide; [by intros [= <-]|].
    destruct (solved node); [done|].
    apply Forall_cons in Hb as [Hn Hb].
    destruct (forSlots _ _ _ _ _ _) as [s1|] eqn:E; simpl; [|done].
    apply IH; [done|].
    eapply forSlots_invariant; [exact Hn | | exact Hc | exact E]. done.
Qed.

Lemma forDepth_invariant togo depth beam visited exps ms st :
  Forall P beam →
  forDepth sel bw me togo depth beam visited exps = Some (Solvable ms st) →
  ∃ node, P node ∧ solved node = true ∧ ms = Node.moves node.
Proof.
  revert depth beam visited exps.
  induction togo as [|togo IH]; intros depth beam visited exps Hb; simpl;
    [done|].
  case_bool_decide; [done|].
  destruct (forNodes _ _ _ _ _ _) as [[r|s]|] eqn:E; simpl; [| |done].
  - intros [= ->].
    apply forNodes_returned in E as (node & e & Hin & Hs & _ & [= -> _]).
    exists node. split_and!; [|done|done].
    by apply (proj1 (Forall_forall _ _) Hb).
  - apply IH. apply next_beam_Forall.
    eapply forNodes_invariant; [exact Hb | | exact E]. constructor.
Qed.

End NodeInvariant.


(** ** Path validity *)

Lemma replay_app sel board tray ms1 ms2 :
  replay sel board tray (ms1 ++ ms2)
  = match replay sel board tray ms1 with
    | Some (board1, tray1) => replay sel board1 tray1 ms2
    | None => None
    end.
Proof.
  revert board tray. induction ms1 as [|pos ms1 IH]; intros board tray;
    simpl; [done|].
  case_bool_decide; [|done].
  destruct (board !! pos) as [piece|]; [|done].
  case_bool_decide; [done|]. apply IH.
Qed.

Lemma countRemaining_0 board :
  countRemaining board = 0%nat ↔ Forall (λ x, x = -1) board.
Proof.
  unfold countRemaining. induction board as [|x board IH]; simpl.
  - split; [constructor | done].
  - rewrite filter_cons, Forall_cons. case_decide as Hx; simpl.
    + split; [intros ?; discriminate | intros [? _]; congruence].
    + rewrite IH. tauto.
Qed.

Lemma solved_spec node :
  solved node = true
  ↔ Forall (λ x, x = -1) (Node.board node) ∧ Node.tray node = [].
Proof.
  unfold solved. rewrite andb_true_iff, !bool_decide_eq_true.
  rewrite countRemaining_0. by rewrite length_zero_iff_nil.
Qed.

Lemma replays_expand sel initialBoard depth node remaining slotIdx s s' :
  replays sel initialBoard node →
  slotIdx ∈ sel (Node.board node) →
  Forall (replays sel initialBoard) (Vars.candidates s) →
  expandSlot depth node remaining slotIdx s = Some s' →
  Forall (replays sel initialBoard) (Vars.candidates s').
Proof.
  intros Hn Hsel Hc E.
  apply expandSlot_inv in E as (iconIdx & Hb & _ & [->|E]); [done|].
  destruct E as (newScore & newHash & Hne & _ & ->).
  apply Forall_app. split; [done|]. constructor; [|constructor].
  unfold replays in *. simpl. rewrite replay_app, Hn. simpl.
  rewrite bool_decide_eq_true_2 by done. rewrite Hb.
  by rewrite bool_decide_eq_false_2.
Qed.

Lemma replays_initial sel initialBoard :
  replays sel initialBoard (initialNode initialBoard).
Proof. done. Qed.

Lemma isSolvable_replays initialBoard sel params ms st :
  isSolvable initialBoard sel params = Some (Solvable ms st) →
  ∃ board,
    replay sel initialBoard [] ms = Some (board, [])
    ∧ Forall (λ x, x = -1) board.
Proof.
  unfold isSolvable, beamSearchSolve. intros H.
  eapply (forDepth_invariant sel _ _ (replays sel initialBoard)) in H
    as (node & Hn & Hs & ->).
  - apply solved_spec in Hs as [Hb Ht]. exists (Node.board node).
    unfold replays in Hn. by rewrite Hn, Ht.
  - intros. by eapply replays_expand.
  - repeat constructor.
Qed.

(** ** Well-formed collaborators: the search returns *)

Lemma expandSlot_total depth node remaining slotIdx s :
  (slotIdx < length (Node.board node))%nat →
  is_Some (expandSlot depth node remaining slotIdx s).
Proof.
  intros Hlt. unfold expandSlot.
  destruct (lookup_lt_is_Some_2 _ _ Hlt) as [iconIdx ->]. simpl.
  repeat (case_bool_decide; [by eexists|]).
  match goal with |- is_Some (if ?d then _ else _) => destruct d end;
    by eexists.
Qed.

Lemma forSlots_total me depth node remaining slots s :
  (∀ x, x ∈ slots → (x < length (Node.board node))%nat) →
  is_Some (forSlots me depth node remaining slots s).
Proof.
  revert s. induction slots as [|slotIdx rest IH]; intros s Hwf; simpl;
    [by eexists|].
  case_bool_decide; [by eexists|].
  destruct (expandSlot_total depth node remaining slotIdx
              (Vars.mk (Vars.visited s) (S (Vars.expansions s))
                 (Vars.candidates s))) as [s1 ->].
  { apply Hwf. left. }
  simpl. apply IH. intros x Hx. apply Hwf. by right.
Qed.

Lemma forNodes_total sel bw me depth beam s :
  wellFormed sel → is_Some (forNodes sel bw me depth beam s).
Proof.
  intros Hwf. revert s. induction beam as [|node rest IH]; intros s; simpl;
    [by eexists|].
  case_bool_decide; [by eexists|].
  destruct (solved node); [by eexists|].
  destruct (forSlots_total me depth node (countRemaining (Node.board node))
              (sel (Node.board node)) s) as [s1 ->]; [apply Hwf|].
  simpl. apply IH.
Qed.

Lemma forDepth_total sel bw me togo depth beam visited exps :
  wellFormed sel → is_Some (forDepth sel bw me togo depth beam visited exps).
Proof.
  intros Hwf. revert depth beam visited exps.
  induction togo as [|togo IH]; intros depth beam visited exps; simpl;
    [by eexists|].
  case_bool_decide; [by eexists|].
  destruct (forNodes_total sel bw me depth beam
              (Vars.mk visited exps []) Hwf) as [[r|s] ->]; simpl;
    [by eexists | apply IH].
Qed.

Lemma isSolvable_total initialBoard sel params :
  wellFormed sel → is_Some (isSolvable initialBoard sel params).
Proof. intros Hwf. by apply forDepth_total. Qed.

Lemma allPositions_wellFormed : wellFormed allPositions.
Proof.
  intros board pos Hin. unfold allPositions in Hin.
  apply elem_of_seq in Hin. lia.
Qed.

(** ** The depth loop runs through the states [stateAt] *)

Lemma forDepth_stateAt sel bw me initialBoard togo depth beam visited exps :
  stateAt sel bw me initialBoard depth = Some (beam, visited, exps) →
  forDepth sel bw me (depth + togo) 0
    [initialNode initialBoard]
    (<[Node.hash (initialNode initialBoard) := Entry.mk 0 0%nat]> ∅) 0
  = forDepth sel bw me togo depth beam visited exps.
Proof.
  revert togo beam visited exps.
  induction depth as [|depth IH]; intros togo beam visited exps Hst;
    simpl in Hst.
  - by injection Hst as <- <- <-.
  - destruct (stateAt sel bw me initialBoard depth)
      as [[[beam0 visited0] exps0]|] eqn:E; simpl in Hst; [|done].
    case_bool_decide as Hb; [done|].
    destruct (forNodes _ _ _ _ _ _) as [[r|s]|] eqn:En; simpl in Hst;
      try done.
    injection Hst as <- <- <-.
    replace (S depth + togo)%nat with (depth + S togo)%nat by lia.
    rewrite (IH (S togo) _ _ _ eq_refl). simpl.
    rewrite bool_decide_eq_false_2 by done. by rewrite En.
Qed.

(** ** Tray capacity *)

Lemma withinCapacity_expand depth node remaining slotIdx s s' :
  Forall withinCapacity (Vars.candidates s) →
  expandSlot depth node remaining slotIdx s = Some s' →
  Forall withinCapacity (Vars.candidates s').
Proof.
  intros Hc E.
  apply expandSlot_inv in E as (iconIdx & Hb & _ & [->|E]); [done|].
  destruct E as (newScore & newHash & _ & Hlen & ->).
  apply Forall_app. split; [done|]. constructor; [exact Hlen | constructor].
Qed.

Lemma stateAt_withinCapacity sel bw me initialBoard depth beam visited exps :
  stateAt sel bw me initialBoard depth = Some (beam, visited, exps) →
  Forall withinCapacity beam.
Proof.
  revert beam visited exps.
  induction depth as [|depth IH]; intros beam visited exps; simpl.
  - intros [= <- <- <-]. constructor; [|constructor].
    unfold withinCapacity, TRAY_CAPACITY. simpl. lia.
  - destruct (stateAt sel bw me initialBoard depth)
      as [[[beam0 visited0] exps0]|] eqn:E; simpl; [|done].
    case_bool_decide as Hb; [done|].
    destruct (forNodes _ _ _ _ _ _) as [[r|s]|] eqn:En; simpl; try done.
    intros [= <- <- <-]. apply next_beam_Forall.
    eapply (forNodes_invariant sel bw me withinCapacity);
      [ | by eapply IH | | exact En].
    + intros. by eapply withinCapacity_expand.
    + constructor.
Qed.

Lemma expandSlot_over_capacity depth node remaining slotIdx iconIdx s :
  Node.board node !! slotIdx = Some iconIdx →
  iconIdx ≠ -1 →
  (TRAY_CAPACITY
   < length (Resolved.tray
               (resolveTrayTriples (Node.tray node ++ [iconIdx]))))%nat →
  expandSlot depth node remaining slotIdx s = Some s.
Proof.
  intros Hb Hne Hlen. unfold expandSlot. rewrite Hb. simpl.
  rewrite bool_decide_eq_false_2 by done.
  by rewrite bool_decide_eq_true_2.
Qed.

(** C9 (tray capacity).  In every state the depth loop of a call can be
    in, every node of the frontier has a tray of length at most 7, and so
    has every candidate the node loop leaves for the next frontier; a
    candidate whose resolved tray is longer than 7 is dropped on the spot:
    the slot body leaves [candidates] and [visited] as they were. *)
Theorem C9_tray_within_capacity (getClickableSlots : list Z → list nat)
    (beamWidth maxExpansions : nat) (initialBoard : list Z) (depth : nat)
    (beam : list Node.t) (visited : gmap string Entry.t) (expansions : nat) :
  stateAt getClickableSlots beamWidth maxExpansions initialBoard depth
  = Some (beam, visited, expansions) →
  Forall (λ node, (length (Node.tray node) ≤ 7)%nat) beam
  ∧ (∀ s,
       forNodes getClickableSlots beamWidth maxExpansions depth beam
         (Vars.mk visited expansions []) = Some (Left s) →
       Forall (λ node, (length (Node.tray node) ≤ 7)%nat)
         (Vars.candidates s))
  ∧ (∀ node remaining slotIdx iconIdx s,
       Node.board node !! slotIdx = Some iconIdx →
       iconIdx ≠ -1 →
       (7 < length (Resolved.tray
                      (resolveTrayTriples (Node.tray node ++ [iconIdx]))))%nat →
       expandSlot depth node remaining slotIdx s = Some s).
Proof.
  intros Hst.
  pose proof (stateAt_withinCapacity _ _ _ _ _ _ _ _ Hst) as Hbeam.
  split_and!.
  - exact Hbeam.
  - intros s En.
    eapply (forNodes_invariant getClickableSlots beamWidth maxExpansions
              withinCapacity); [ | exact Hbeam | | exact En].
    + intros. by eapply withinCapacity_expand.
    + constructor.
  - intros node remaining slotIdx iconIdx s Hb Hne Hlen.
    by apply (expandSlot_over_capacity _ _ _ _ iconIdx).
Qed.

Lemma C9_witness :
  ∃ beam visited expansions,
    stateAt allPositions 100 5000 [0; 0; 0] 2
    = Some (beam, visited, expansions)
    ∧ Forall (λ node, (length (Node.tray node) ≤ 7)%nat) beam.
Proof.
  assert (bool_decide (is_Some (stateAt allPositions 100 5000 [0; 0; 0] 2))
          = true) as Hsome by (vm_compute; reflexivity).
  apply bool_decide_eq_true in Hsome as [[[beam visited] expansions] Hst].
  exists beam, visited, expansions. split; [exact Hst|].
  exact (proj1 (C9_tray_within_capacity _ _ _ _ _ _ _ _ Hst)).
Defined.

(** ** The solved-state check and the expansion budget *)

Lemma forNodes_solved_reached sel bw me depth pre node post s s' :
  forNodes sel bw me depth pre s = Some (Left s') →
  (Vars.expansions s' < me)%nat →
  solved node = true →
  forNodes sel bw me depth (pre ++ node :: post) s
  = Some (Returned
            (Solvable (Node.moves node)
               (Stats.mk (Vars.expansions s') (Some (Node.score node)) bw
                  (Some depth)))).
Proof.
  intros Hpre Hlt Hs. rewrite forNodes_app, Hpre. simpl.
  rewrite bool_decide_eq_false_2 by lia. by rewrite Hs.
Qed.

Lemma forNodes_budget_spent sel bw me depth pre node post s s' :
  forNodes sel bw me depth pre s = Some (Left s') →
  (me ≤ Vars.expansions s')%nat →
  forNodes sel bw me depth (pre ++ node :: post) s = Some (Left s').
Proof.
  intros Hpre Hge. rewrite forNodes_app, Hpre. simpl.
  by rewrite bool_decide_eq_true_2.
Qed.

(** C5, counterexample.  Board [0,0,0], every position selectable,
    [maxExpansions = 21]: after three iterations of the depth loop the
    frontier is one solved node and 21 expansions have been counted; the
    node loop breaks on the budget before looking at the node, and the
    call answers [Unsolvable]. *)
Lemma C5_solved_node_unrecognised :
  let node :=
    Node.mk [-1; -1; -1] [] 10 [0; 1; 2]%nat 3 (hashState [-1; -1; -1] []) in
  (λ st, (st.1.1, st.2)) <$> stateAt allPositions 100 21 [0; 0; 0] 3
  = Some ([node], 21%nat)
  ∧ solved node = true
  ∧ (∀ visited,
       forNodes allPositions 100 21 3 [node] (Vars.mk visited 21 [])
       = Some (Left (Vars.mk visited 21 [])))
  ∧ isSolvable [0; 0; 0] allPositions (Params.mk None (Some 21%nat) None)
    = Some (Unsolvable (Stats.mk 21 None 100 None)).
Proof.
  split_and!; [vm_compute; reflexivity | reflexivity | done |].
  vm_compute. reflexivity.
Qed.

(** C5 (amended).  At a depth level that the loop enters, let [node] be a
    solved node of the frontier and let the node loop reach it, the
    nodes before it having been processed without a [return].  If the
    budget is not used up at that moment ([expansions < maxExpansions]),
    the call returns [Solvable] with that node's path, and the expansion
    count it reports is the count on reaching the node: the node is not
    expanded.  If the budget is used up, the loop breaks before the check
    and the node is passed over. *)
Theorem C5_solved_check_before_expansion
    (getClickableSlots : list Z → list nat) (beamWidth maxExpansions : nat)
    (togo depth : nat) (pre post : list Node.t) (node : Node.t)
    (visited : gmap string Entry.t) (expansions : nat) (s' : Vars.t) :
  forNodes getClickableSlots beamWidth maxExpansions depth pre
    (Vars.mk visited expansions []) = Some (Left s') →
  solved node = true →
  ((Vars.expansions s' < maxExpansions)%nat →
   forDepth getClickableSlots beamWidth maxExpansions (S togo) depth
     (pre ++ node :: post) visited expansions
   = Some (Solvable (Node.moves node)
             (Stats.mk (Vars.expansions s') (Some (Node.score node))
                beamWidth (Some depth))))
  ∧ ((maxExpansions ≤ Vars.expansions s')%nat →
     forNodes getClickableSlots beamWidth maxExpansions depth
       (pre ++ node :: post) (Vars.mk visited expansions [])
     = Some (Left s')).
Proof.
  intros Hpre Hs. split.
  - intros Hlt. simpl.
    rewrite bool_decide_eq_false_2 by (by destruct pre).
    by rewrite (forNodes_solved_reached _ _ _ _ _ _ _ _ _ Hpre Hlt Hs).
  - intros Hge. by apply forNodes_budget_spent.
Qed.

Lemma C5_witness :
  let node :=
    Node.mk [-1; -1; -1] [] 10 [0; 1; 2]%nat 3 (hashState [-1; -1; -1] []) in
  (λ st, (st.1.1, st.2)) <$> stateAt allPositions 100 22 [0; 0; 0] 3
  = Some ([node], 21%nat)
  ∧ ∀ visited,
      forDepth allPositions 100 22 197 3 ([] ++ node :: []) visited 21
      = Some (Solvable [0; 1; 2]%nat (Stats.mk 21 (Some 10) 100 (Some 3%nat))).
Proof.
  intros node. split; [vm_compute; reflexivity|]. intros visited.
  refine (proj1 (C5_solved_check_before_expansion allPositions 100 22 196 3
                   [] [] node visited 21 (Vars.mk visited 21 []) eq_refl
                   eq_refl) _).
  simpl. lia.
Defined.

(** ** Larger budgets *)

Lemma forDepth_more_depth sel bw me togo togo' depth beam visited exps ms st :
  (togo ≤ togo')%nat →
  forDepth sel bw me togo depth beam visited exps = Some (Solvable ms st) →
  forDepth sel bw me togo' depth beam visited exps = Some (Solvable ms st).
Proof.
  revert togo' depth beam visited exps.
  induction togo as [|togo IH]; intros togo' depth beam visited exps Hle;
    simpl; [done|].
  destruct togo' as [|togo']; [lia|]. simpl.
  case_bool_decide; [done|].
  destruct (forNodes _ _ _ _ _ _) as [[r|s]|]; simpl; try done.
  apply IH. lia.
Qed.

Lemma forSlots_more_budget me me' depth node remaining slots s s' :
  (me ≤ me')%nat →
  forSlots me depth node remaining slots s = Some s' →
  (Vars.expansions s' < me)%nat →
  forSlots me' depth node remaining slots s = Some s'.
Proof.
  intros Hle. revert s. induction slots as [|slotIdx rest IH]; intros s;
    simpl; [done|].
  case_bool_decide as Hb.
  - intros [= <-] Hlt. lia.
  - rewrite bool_decide_eq_false_2 by lia.
    destruct (expandSlot _ _ _ _ _) as [s1|]; simpl; [|done]. apply IH.
Qed.

Lemma forNodes_expansions sel bw me depth beam s s' :
  forNodes sel bw me depth beam s = Some (Left s') →
  (Vars.expansions s ≤ Vars.expansions s')%nat.
Proof.
  revert s. induction beam as [|node rest IH]; intros s; simpl.
  - by intros [= ->].
  - case_bool_decide; [by intros [= ->]|].
    destruct (solved node); [done|].
    destruct (forSlots _ _ _ _ _ _) as [s1|] eqn:E; simpl; [|done].
    intros Hrun. apply IH in Hrun. apply forSlots_expansions in E. lia.
Qed.

Lemma forNodes_returned_budget sel bw me depth beam s r :
  forNodes sel bw me depth beam s = Some (Returned r) →
  (Vars.expansions s < me)%nat.
Proof.
  destruct beam as [|node rest]; simpl; [done|].
  case_bool_decide; [done | lia].
Qed.

Lemma forNodes_more_budget_left sel bw me me' depth beam s s' :
  (me ≤ me')%nat →
  forNodes sel bw me depth beam s = Some (Left s') →
  (Vars.expansions s' < me)%nat →
  forNodes sel bw me' depth beam s = Some (Left s').
Proof.
  intros Hle. revert s. induction beam as [|node rest IH]; intros s; simpl;
    [done|].
  case_bool_decide as Hb.
  - intros [= <-] Hlt. lia.
  - rewrite bool_decide_eq_false_2 by lia.
    destruct (solved node); [done|].
    destruct (forSlots me _ _ _ _ _) as [s1|] eqn:E; simpl; [|done].
    intros Hrun Hlt.
    pose proof (forNodes_expansions _ _ _ _ _ _ _ Hrun).
    rewrite (forSlots_more_budget _ _ _ _ _ _ _ _ Hle E) by lia. simpl.
    by apply IH.
Qed.

Lemma forNodes_more_budget_returned sel bw me me' depth beam s r :
  (me ≤ me')%nat →
  forNodes sel bw me depth beam s = Some (Returned r) →
  forNodes sel bw me' depth beam s = Some (Returned r).
Proof.
  intros Hle. revert s. induction beam as [|node rest IH]; intros s; simpl;
    [done|].
  case_bool_decide as Hb; [done|].
  rewrite bool_decide_eq_false_2 by lia.
  destruct (solved node); [done|].
  destruct (forSlots me _ _ _ _ _) as [s1|] eqn:E; simpl; [|done].
  intros Hrun.
  pose proof (forNodes_returned_budget _ _ _ _ _ _ _ Hrun).
  rewrite (forSlots_more_budget _ _ _ _ _ _ _ _ Hle E) by lia. simpl.
  by apply IH.
Qed.

(** Once the budget is used up no later iteration can return. *)
Lemma forDepth_budget_spent sel bw me togo depth beam visited exps :
  (me ≤ exps)%nat →
  ∃ st, forDepth sel bw me togo depth beam visited exps
        = Some (Unsolvable st).
Proof.
  intros Hge. destruct togo as [|togo]; simpl; [by eexists|].
  case_bool_decide; [by eexists|].
  destruct beam as [|node rest]; [done|]. simpl.
  rewrite bool_decide_eq_true_2 by done. simpl.
  rewrite take_nil. destruct togo; simpl; by eexists.
Qed.

Lemma forDepth_more_budget sel bw me me' togo depth beam visited exps ms st :
  (me ≤ me')%nat →
  forDepth sel bw me togo depth beam visited exps = Some (Solvable ms st) →
  forDepth sel bw me' togo depth beam visited exps = Some (Solvable ms st).
Proof.
  intros Hle. revert depth beam visited exps.
  induction togo as [|togo IH]; intros depth beam visited exps; simpl;
    [done|].
  case_bool_decide; [done|].
  destruct (forNodes sel bw me _ _ _) as [[r|s]|] eqn:E; simpl; [| |done].
  - intros [= ->].
    by rewrite (forNodes_more_budget_returned _ _ _ _ _ _ _ _ Hle E).
  - intros Hrun.
    destruct (decide (me ≤ Vars.expansions s)%nat) as [Hge|Hlt].
    + destruct (forDepth_budget_spent sel bw me togo (S depth)
                  (take bw (sortByScore (Vars.candidates s)))
                  (Vars.visited s) _ Hge) as [st' Hst'].
      congruence.
    + rewrite (forNodes_more_budget_left _ _ _ _ _ _ _ _ Hle E) by lia.
      simpl. by apply IH.
Qed.

(** C4, counterexample.  Board [0,0,0], every position selectable,
    [maxExpansions = 10]: with [beamWidth = 1] the call answers
    [Solvable], with [beamWidth = 2] it answers [Unsolvable] (the second
    frontier node uses up the budget before the third level). *)
Lemma C4_wider_beam_loses_solution :
  isSolvable [0; 0; 0] allPositions
    (Params.mk (Some 1%nat) (Some 10%nat) None)
  = Some (Solvable [0; 1; 2]%nat (Stats.mk 9 (Some 10) 1 (Some 3%nat)))
  ∧ isSolvable [0; 0; 0] allPositions
      (Params.mk (Some 2%nat) (Some 10%nat) None)
    = Some (Unsolvable (Stats.mk 10 None 2 None)).
Proof. split; vm_compute; reflexivity. Qed.

(** C4 (amended).  If [isSolvable] returns [Solvable] under a
    configuration, it returns the same [Solvable] result under every
    configuration with the same effective [beamWidth] whose effective
    [maxExpansions] and [maxDepth] are at least as large. *)
Theorem C4_larger_budget_keeps_solvable (initialBoard : list Z)
    (selectablePositions : list Z → list nat) (config config' : Params.t)
    (winningMoves : list nat) (stats : Stats.t) :
  orDefault (Params.beamWidth config') SOLVER_BEAM_WIDTH
  = orDefault (Params.beamWidth config) SOLVER_BEAM_WIDTH →
  (orDefault (Params.maxExpansions config) SOLVER_MAX_EXPANSIONS
   ≤ orDefault (Params.maxExpansions config') SOLVER_MAX_EXPANSIONS)%nat →
  (orDefault (Params.maxDepth config) SOLVER_MAX_DEPTH
   ≤ orDefault (Params.maxDepth config') SOLVER_MAX_DEPTH)%nat →
  isSolvable initialBoard selectablePositions config
  = Some (Solvable winningMoves stats) →
  isSolvable initialBoard selectablePositions config'
  = Some (Solvable winningMoves stats).
Proof.
  unfold isSolvable, beamSearchSolve. intros -> Hme Hmd Hrun.
  eapply forDepth_more_depth; [exact Hmd|].
  eapply forDepth_more_budget; [exact Hme|]. exact Hrun.
Qed.

Lemma C4_witness :
  isSolvable [0; 0; 0] allPositions
    (Params.mk (Some 1%nat) (Some 5000%nat) (Some 300%nat))
  = Some (Solvable [0; 1; 2]%nat (Stats.mk 9 (Some 10) 1 (Some 3%nat))).
Proof.
  apply (C4_larger_budget_keeps_solvable [0; 0; 0] allPositions
           (Params.mk (Some 1%nat) (Some 10%nat) None)
           (Params.mk (Some 1%nat) (Some 5000%nat) (Some 300%nat))).
  - reflexivity.
  - vm_compute. lia.
  - vm_compute. lia.
  - vm_compute. reflexivity.
Defined.

(** ** The scorer inside an expansion *)

Lemma occurrenceCount_app k a b :
  occurrenceCount k (a ++ b)
  = (occurrenceCount k a + occurrenceCount k b)%nat.
Proof. unfold occurrenceCount. by rewrite filter_app, length_app. Qed.

Lemma occurrenceCount_removeEarliest_le k' n k tray :
  (occurrenceCount k' (removeEarliest n k tray) ≤ occurrenceCount k' tray)%nat.
Proof.
  unfold occurrenceCount. revert n.
  induction tray as [|x tray IH]; intros [|n]; simpl; try lia.
  pose proof (IH n). pose proof (IH (S n)).
  case_bool_decide; rewrite ?filter_cons; repeat case_decide; simpl; lia.
Qed.

Lemma occurrenceCount_removeEarliest_same n k tray :
  occurrenceCount k (removeEarliest n k tray)
  = (occurrenceCount k tray - n)%nat.
Proof.
  unfold occurrenceCount. revert n.
  induction tray as [|x tray IH]; intros [|n]; simpl; try lia.
  case_bool_decide; rewrite ?filter_cons; repeat case_decide; simpl;
    try congruence; rewrite IH; lia.
Qed.

(** Adding one piece to a tray in which no type has three occurrences
    makes the loop act at most once. *)
Lemma expansion_single_pass prevTray iconIdx :
  clearPass prevTray = None →
  (length
     (Resolved.clearedIcons (resolveTrayTriples (prevTray ++ [iconIdx])))
   ≤ 1)%nat.
Proof.
  intros Hstable. rewrite resolveTrayTriples_unfold.
  destruct (clearPass (prevTray ++ [iconIdx])) as [[tray1 k]|] eqn:Hp;
    simpl; [|lia].
  apply clearPass_Some in Hp as [Hk ->].
  rewrite resolveTrayTriples_unfold, clearPass_None_intro; [simpl; lia|].
  intros k'.
  pose proof (clearPass_None _ k Hstable) as Hk1.
  pose proof (clearPass_None _ k' Hstable) as Hk2.
  rewrite occurrenceCount_app in Hk.
  destruct (decide (k' = k)) as [->|Hne].
  - rewrite occurrenceCount_removeEarliest_same, occurrenceCount_app.
    assert (occurrenceCount k [iconIdx] ≤ 1)%nat. { count_cases. }
    lia.
  - pose proof (occurrenceCount_removeEarliest_le k' 3 k
                  (prevTray ++ [iconIdx])) as Hle.
    rewrite occurrenceCount_app in Hle.
    assert (occurrenceCount k' [iconIdx] = 0)%nat; [|lia].
    assert (occurrenceCount k [iconIdx] ≤ 1)%nat as Hk3. { count_cases. }
    assert (iconIdx = k) as ->.
    { unfold occurrenceCount in *. revert Hk. count_cases. }
    count_cases.
Qed.

Lemma tripleReward_expansion prevTray iconIdx :
  clearPass prevTray = None →
  tripleReward (Resolved.tray (resolveTrayTriples (prevTray ++ [iconIdx])))
    prevTray = 0.
Proof.
  intros Hstable. unfold tripleReward.
  pose proof (expansion_single_pass prevTray iconIdx Hstable) as Hone.
  pose proof (resolveTrayTriples_length (prevTray ++ [iconIdx])) as Hlen.
  rewrite length_app in Hlen. simpl in Hlen.
  rewrite bool_decide_eq_false_2; [done | lia].
Qed.

(** C2, the end-to-end scenario as the code runs it.  Board [0,0,0],
    every position selectable, default configuration: the call returns
    [Solvable] with moves [0,1,2], and [stats.bestScore] is 10. *)
Theorem C2_end_to_end_scenario :
  isSolvable [0; 0; 0] allPositions Params.empty
  = Some (Solvable [0; 1; 2]%nat (Stats.mk 21 (Some 10) 100 (Some 3%nat))).
Proof. vm_compute. reflexivity. Qed.

(** ** The store-level search against the value-level one *)

Lemma nodeRel_inv h nR n :
  nodeRel h nR n →
  h !! Store.NodeRef.board nR = Some (Node.board n)
  ∧ h !! Store.NodeRef.tray nR = Some (Node.tray n)
  ∧ Store.NodeRef.score nR = Node.score n
  ∧ Store.NodeRef.moves nR = Node.moves n.
Proof.
  unfold nodeRel, Store.nodeAt. intros H.
  destruct (h !! Store.NodeRef.board nR) as [b|]; simpl in H; [|done].
  destruct (h !! Store.NodeRef.tray nR) as [t|]; simpl in H; [|done].
  by injection H as <-.
Qed.

Lemma nodeRel_ext h ext nR n : nodeRel h nR n → nodeRel (h ++ ext) nR n.
Proof.
  unfold nodeRel, Store.nodeAt. intros H.
  destruct (h !! Store.NodeRef.board nR) as [b|] eqn:Eb; simpl in H; [|done].
  destruct (h !! Store.NodeRef.tray nR) as [t|] eqn:Et; simpl in H; [|done].
  rewrite (lookup_app_l_Some _ _ _ _ Eb). simpl.
  by rewrite (lookup_app_l_Some _ _ _ _ Et).
Qed.

Lemma nodesRel_ext h ext lR l :
  Forall2 (nodeRel h) lR l → Forall2 (nodeRel (h ++ ext)) lR l.
Proof.
  intros H. eapply Forall2_impl; [exact H|]. intros. by apply nodeRel_ext.
Qed.

Lemma varsRel_ext h ext sR s : varsRel h sR s → varsRel (h ++ ext) sR s.
Proof.
  intros (Hv & He & Hc). split_and!; [done | done | by apply nodesRel_ext].
Qed.

Lemma store_bind_run {A B} (m : Store.M A) (k : A → Store.M B) h a h' :
  m h = Some (a, h') → Store.bind m k h = k a h'.
Proof. unfold Store.bind. by intros ->. Qed.

Lemma store_read_run (h : list (list Z)) l a :
  h !! l = Some a → Store.read l h = Some (a, h).
Proof. unfold Store.read. by intros ->. Qed.

Lemma store_setIndex_fresh (h : list (list Z)) a i v :
  Store.setIndex (length h) i v (h ++ [a])
  = Some (tt, h ++ [<[i := v]> a]).
Proof.
  unfold Store.setIndex, Store.bind, Store.read, Store.write.
  rewrite lookup_app_r, Nat.sub_diag by lia. simpl.
  rewrite lookup_app_r, Nat.sub_diag by lia. simpl.
  rewrite insert_app_r_alt, Nat.sub_diag by lia. done.
Qed.

Lemma store_expandSlot_refines depth nodeR node remaining slotIdx sR s h :
  nodeRel h nodeR node → varsRel h sR s →
  match expandSlot depth node remaining slotIdx s with
  | Some s' =>
      ∃ ext sR',
        Store.expandSlot depth nodeR remaining slotIdx sR h
        = Some (sR', h ++ ext)
        ∧ varsRel (h ++ ext) sR' s'
  | None => Store.expandSlot depth nodeR remaining slotIdx sR h = None
  end.
Proof.
  intros Hn Hs.
  destruct (nodeRel_inv _ _ _ Hn) as (Hb & Ht & Hscore & Hmoves).
  destruct Hs as (Hv & He & Hc).
  unfold expandSlot, Store.expandSlot.
  rewrite (store_bind_run _ _ _ _ _ (store_read_run _ _ _ Hb)).
  destruct (Node.board node !! slotIdx) as [iconIdx|]; simpl; [|done].
  case_bool_decide as Hicon.
  { exists [], sR. rewrite app_nil_r. by split. }
  rewrite (store_bind_run _ _ _ _ _ eq_refl).
  rewrite (store_bind_run _ _ _ _ _ (store_setIndex_fresh _ _ _ _)).
  set (h1 := h ++ [<[slotIdx := -1]> (Node.board node)]).
  assert (h1 !! Store.NodeRef.tray nodeR = Some (Node.tray node)) as Ht1
    by by apply lookup_app_l_Some.
  rewrite (store_bind_run _ _ _ _ _ (store_read_run _ _ _ Ht1)).
  rewrite (store_bind_run _ _ _ _ _ eq_refl).
  set (h2 := h1 ++ [Node.tray node ++ [iconIdx]]).
  assert (h2 !! length h1 = Some (Node.tray node ++ [iconIdx])) as Hnew.
  { unfold h2. by rewrite lookup_app_r, Nat.sub_diag by lia. }
  rewrite (store_bind_run _ _ _ _ _
             (store_resolveTrayTriples_run _ _ _ Hnew)).
  set (result := resolveTrayTriples (Node.tray node ++ [iconIdx])).
  set (h3 := h2 ++ [Resolved.tray result]).
  assert (h3 !! length h2 = Some (Resolved.tray result)) as Hres.
  { unfold h3. by rewrite lookup_app_r, Nat.sub_diag by lia. }
  cbn [Store.ResolvedRef.tray].
  rewrite (store_bind_run _ _ _ _ _ (store_read_run _ _ _ Hres)).
  assert (h3 = h ++ [<[slotIdx := -1]> (Node.board node);
                     Node.tray node ++ [iconIdx]; Resolved.tray result])
    as Hh3.
  { unfold h3, h2, h1. by rewrite <- !app_assoc. }
  case_bool_decide as Hcap.
  { eexists _, sR. rewrite Hh3. split; [done|].
    apply varsRel_ext. by split. }
  assert (h3 !! length h = Some (<[slotIdx := -1]> (Node.board node)))
    as Hnb.
  { rewrite Hh3. by rewrite lookup_app_r, Nat.sub_diag by lia. }
  rewrite (store_bind_run _ _ _ _ _ (store_read_run _ _ _ Hnb)).
  assert (h3 !! Store.NodeRef.tray nodeR = Some (Node.tray node)) as Ht3.
  { rewrite Hh3. by apply lookup_app_l_Some. }
  rewrite (store_bind_run _ _ _ _ _ (store_read_run _ _ _ Ht3)).
  rewrite Hscore, Hmoves, Hv.
  match goal with
  | |- match (if ?d then _ else _) with _ => _ end => destruct d
  end.
  { eexists _, sR. rewrite Hh3. split; [done|].
    apply varsRel_ext. by split. }
  eexists _, _. unfold Store.ret. rewrite Hh3 at 1. split; [done|].
  split_and!; simpl; [done | done |].
  apply Forall2_app; [by apply nodesRel_ext|].
  constructor; [|constructor].
  unfold nodeRel, Store.nodeAt. simpl.
  rewrite <- Hh3, Hnb. simpl.
  by rewrite Hres.
Qed.

Lemma store_forSlots_refines me depth nodeR node remaining slots sR s h :
  nodeRel h nodeR node → varsRel h sR s →
  match forSlots me depth node remaining slots s with
  | Some s' =>
      ∃ ext sR',
        Store.forSlots me depth nodeR remaining slots sR h
        = Some (sR', h ++ ext)
        ∧ varsRel (h ++ ext) sR' s'
  | None => Store.forSlots me depth nodeR remaining slots sR h = None
  end.
Proof.
  revert sR s h. induction slots as [|slotIdx rest IH];
    intros sR s h Hn Hs; simpl.
  - exists [], sR. by rewrite app_nil_r.
  - pose proof Hs as (Hv & He & Hc). rewrite He.
    case_bool_decide.
    { exists [], sR. by rewrite app_nil_r. }
    pose proof (store_expandSlot_refines depth nodeR node remaining slotIdx
                  (Store.VarsRef.mk (Store.VarsRef.visited sR)
                     (S (Vars.expansions s)) (Store.VarsRef.candidates sR))
                  (Vars.mk (Vars.visited s) (S (Vars.expansions s))
                     (Vars.candidates s)) h Hn) as Hstep.
    destruct (expandSlot depth node remaining slotIdx _) as [s1|]; simpl.
    + destruct Hstep as (ext & sR1 & Hrun & Hs1); [by split|].
      rewrite (store_bind_run _ _ _ _ _ Hrun).
      specialize (IH sR1 s1 (h ++ ext) (nodeRel_ext _ ext _ _ Hn) Hs1).
      destruct (forSlots me depth node remaining rest s1) as [s'|].
      * destruct IH as (ext' & sR' & Hrun' & Hs').
        exists (ext ++ ext'), sR'. rewrite app_assoc. by split.
      * done.
    + unfold Store.bind. rewrite Hstep; [done | by split].
Qed.

Lemma store_forNodes_refines sel bw me depth beamR beam sR s h :
  Forall2 (nodeRel h) beamR beam → varsRel h sR s →
  match forNodes sel bw me depth beam s with
  | Some (Returned r) =>
      ∃ ext,
        Store.forNodes sel bw me depth beamR sR h
        = Some (Store.ReturnedRef r, h ++ ext)
  | Some (Left s') =>
      ∃ ext sR',
        Store.forNodes sel bw me depth beamR sR h
        = Some (Store.LeftRef sR', h ++ ext)
        ∧ varsRel (h ++ ext) sR' s'
  | None => Store.forNodes sel bw me depth beamR sR h = None
  end.
Proof.
  revert beamR sR s h. induction beam as [|node beam IH];
    intros beamR sR s h Hb Hs.
  - apply Forall2_nil_inv_r in Hb as ->. simpl.
    exists [], sR. by rewrite app_nil_r.
  - apply Forall2_cons_inv_r in Hb as (nodeR & beamR' & Hn & Hb & ->).
    simpl. pose proof Hs as (Hv & He & Hc). rewrite He.
    case_bool_decide.
    { exists [], sR. by rewrite app_nil_r. }
    destruct (nodeRel_inv _ _ _ Hn) as (Hbd & Ht & Hscore & Hmoves).
    rewrite (store_bind_run _ _ _ _ _ (store_read_run _ _ _ Hbd)).
    rewrite (store_bind_run _ _ _ _ _ (store_read_run _ _ _ Ht)).
    unfold solved.
    destruct (bool_decide (countRemaining (Node.board node) = 0%nat)
              && bool_decide (length (Node.tray node) = 0%nat)).
    { exists []. rewrite app_nil_r. by rewrite Hmoves, Hscore. }
    pose proof (store_forSlots_refines me depth nodeR node
                  (countRemaining (Node.board node))
                  (sel (Node.board node)) sR s h Hn Hs) as Hstep.
    destruct (forSlots me depth node _ _ s) as [s1|]; simpl.
    + destruct Hstep as (ext & sR1 & Hrun & Hs1).
      rewrite (store_bind_run _ _ _ _ _ Hrun).
      specialize (IH beamR' sR1 s1 (h ++ ext) (nodesRel_ext _ ext _ _ Hb) Hs1).
      destruct (forNodes sel bw me depth beam s1) as [[r|s']|].
      * destruct IH as [ext' Hrun']. exists (ext ++ ext').
        by rewrite app_assoc.
      * destruct IH as (ext' & sR' & Hrun' & Hs').
        exists (ext ++ ext'), sR'. rewrite app_assoc. by split.
      * done.
    + unfold Store.bind. by rewrite Hstep.
Qed.

Lemma store_insertByScore_refines h xR x lR l :
  nodeRel h xR x → Forall2 (nodeRel h) lR l →
  Forall2 (nodeRel h) (Store.insertByScore xR lR) (insertByScore x l).
Proof.
  intros Hx Hl. induction Hl as [|yR y lR l Hy Hl IH]; simpl.
  - by repeat constructor.
  - destruct (nodeRel_inv _ _ _ Hx) as (_ & _ & -> & _).
    destruct (nodeRel_inv _ _ _ Hy) as (_ & _ & -> & _).
    case_bool_decide; by repeat constructor.
Qed.

Lemma store_sortByScore_refines h lR l :
  Forall2 (nodeRel h) lR l →
  Forall2 (nodeRel h) (Store.sortByScore lR) (sortByScore l).
Proof.
  induction 1; simpl; [constructor|].
  by apply store_insertByScore_refines.
Qed.

Lemma store_noSolution_refines h bw beamR beam exps :
  Forall2 (nodeRel h) beamR beam →
  Store.noSolution bw beamR exps = noSolution bw beam exps.
Proof.
  unfold Store.noSolution, noSolution.
  destruct 1 as [|nodeR node ? ? Hn _]; simpl; [done|].
  by destruct (nodeRel_inv _ _ _ Hn) as (_ & _ & -> & _).
Qed.

Lemma store_forDepth_refines sel bw me togo depth beamR beam visited exps h :
  Forall2 (nodeRel h) beamR beam →
  match forDepth sel bw me togo depth beam visited exps with
  | Some r =>
      ∃ ext,
        Store.forDepth sel bw me togo depth beamR visited exps h
        = Some (r, h ++ ext)
  | None => Store.forDepth sel bw me togo depth beamR visited exps h = None
  end.
Proof.
  revert depth beamR beam visited exps h.
  induction togo as [|togo IH]; intros depth beamR beam visited exps h Hb;
    simpl.
  - exists []. rewrite app_nil_r.
    by rewrite (store_noSolution_refines _ _ _ _ _ Hb).
  - assert (bool_decide (beamR = []) = bool_decide (beam = [])) as ->.
    { destruct Hb; [by rewrite !bool_decide_eq_true_2|].
      by rewrite !bool_decide_eq_false_2. }
    case_bool_decide.
    { exists []. rewrite app_nil_r.
      by rewrite (store_noSolution_refines _ _ _ _ _ Hb). }
    pose proof (store_forNodes_refines sel bw me depth beamR beam
                  (Store.VarsRef.mk visited exps [])
                  (Vars.mk visited exps []) h Hb) as Hstep.
    destruct (forNodes sel bw me depth beam _) as [[r|s]|]; simpl.
    + destruct Hstep as [ext Hrun]; [by repeat split|].
      exists ext. by rewrite (store_bind_run _ _ _ _ _ Hrun).
    + destruct Hstep as (ext & sR & Hrun & Hv & He & Hc); [by repeat split|].
      rewrite (store_bind_run _ _ _ _ _ Hrun). rewrite Hv, He.
      specialize (IH (S depth)
                    (take bw (Store.sortByScore (Store.VarsRef.candidates sR)))
                    (take bw (sortByScore (Vars.candidates s)))
                    (Vars.visited s) (Vars.expansions s) (h ++ ext)).
      destruct (forDepth sel bw me togo (S depth) _ _ _) as [r|].
      * destruct IH as [ext' Hrun'].
        { apply Forall2_take. by apply store_sortByScore_refines. }
        exists (ext ++ ext'). by rewrite app_assoc.
      * apply IH. apply Forall2_take. by apply store_sortByScore_refines.
    + unfold Store.bind. rewrite Hstep; [done | by repeat split].
Qed.

Lemma store_initial_nodeRel (h : list (list Z)) initialBoard hash :
  nodeRel ((h ++ [initialBoard]) ++ [[]])
    (Store.NodeRef.mk (length h) (length (h ++ [initialBoard])) 0 [] 0 hash)
    (Node.mk initialBoard [] 0 [] 0 hash).
Proof.
  unfold nodeRel, Store.nodeAt. simpl.
  rewrite (lookup_app_l_Some (h ++ [initialBoard]) [[]] _ initialBoard
             (list_lookup_middle h [] initialBoard _ eq_refl)).
  simpl. by rewrite (list_lookup_middle (h ++ [initialBoard]) [] [] _ eq_refl).
Qed.

Lemma store_isSolvable_refines (h : list (list Z)) l initialBoard sel params :
  h !! l = Some initialBoard →
  match isSolvable initialBoard sel params with
  | Some r => ∃ ext, Store.isSolvable l sel params h = Some (r, h ++ ext)
  | None => Store.isSolvable l sel params h = None
  end.
Proof.
  intros Hl. unfold isSolvable, beamSearchSolve, Store.isSolvable,
    Store.beamSearchSolve.
  rewrite (store_bind_run _ _ _ _ _ (store_read_run _ _ _ Hl)).
  rewrite (store_bind_run _ _ _ _ _ eq_refl).
  rewrite (store_bind_run _ _ _ _ _ eq_refl).
  set (h2 := (h ++ [initialBoard]) ++ [[]]).
  assert (h2 !! l = Some initialBoard) as Hl2.
  { unfold h2. by do 2 apply lookup_app_l_Some. }
  rewrite (store_bind_run _ _ _ _ _ (store_read_run _ _ _ Hl2)).
  assert (Forall2 (nodeRel h2)
            [Store.NodeRef.mk (length h) (length (h ++ [initialBoard])) 0 []
               0 (hashState initialBoard [])]
            [initialNode initialBoard]) as Hb.
  { constructor; [apply store_initial_nodeRel | constructor]. }
  pose proof (store_forDepth_refines sel
                (orDefault (Params.beamWidth params) SOLVER_BEAM_WIDTH)
                (orDefault (Params.maxExpansions params) SOLVER_MAX_EXPANSIONS)
                (orDefault (Params.maxDepth params) SOLVER_MAX_DEPTH) 0
                _ _ (<[hashState initialBoard [] := Entry.mk 0 0%nat]> ∅)
                0%nat h2 Hb)
    as Hstep.
  cbn [Store.NodeRef.hash Node.hash initialNode] in *.
  destruct (forDepth sel _ _ _ 0 [initialNode initialBoard] _ 0) as [r|].
  - destruct Hstep as [ext Hrun].
    exists ([initialBoard; []] ++ ext). rewrite Hrun. unfold h2.
    by rewrite <- !app_assoc.
  - apply Hstep.
Qed.

(** C10 (frame).  Let the caller's [initialBoard] array hold [contents]
    before the call.  Whenever the call returns, the store it leaves is
    the store before the call followed by newly created arrays: the
    [initialBoard] array still holds [contents], every other array that
    existed is as it was, and the result is the one computed from
    [contents].  With a well-formed collaborator the call does return. *)
Theorem C10_initialBoard_unchanged (h : list (list Z)) (initialBoard : nat)
    (contents : list Z) (selectablePositions : list Z → list nat)
    (config : Params.t) :
  h !! initialBoard = Some contents →
  (∀ r h',
     Store.isSolvable initialBoard selectablePositions config h
     = Some (r, h') →
     h' !! initialBoard = Some contents
     ∧ (∀ l a, h !! l = Some a → h' !! l = Some a)
     ∧ isSolvable contents selectablePositions config = Some r)
  ∧ (wellFormed selectablePositions →
     ∃ r h',
       Store.isSolvable initialBoard selectablePositions config h
       = Some (r, h')).
Proof.
  intros Hl.
  pose proof (store_isSolvable_refines h initialBoard contents
                selectablePositions config Hl) as Href.
  split.
  - intros r h' Hrun.
    destruct (isSolvable contents selectablePositions config) as [r0|];
      [|congruence].
    destruct Href as [ext Hrun0]. rewrite Hrun0 in Hrun.
    injection Hrun as <- <-.
    split_and!; [by apply lookup_app_l_Some | | done].
    intros l a. apply lookup_app_l_Some.
  - intros Hwf.
    destruct (isSolvable_total contents selectablePositions config Hwf)
      as [r Hr].
    rewrite Hr in Href. destruct Href as [ext Hrun]. by eexists _, _.
Qed.

Lemma C10_witness :
  ∃ r h',
    Store.isSolvable 1 allPositions Params.empty [[5]; [0; 0; 0]]
    = Some (r, h')
    ∧ h' !! 1%nat = Some [0; 0; 0]
    ∧ h' !! 0%nat = Some [5].
Proof.
  destruct (C10_initialBoard_unchanged [[5]; [0; 0; 0]] 1 [0; 0; 0]
              allPositions Params.empty eq_refl) as [Hframe Hruns].
  destruct (Hruns allPositions_wellFormed) as (r & h' & Hrun).
  destruct (Hframe r h' Hrun) as (H1 & Hothers & _).
  exists r, h'. split_and!; [exact Hrun | exact H1 |].
  by apply Hothers.
Defined.

(** ** The components of [scoreState] *)

Lemma occurrences_lookup tray k :
  occurrences tray !! k
  = if bool_decide (k ∈ tray) then Some (occurrenceCount k tray) else None.
Proof.
  unfold occurrences.
  induction tray as [|x tray IH] using rev_ind; simpl; [done|].
  rewrite foldl_app. simpl.
  rewrite occurrenceCount_app.
  destruct (decide (k = x)) as [->|Hne].
  - rewrite lookup_insert_eq, IH.
    rewrite (bool_decide_eq_true_2 (x ∈ tray ++ [x]))
      by (rewrite elem_of_app, list_elem_of_singleton; tauto).
    f_equal. case_bool_decide as Hin; simpl.
    + count_cases.
    + apply (positions_nil_iff x tray 0) in Hin.
      rewrite <- (length_positions x tray 0), Hin. count_cases.
  - rewrite lookup_insert_ne, IH by done.
    rewrite (bool_decide_ext (k ∈ tray ++ [x]) (k ∈ tray))
      by (rewrite elem_of_app, list_elem_of_singleton; tauto).
    case_bool_decide; [|done]. f_equal. count_cases.
Qed.

Lemma pairReward_count tray :
  pairReward tray
  = 12 * Z.of_nat
           (length (filter (λ k, occurrenceCount k tray = 2%nat)
                      (remove_dups tray))).
Proof.
  unfold pairReward. rewrite map_fold_foldr.
  assert (map_to_list (occurrences tray)
          ≡ₚ (λ k, (k, occurrenceCount k tray)) <$> remove_dups tray) as Hperm.
  { apply NoDup_Permutation.
    - apply NoDup_map_to_list.
    - apply NoDup_fmap_2; [|apply NoDup_remove_dups].
      intros k1 k2 [= ->]. done.
    - intros [k c]. rewrite elem_of_map_to_list, occurrences_lookup.
      rewrite list_elem_of_fmap. setoid_rewrite elem_of_remove_dups.
      case_bool_decide.
      + split; [intros [= <-]; by exists k | by intros (? & [= -> ->] & _)].
      + split; [done | intros (? & [= -> ->] & ?); done]. }
  transitivity
    (12 * Z.of_nat
            (length (filter (λ kc : Z * nat, kc.2 = 2%nat)
                       (map_to_list (occurrences tray))))).
  { generalize (map_to_list (occurrences tray)). intros l.
    induction l as [|[k c] l IH]; simpl; [done|].
    rewrite filter_cons, IH. simpl.
    case_bool_decide; case_decide; simpl; try congruence; lia. }
  rewrite Hperm. do 2 f_equal.
  generalize (remove_dups tray). intros l.
  induction l as [|k l IH]; [done|].
  rewrite fmap_cons, !filter_cons. cbn [snd].
  case_decide; cbn [length]; by rewrite IH.
Qed.

Lemma newIconCount_distinct tray prevTray :
  newIconCount tray prevTray
  = length (filter (λ k, k ∉ prevTray) (remove_dups tray)).
Proof.
  unfold newIconCount.
  set (newIcons := filter _ tray).
  assert ((list_to_set newIcons : gset Z)
          = list_to_set (remove_dups newIcons)) as ->.
  { apply set_eq. intros k.
    by rewrite !elem_of_list_to_set, elem_of_remove_dups. }
  rewrite size_list_to_set by apply NoDup_remove_dups.
  unfold newIcons.
  apply Permutation_length, NoDup_Permutation.
  - apply NoDup_remove_dups.
  - apply NoDup_filter, NoDup_remove_dups.
  - intros k. rewrite elem_of_remove_dups, !list_elem_of_filter.
    rewrite elem_of_remove_dups, elem_of_list_to_set. done.
Qed.

(** In an expansion [scoreState] is the described sum without its triple
    term. *)
Lemma scoreState_expansion board prevTray iconIdx prevRemaining newRemaining :
  clearPass prevTray = None →
  let result := resolveTrayTriples (prevTray ++ [iconIdx]) in
  scoreState board (Resolved.tray result) prevTray prevRemaining newRemaining
  = describedIncrement result prevTray prevRemaining newRemaining
    - 100 * (Resolved.clearedCount result / 3).
Proof.
  intros Hstable result.
  pose proof (tripleReward_expansion _ iconIdx Hstable) as Htriple.
  fold result in Htriple.
  unfold scoreState, describedIncrement.
  rewrite Htriple, pairReward_count, newIconCount_distinct. lia.
Qed.

(** Every node of a frontier has a tray in which no type occurs three
    times. *)
Lemma stateAt_stable sel bw me initialBoard depth beam visited exps :
  stateAt sel bw me initialBoard depth = Some (beam, visited, exps) →
  Forall (λ node, clearPass (Node.tray node) = None) beam.
Proof.
  revert beam visited exps.
  induction depth as [|depth IH]; intros beam visited exps; simpl.
  - intros [= <- <- <-]. by repeat constructor.
  - destruct (stateAt sel bw me initialBoard depth)
      as [[[beam0 visited0] exps0]|] eqn:E; simpl; [|done].
    case_bool_decide as Hb; [done|].
    destruct (forNodes _ _ _ _ _ _) as [[r|s]|] eqn:En; simpl; try done.
    intros [= <- <- <-]. apply next_beam_Forall.
    eapply (forNodes_invariant sel bw me
              (λ node, clearPass (Node.tray node) = None));
      [ | by eapply IH | | exact En]; [|constructor].
    intros d node remaining slotIdx s0 s1 _ _ Hc Hx.
    apply expandSlot_inv in Hx as (iconIdx & _ & _ & [->|Hx]); [done|].
    destruct Hx as (newScore & newHash & _ & _ & ->).
    apply Forall_app. split; [done|]. constructor; [|constructor].
    apply resolveTrayTriples_stable.
Qed.

(** C1, the failing expansion.  Board [-1,-1,0], tray [0,0], pick position
    2: the Resolution Engine clears 3 pieces, so the described increment
    is 100 + 5 = 105; [scoreState], called as the driver calls it (with
    the tray before the move as [prevTray]), returns 5, and the candidate
    is created with the node's score plus 5.  The same holds throughout:
    from a tray in which no type occurs three times, the triple term of
    [scoreState] is 0 and the increment is the described sum less its
    triple term; and every tray of a frontier node is such a tray. *)
Theorem C1_triple_reward_not_added :
  (let node :=
     Node.mk [-1; -1; 0] [0; 0] 5 [0; 1]%nat 2 (hashState [-1; -1; 0] [0; 0]) in
   let result := resolveTrayTriples (Node.tray node ++ [0]) in
   result = Resolved.mk [] 3 [0]
   ∧ describedIncrement result (Node.tray node) 1 0 = 105
   ∧ scoreState [-1; -1; -1] (Resolved.tray result) (Node.tray node) 1 0 = 5
   ∧ Vars.candidates <$> expandSlot 2 node 1 2 (Vars.mk ∅ 20 [])
     = Some [Node.mk [-1; -1; -1] [] (5 + 5) [0; 1; 2]%nat 3
               (hashState [-1; -1; -1] [])])
  ∧ (∀ board prevTray iconIdx prevRemaining newRemaining,
       clearPass prevTray = None →
       let result := resolveTrayTriples (prevTray ++ [iconIdx]) in
       tripleReward (Resolved.tray result) prevTray = 0
       ∧ scoreState board (Resolved.tray result) prevTray prevRemaining
           newRemaining
         = describedIncrement result prevTray prevRemaining newRemaining
           - 100 * (Resolved.clearedCount result / 3))
  ∧ (∀ getClickableSlots beamWidth maxExpansions initialBoard depth beam
       visited expansions,
       stateAt getClickableSlots beamWidth maxExpansions initialBoard depth
       = Some (beam, visited, expansions) →
       Forall (λ node, clearPass (Node.tray node) = None) beam).
Proof.
  split_and!.
  - split_and!; vm_compute; reflexivity.
  - intros board prevTray iconIdx prevRemaining newRemaining Hstable.
    split; [by apply tripleReward_expansion | by apply scoreState_expansion].
  - apply stateAt_stable.
Qed.

(** * Properties beyond the claims *)

(** ** The Resolution Engine: idempotence and closed form *)

Lemma occurrenceCount_removeEarliest_other k' n k tray :
  k' ≠ k →
  occurrenceCount k' (removeEarliest n k tray) = occurrenceCount k' tray.
Proof.
  intros Hne. unfold occurrenceCount. revert n.
  induction tray as [|x tray IH]; intros [|n]; simpl; try done.
  case_bool_decide; rewrite ?filter_cons; repeat case_decide; simpl;
    try congruence; by rewrite IH.
Qed.

Lemma occurrenceCount_cons k x tray :
  occurrenceCount k (x :: tray)
  = ((if bool_decide (x = k) then 1 else 0) + occurrenceCount k tray)%nat.
Proof.
  unfold occurrenceCount. rewrite filter_cons.
  case_decide; case_bool_decide; simpl; congruence.
Qed.

Lemma keepLast_removeEarliest keep n k tray :
  (keep k + n ≤ occurrenceCount k tray)%nat →
  keepLast keep (removeEarliest n k tray) = keepLast keep tray.
Proof.
  revert n. induction tray as [|x tray IH]; intros n Hn.
  - by destruct n.
  - destruct n as [|n]; [done|]. simpl removeEarliest.
    rewrite occurrenceCount_cons in Hn.
    destruct (decide (x = k)) as [->|Hne].
    + rewrite bool_decide_eq_true_2 in * by done.
      rewrite IH by lia. simpl keepLast.
      rewrite bool_decide_eq_false_2; [done|].
      rewrite occurrenceCount_cons, bool_decide_eq_true_2 by done. lia.
    + rewrite bool_decide_eq_false_2 in * by done.
      simpl keepLast. rewrite IH by lia.
      rewrite !(occurrenceCount_cons x x), occurrenceCount_removeEarliest_other
        by done.
      done.
Qed.

Lemma keepLast_all keep tray :
  (∀ x, occurrenceCount x tray ≤ keep x)%nat → keepLast keep tray = tray.
Proof.
  induction tray as [|x tray IH]; intros Hle; [done|]. simpl.
  rewrite bool_decide_eq_true_2 by apply Hle. f_equal. apply IH.
  intros y. specialize (Hle y). rewrite occurrenceCount_cons in Hle. lia.
Qed.

Lemma passes_counts ks tray tray' k :
  passes ks tray tray' →
  (occurrenceCount k tray' + 3 * occurrenceCount k ks
   = occurrenceCount k tray)%nat.
Proof.
  induction 1 as [|tray tray1 k0 ks tray' Hp _ IH]; [simpl; lia|].
  apply clearPass_Some in Hp as [Hk0 ->].
  rewrite occurrenceCount_cons.
  destruct (decide (k0 = k)) as [->|Hne].
  - rewrite bool_decide_eq_true_2 by done.
    rewrite occurrenceCount_removeEarliest_same in IH. lia.
  - rewrite bool_decide_eq_false_2 by done.
    rewrite occurrenceCount_removeEarliest_other in IH by done. lia.
Qed.

Lemma passes_keepLast keep ks tray tray' :
  (∀ k, keep k = occurrenceCount k tray `mod` 3)%nat →
  passes ks tray tray' → keepLast keep tray' = keepLast keep tray.
Proof.
  intros Hkeep Hps.
  induction Hps as [|tray tray1 k0 ks tray' Hp _ IH]; [done|].
  apply clearPass_Some in Hp as [Hk0 ->].
  rewrite IH.
  - apply keepLast_removeEarliest. rewrite Hkeep.
    pose proof (Nat.Div0.div_mod (occurrenceCount k0 tray) 3).
    pose proof (Nat.mod_upper_bound (occurrenceCount k0 tray) 3).
    assert (1 ≤ occurrenceCount k0 tray / 3)%nat
      by (apply Nat.div_le_lower_bound; lia).
    lia.
  - intros k. rewrite Hkeep.
    destruct (decide (k = k0)) as [->|Hne].
    + rewrite occurrenceCount_removeEarliest_same.
      replace (occurrenceCount k0 tray)
        with ((occurrenceCount k0 tray - 3) + 1 * 3)%nat at 1 by lia.
      by rewrite Nat.Div0.mod_add.
    + by rewrite occurrenceCount_removeEarliest_other.
Qed.

Lemma resolveTrayTriples_counts tray k :
  let r := resolveTrayTriples tray in
  occurrenceCount k (Resolved.tray r) = (occurrenceCount k tray `mod` 3)%nat
  ∧ occurrenceCount k (Resolved.clearedIcons r)
    = (occurrenceCount k tray / 3)%nat.
Proof.
  destruct (resolveTrayTriples_passes tray) as (ks & t' & Hps & Hn & E).
  intros r. subst r. rewrite E. cbn [Resolved.tray Resolved.clearedIcons].
  pose proof (passes_counts _ _ _ k Hps) as Hc.
  pose proof (clearPass_None _ k Hn) as Hlt.
  split.
  - apply (Nat.mod_unique _ 3 (occurrenceCount k ks)); lia.
  - apply (Nat.div_unique _ 3 _ (occurrenceCount k t')); lia.
Qed.

Lemma resolveTrayTriples_residue tray :
  Resolved.tray (resolveTrayTriples tray) = residue tray.
Proof.
  destruct (resolveTrayTriples_passes tray) as (ks & t' & Hps & Hn & E).
  pose proof (λ k, proj1 (resolveTrayTriples_counts tray k)) as Hc.
  rewrite E in *. cbn [Resolved.tray] in *. unfold residue.
  rewrite <- (passes_keepLast _ ks tray t') by done.
  symmetry. apply keepLast_all. intros x. by rewrite Hc.
Qed.

(** X1 (idempotence).  A tray in which no type occurs three times is
    returned as it is, with nothing cleared; so resolving the tray of a
    result again changes nothing. *)
Theorem X1_resolution_idempotent :
  (∀ tray,
     (∀ k, (occurrenceCount k tray < 3)%nat) →
     resolveTrayTriples tray = Resolved.mk tray 0 [])
  ∧ (∀ tray,
       resolveTrayTriples (Resolved.tray (resolveTrayTriples tray))
       = Resolved.mk (Resolved.tray (resolveTrayTriples tray)) 0 []).
Proof.
  split.
  - intros tray Hlt.
    by rewrite resolveTrayTriples_unfold, clearPass_None_intro.
  - intros tray.
    by rewrite resolveTrayTriples_unfold, resolveTrayTriples_stable.
Qed.

(** X2 (closed form of the result tray).  Whatever the order in which
    the types are cleared, the result tray is the input tray in which
    every type keeps its last [count mod 3] occurrences, in their
    order. *)
Theorem X2_result_tray_closed_form :
  ∀ tray,
    Resolved.tray (resolveTrayTriples tray) = residue tray
    ∧ ∀ k,
        occurrenceCount k (Resolved.tray (resolveTrayTriples tray))
        = (occurrenceCount k tray `mod` 3)%nat.
Proof.
  intros tray. split; [apply resolveTrayTriples_residue|].
  intros k. apply (resolveTrayTriples_counts tray k).
Qed.

(** X3 (what is cleared).  A type with [n] occurrences in the input is
    pushed [n / 3] times on [clearedIcons], and [clearedCount] is three
    times the number of entries of [clearedIcons]; the input length is
    the result length plus [clearedCount]. *)
Theorem X3_cleared_accounting :
  ∀ tray,
    let r := resolveTrayTriples tray in
    (∀ k,
       occurrenceCount k (Resolved.clearedIcons r)
       = (occurrenceCount k tray / 3)%nat)
    ∧ Resolved.clearedCount r
      = 3 * Z.of_nat (length (Resolved.clearedIcons r))
    ∧ Z.of_nat (length tray)
      = Z.of_nat (length (Resolved.tray r)) + Resolved.clearedCount r.
Proof.
  intros tray r. split_and!.
  - intros k. apply (resolveTrayTriples_counts tray k).
  - subst r.
    by destruct (resolveTrayTriples_passes tray) as (ks & t' & _ & _ & ->).
  - subst r.
    destruct (resolveTrayTriples_passes tray) as (ks & t' & Hps & _ & ->).
    simpl. apply passes_length in Hps. lia.
Qed.

(** ** The expansion budget *)

Lemma forSlots_expansions_exact me depth node remaining slots s s' :
  forSlots me depth node remaining slots s = Some s' →
  Vars.expansions s'
  = if bool_decide (me ≤ Vars.expansions s)%nat then Vars.expansions s
    else Nat.min (Vars.expansions s + length slots) me.
Proof.
  revert s. induction slots as [|slotIdx rest IH]; intros s;
    cbn [forSlots length].
  - intros [= <-]. case_bool_decide; lia.
  - case_bool_decide as Hb; [by intros [= <-]|].
    destruct (expandSlot _ _ _ _ _) as [s1|] eqn:E; [|done].
    cbn [mbind option_bind]. intros Hrun. rewrite (IH _ Hrun).
    apply expandSlot_inv in E as (_ & _ & -> & _). cbn [Vars.expansions].
    case_bool_decide; lia.
Qed.

Lemma forSlots_empty_slots me depth node remaining slots s s' :
  (∀ x, x ∈ slots → Node.board node !! x = Some (-1)) →
  forSlots me depth node remaining slots s = Some s' →
  Vars.candidates s' = Vars.candidates s
  ∧ Vars.visited s' = Vars.visited s.
Proof.
  revert s. induction slots as [|slotIdx rest IH]; intros s Hempty; simpl.
  - by intros [= <-].
  - case_bool_decide as Hb; [by intros [= <-]|].
    unfold expandSlot. rewrite (Hempty slotIdx) by left. simpl.
    intros Hrun. apply IH in Hrun; [done|].
    intros x Hx. apply Hempty. by right.
Qed.

(** X5 (what a slot costs).  Every slot the slot loop visits while budget
    is left costs one expansion, whether it holds a piece or not: the
    loop leaves [expansions] at [min (expansions + number of slots)
    maxExpansions] (unchanged when the budget was already used up).  When
    all listed slots are empty, that is all it does: [candidates] and
    [visited] are as before. *)
Theorem X5_every_slot_costs_one_expansion (maxExpansions depth : nat)
    (node : Node.t) (remaining : nat) (clickableSlots : list nat)
    (s s' : Vars.t) :
  forSlots maxExpansions depth node remaining clickableSlots s = Some s' →
  Vars.expansions s'
  = (if bool_decide (maxExpansions ≤ Vars.expansions s)%nat
     then Vars.expansions s
     else Nat.min (Vars.expansions s + length clickableSlots) maxExpansions)
  ∧ ((∀ x, x ∈ clickableSlots → Node.board node !! x = Some (-1)) →
     Vars.candidates s' = Vars.candidates s
     ∧ Vars.visited s' = Vars.visited s).
Proof.
  intros Hrun. split; [by eapply forSlots_expansions_exact|].
  intros Hempty. by eapply forSlots_empty_slots.
Qed.

Lemma X5_witness :
  Vars.expansions <$>
    forSlots 10 1 (Node.mk [-1; -1; 4] [] 0 [] 1 "") 1 [0; 1; 0; 1]%nat
      (Vars.mk ∅ 3 [])
  = Some 7%nat.
Proof.
  destruct (forSlots 10 1 (Node.mk [-1; -1; 4] [] 0 [] 1 "") 1
              [0; 1; 0; 1]%nat (Vars.mk ∅ 3 [])) as [s'|] eqn:Hrun;
    [|vm_compute in Hrun; discriminate].
  simpl. f_equal.
  exact (proj1 (X5_every_slot_costs_one_expansion _ _ _ _ _ _ _ Hrun)).
Defined.

Lemma forNodes_within_budget sel bw me depth beam s s' :
  (Vars.expansions s ≤ me)%nat →
  forNodes sel bw me depth beam s = Some (Left s') →
  (Vars.expansions s' ≤ me)%nat.
Proof.
  revert s. induction beam as [|node rest IH]; intros s Hle; simpl.
  - by intros [= <-].
  - case_bool_decide; [by intros [= <-]|].
    destruct (solved node); [done|].
    destruct (forSlots _ _ _ _ _ _) as [s1|] eqn:E; simpl; [|done].
    apply IH. rewrite (forSlots_expansions_exact _ _ _ _ _ _ _ E).
    case_bool_decide; lia.
Qed.

Lemma forDepth_within_budget sel bw me togo depth beam visited exps r :
  (exps ≤ me)%nat →
  forDepth sel bw me togo depth beam visited exps = Some r →
  (Stats.expansionsUsed (statsOf r) ≤ me)%nat
  ∧ Stats.beamWidth (statsOf r) = bw
  ∧ (∀ ms st, r = Solvable ms st → (Stats.expansionsUsed st < me)%nat).
Proof.
  revert depth beam visited exps.
  induction togo as [|togo IH]; intros depth beam visited exps Hle; simpl.
  - intros [= <-]. by split_and!.
  - case_bool_decide; [intros [= <-]; by split_and!|].
    destruct (forNodes _ _ _ _ _ _) as [[r0|s]|] eqn:E; simpl; [| |done].
    + intros [= <-].
      apply forNodes_returned in E as (node & e & _ & _ & Hlt & ->).
      simpl. split_and!; [lia | done |]. intros ms st [= _ <-]. simpl. lia.
    + apply IH. eapply forNodes_within_budget; [|exact E]; done.

Qed.

(** X4 (budget conservation).  Whatever a call returns,
    [stats.expansionsUsed] is at most the effective [maxExpansions] and
    [stats.beamWidth] is the effective [beamWidth]; in a [Solvable] result
    [expansionsUsed] is strictly below [maxExpansions]. *)
Theorem X4_expansions_within_budget (initialBoard : list Z)
    (getClickableSlots : list Z → list nat) (params : Params.t)
    (r : Result) :
  isSolvable initialBoard getClickableSlots params = Some r →
  (Stats.expansionsUsed (statsOf r)
   ≤ orDefault (Params.maxExpansions params) SOLVER_MAX_EXPANSIONS)%nat
  ∧ Stats.beamWidth (statsOf r)
    = orDefault (Params.beamWidth params) SOLVER_BEAM_WIDTH
  ∧ (∀ ms st,
       r = Solvable ms st →
       (Stats.expansionsUsed st
        < orDefault (Params.maxExpansions params) SOLVER_MAX_EXPANSIONS)%nat).
Proof.
  unfold isSolvable, beamSearchSolve. apply forDepth_within_budget. lia.
Qed.

Lemma X4_witness :
  ∃ r,
    isSolvable [0; 0; 1; 1; 0; 1] allPositions
      (Params.mk (Some 3%nat) (Some 7%nat) None) = Some r
    ∧ (Stats.expansionsUsed (statsOf r) ≤ 7)%nat.
Proof.
  exists (Unsolvable (Stats.mk 7 None 3 None)).
  assert (isSolvable [0; 0; 1; 1; 0; 1] allPositions
            (Params.mk (Some 3%nat) (Some 7%nat) None)
          = Some (Unsolvable (Stats.mk 7 None 3 None))) as Hrun
    by (vm_compute; reflexivity).
  split; [exact Hrun|].
  exact (proj1 (X4_expansions_within_budget _ _ _ _ Hrun)).
Defined.

(** ** What a winning path looks like *)

Lemma occurrenceCount_insert k (board : list Z) pos piece v :
  board !! pos = Some piece →
  (occurrenceCount k (<[pos := v]> board)
   + (if bool_decide (piece = k) then 1 else 0)
   = occurrenceCount k board + (if bool_decide (v = k) then 1 else 0))%nat.
Proof.
  revert pos. induction board as [|x board IH]; intros [|pos]; simpl;
    try done.
  - intros [= ->]. rewrite !occurrenceCount_cons. lia.
  - intros Hl. rewrite !occurrenceCount_cons. specialize (IH _ Hl).
    fold (@insert nat Z (list Z) _ pos v board) in *. lia.
Qed.

Lemma countRemaining_insert (board : list Z) pos piece :
  board !! pos = Some piece → piece ≠ -1 →
  countRemaining board = S (countRemaining (<[pos := -1]> board)).
Proof.
  unfold countRemaining. revert pos.
  induction board as [|x board IH]; intros [|pos]; simpl; try done.
  - intros [= ->] Hne. rewrite !filter_cons.
    rewrite decide_True by done. by rewrite decide_False by (intros ?; done).
  - intros Hl Hne. rewrite !filter_cons.
    fold (@insert nat Z (list Z) _ pos (-1) board).
    case_decide; simpl; by rewrite (IH _ Hl Hne).
Qed.

Lemma replay_empty_stays sel (board : list Z) tray ms board' tray' p :
  board !! p = Some (-1) →
  replay sel board tray ms = Some (board', tray') →
  (p ∉ ms) ∧ board' !! p = Some (-1).
Proof.
  revert board tray. induction ms as [|pos ms IH]; intros board tray Hp;
    simpl.
  - intros [= <- <-]. split; [apply not_elem_of_nil | done].
  - case_bool_decide; [|done].
    destruct (board !! pos) as [piece|] eqn:Hpos; [|done].
    case_bool_decide as Hpiece; [done|].
    intros Hrun. apply IH in Hrun as [Hnin Hb'].
    + split; [|done]. apply not_elem_of_cons. split; [|done].
      intros ->. congruence.
    + destruct (decide (pos = p)) as [->|Hne].
      * rewrite list_lookup_insert_eq; [done|]. by eapply lookup_lt_Some.
      * by rewrite list_lookup_insert_ne.
Qed.

Lemma replay_moves sel (board : list Z) tray ms board' tray' :
  replay sel board tray ms = Some (board', tray') →
  NoDup ms ∧ countRemaining board = (countRemaining board' + length ms)%nat.
Proof.
  revert board tray. induction ms as [|pos ms IH]; intros board tray; simpl.
  - intros [= <- <-]. split; [constructor | lia].
  - case_bool_decide; [|done].
    destruct (board !! pos) as [piece|] eqn:Hpos; [|done].
    case_bool_decide as Hpiece; [done|].
    intros Hrun.
    destruct (replay_empty_stays _ _ _ _ _ _ pos
                (list_lookup_insert_eq _ _ _ (lookup_lt_Some _ _ _ Hpos)) Hrun)
      as [Hnin _].
    apply IH in Hrun as [Hnd Hcount].
    split; [by constructor|].
    rewrite (countRemaining_insert _ _ _ Hpos Hpiece). lia.
Qed.

Lemma replay_counts sel (board : list Z) tray ms board' tray' k :
  k ≠ -1 →
  replay sel board tray ms = Some (board', tray') →
  ∃ c,
    (occurrenceCount k board + occurrenceCount k tray
     = occurrenceCount k board' + occurrenceCount k tray' + 3 * c)%nat.
Proof.
  intros Hk. revert board tray. induction ms as [|pos ms IH];
    intros board tray; simpl.
  - intros [= <- <-]. exists 0%nat. lia.
  - case_bool_decide; [|done].
    destruct (board !! pos) as [piece|] eqn:Hpos; [|done].
    case_bool_decide as Hpiece; [done|].
    intros Hrun. apply IH in Hrun as [c Hc].
    pose proof (occurrenceCount_insert k _ _ _ (-1) Hpos) as Hins.
    rewrite (bool_decide_eq_false_2 (-1 = k)) in Hins by done.
    destruct (resolveTrayTriples_counts (tray ++ [piece]) k) as [Hmod _].
    rewrite Hmod in Hc.
    pose proof (Nat.Div0.div_mod (occurrenceCount k (tray ++ [piece])) 3)
      as Hdm.
    rewrite occurrenceCount_app, (occurrenceCount_cons k piece []) in Hdm, Hc.
    change (occurrenceCount k []) with 0%nat in *.
    eexists (c + (occurrenceCount k tray
                  + ((if bool_decide (piece = k) then 1 else 0) + 0)) / 3)%nat.
    lia.
Qed.

(** X6 (a necessary condition).  If a call returns [Solvable], every
    piece type occurs on the initial board a number of times that is a
    multiple of 3. *)
Theorem X6_solvable_needs_multiples_of_three (initialBoard : list Z)
    (getClickableSlots : list Z → list nat) (params : Params.t)
    (winningMoves : list nat) (stats : Stats.t) :
  isSolvable initialBoard getClickableSlots params
  = Some (Solvable winningMoves stats) →
  ∀ k, k ≠ -1 → (occurrenceCount k initialBoard `mod` 3 = 0)%nat.
Proof.
  intros Hrun k Hk.
  apply isSolvable_replays in Hrun as (board & Hrep & Hempty).
  destruct (replay_counts _ _ _ _ _ _ k Hk Hrep) as [c Hc].
  assert (occurrenceCount k board = 0)%nat as Hz.
  { clear -Hempty Hk. induction Hempty as [|x board Hx _ IH]; [done|].
    rewrite occurrenceCount_cons, IH, bool_decide_eq_false_2; [done|].
    congruence. }
  rewrite Hz in Hc. change (occurrenceCount k []) with 0%nat in Hc.
  replace (occurrenceCount k initialBoard) with (0 + c * 3)%nat by lia.
  by rewrite Nat.Div0.mod_add.
Qed.

Lemma X6_witness : Nat.modulo (occurrenceCount 4 [4; -1; 4; 4]) 3 = 0%nat.
Proof.
  eapply (X6_solvable_needs_multiples_of_three [4; -1; 4; 4] allPositions
            Params.empty); [vm_compute; reflexivity | done].
Defined.

(** ** One level of the search: from frontier nodes to candidates *)

Section LevelInvariant.

Variable sel : list Z → list nat.
Variables bw me depth : nat.
Variables P Q : Node.t → Prop.

Hypothesis PQ_expand : ∀ node remaining slotIdx s s',
  P node → slotIdx ∈ sel (Node.board node) →
  Forall Q (Vars.candidates s) →
  expandSlot depth node remaining slotIdx s = Some s' →
  Forall Q (Vars.candidates s').

Lemma forSlots_level depth_node remaining slots s s' :
  P depth_node → (∀ x, x ∈ slots → x ∈ sel (Node.board depth_node)) →
  Forall Q (Vars.candidates s) →
  forSlots me depth depth_node remaining slots s = Some s' →
  Forall Q (Vars.candidates s').
Proof.
  intros Hn. revert s. induction slots as [|slotIdx rest IH];
    intros s Hsub Hc; simpl.
  - by intros [= <-].
  - case_bool_decide; [by intros [= <-]|].
    destruct (expandSlot _ _ _ _ _) as [s1|] eqn:E; simpl; [|done].
    apply IH.
    + intros x Hx. apply Hsub. by right.
    + eapply PQ_expand; [exact Hn | apply Hsub; left | | exact E]. done.
Qed.

Lemma forNodes_level beam s s' :
  Forall P beam → Forall Q (Vars.candidates s) →
  forNodes sel bw me depth beam s = Some (Left s') →
  Forall Q (Vars.candidates s').
Proof.
  revert s. induction beam as [|node rest IH]; intros s Hb Hc; simpl.
  - by intros [= <-].
  - case_bool_decide; [by intros [= <-]|].
    destruct (solved node); [done|].
    apply Forall_cons in Hb as [Hn Hb].
    destruct (forSlots _ _ _ _ _ _) as [s1|] eqn:E; simpl; [|done].
    apply IH; [done|].
    eapply forSlots_level; [exact Hn | | exact Hc | exact E]. done.
Qed.

End LevelInvariant.

Lemma forDepth_solvable_depth sel bw me togo depth beam visited exps ms st :
  Forall (λ node, length (Node.moves node) = depth) beam →
  forDepth sel bw me togo depth beam visited exps = Some (Solvable ms st) →
  Stats.depth st = Some (length ms) ∧ (length ms < depth + togo)%nat.
Proof.
  revert depth beam visited exps.
  induction togo as [|togo IH]; intros depth beam visited exps Hb; simpl;
    [done|].
  case_bool_decide; [done|].
  destruct (forNodes _ _ _ _ _ _) as [[r|s]|] eqn:E; simpl; [| |done].
  - intros [= ->].
    apply forNodes_returned in E as (node & e & Hin & _ & _ & [= -> ->]).
    simpl. rewrite (proj1 (Forall_forall _ _) Hb _ Hin). split; [done | lia].
  - intros Hrun. apply IH in Hrun as [Hd Hlt]; [split; [done | lia]|].
    apply next_beam_Forall.
    eapply (forNodes_level sel bw me depth
              (λ node, length (Node.moves node) = depth)
              (λ node, length (Node.moves node) = S depth));
      [ | exact Hb | | exact E]; [|constructor].
    intros node remaining slotIdx s0 s1 Hn _ Hc Hx.
    apply expandSlot_inv in Hx as (iconIdx & _ & _ & [->|Hx]); [done|].
    destruct Hx as (newScore & newHash & _ & _ & ->).
    apply Forall_app. split; [done|]. constructor; [|constructor].
    simpl. rewrite length_app, Hn. simpl. lia.
Qed.

(** The shape of a winning path on positions inside the board. *)
Lemma isSolvable_path_shape (initialBoard : list Z)
    (getClickableSlots : list Z → list nat) (params : Params.t)
    (winningMoves : list nat) (stats : Stats.t) :
  isSolvable initialBoard getClickableSlots params
  = Some (Solvable winningMoves stats) →
  NoDup winningMoves
  ∧ length winningMoves = countRemaining initialBoard
  ∧ Stats.depth stats = Some (length winningMoves)
  ∧ (countRemaining initialBoard
     < orDefault (Params.maxDepth params) SOLVER_MAX_DEPTH)%nat.
Proof.
  intros Hrun.
  pose proof Hrun as Hrep.
  apply isSolvable_replays in Hrep as (board & Hrep & Hempty).
  apply replay_moves in Hrep as [Hnd Hcount].
  apply countRemaining_0 in Hempty. rewrite Hempty in Hcount.
  unfold isSolvable, beamSearchSolve in Hrun.
  apply forDepth_solvable_depth in Hrun as [Hd Hlt];
    [|by repeat constructor].
  split_and!; [done | lia | done | lia].
Qed.

(** The off-by-one of [maxDepth] made concrete: three pieces and
    [maxDepth = 3] give [Unsolvable], [maxDepth = 4] gives [Solvable]. *)
Lemma maxDepth_must_exceed_pieces :
  isSolvable [0; 0; 0] allPositions (Params.mk None None (Some 3%nat))
  = Some (Unsolvable (Stats.mk 21 (Some 10) 100 None))
  ∧ isSolvable [0; 0; 0] allPositions (Params.mk None None (Some 4%nat))
    = Some (Solvable [0; 1; 2]%nat (Stats.mk 21 (Some 10) 100 (Some 3%nat))).
Proof. split; vm_compute; reflexivity. Qed.

(** ** Edge case: nothing to clear *)

Lemma orDefault_positive x d : (0 < d)%nat → (0 < orDefault x d)%nat.
Proof. intros Hd. destruct x as [[|n]|]; simpl; lia. Qed.

(** X8 (empty board).  On a board without pieces (the empty array, or
    only empty slots) a call returns [Solvable] at once, whatever the
    collaborator and the configuration: no moves, no expansion, score 0,
    depth 0; the collaborator is never consulted. *)
Theorem X8_board_without_pieces (initialBoard : list Z)
    (getClickableSlots : list Z → list nat) (params : Params.t) :
  Forall (λ x, x = -1) initialBoard →
  isSolvable initialBoard getClickableSlots params
  = Some (Solvable []
            (Stats.mk 0 (Some 0)
               (orDefault (Params.beamWidth params) SOLVER_BEAM_WIDTH)
               (Some 0%nat))).
Proof.
  intros Hempty. unfold isSolvable, beamSearchSolve.
  assert (0 < orDefault (Params.maxDepth params) SOLVER_MAX_DEPTH)%nat as Hd
    by (apply orDefault_positive; unfold SOLVER_MAX_DEPTH; lia).
  assert (0 < orDefault (Params.maxExpansions params) SOLVER_MAX_EXPANSIONS)%nat
    as He by (apply orDefault_positive; unfold SOLVER_MAX_EXPANSIONS; lia).
  destruct (orDefault (Params.maxDepth params) SOLVER_MAX_DEPTH) as [|md];
    [lia|].
  simpl. rewrite bool_decide_eq_false_2 by lia.
  assert (solved (initialNode initialBoard) = true) as ->; [|done].
  apply solved_spec. by split.
Qed.

Lemma X8_witness :
  isSolvable [-1; -1] (λ _, [7%nat]) (Params.mk (Some 1%nat) (Some 1%nat) (Some 1%nat))
  = Some (Solvable [] (Stats.mk 0 (Some 0) 1 (Some 0%nat))).
Proof.
  apply (X8_board_without_pieces [-1; -1] (λ _, [7%nat])
           (Params.mk (Some 1%nat) (Some 1%nat) (Some 1%nat))).
  by repeat constructor.
Defined.

(** ** The frontier *)

Lemma insertByScore_sorted x l :
  StronglySorted byScoreDesc l → StronglySorted byScoreDesc (insertByScore x l).
Proof.
  induction l as [|y l IH]; simpl; intros Hs.
  - by repeat constructor.
  - apply StronglySorted_inv in Hs as [Hs Hy].
    case_bool_decide as Hlt.
    + constructor; [by apply IH|].
      rewrite insertByScore_perm. constructor; [|done].
      unfold byScoreDesc. lia.
    + constructor; [by constructor|].
      constructor; [unfold byScoreDesc; lia|].
      eapply Forall_impl; [exact Hy|]. unfold byScoreDesc. intros; simpl in *.
      lia.
Qed.

Lemma sortByScore_sorted l : StronglySorted byScoreDesc (sortByScore l).
Proof.
  induction l as [|x l IH]; simpl; [constructor|].
  by apply insertByScore_sorted.
Qed.

Lemma next_beam_sorted bw l :
  StronglySorted byScoreDesc (take bw (sortByScore l)).
Proof.
  pose proof (sortByScore_sorted l) as Hs.
  rewrite <- (take_drop bw (sortByScore l)) in Hs.
  by apply StronglySorted_app_1_l in Hs.
Qed.

(** An invariant of the frontier nodes that may depend on the depth:
    it holds of the initial node at depth 0 and every expansion at depth
    [d] hands it on to the candidate for depth [d + 1]. *)
Lemma stateAt_invariant (P : nat → Node.t → Prop) sel bw me initialBoard :
  P 0%nat (initialNode initialBoard) →
  (∀ d node remaining slotIdx s s',
     P d node → Forall (P (S d)) (Vars.candidates s) →
     expandSlot d node remaining slotIdx s = Some s' →
     Forall (P (S d)) (Vars.candidates s')) →
  ∀ depth beam visited exps,
    stateAt sel bw me initialBoard depth = Some (beam, visited, exps) →
    Forall (P depth) beam.
Proof.
  intros H0 Hstep depth.
  induction depth as [|depth IH]; intros beam visited exps; simpl.
  - intros [= <- <- <-]. by repeat constructor.
  - destruct (stateAt sel bw me initialBoard depth)
      as [[[beam0 visited0] exps0]|] eqn:E; simpl; [|done].
    case_bool_decide as Hb; [done|].
    destruct (forNodes _ _ _ _ _ _) as [[r|s]|] eqn:En; simpl; try done.
    intros [= <- <- <-]. apply next_beam_Forall.
    eapply (forNodes_level sel bw me depth (P depth) (P (S depth)));
      [ | by eapply IH | | exact En]; [|constructor].
    intros node remaining slotIdx s0 s1 Hn _ Hc Hx. by eapply Hstep.
Qed.

(** X10 (size and order of the frontier).  After every completed level
    the frontier holds at most [beamWidth] nodes, in descending order of
    score, so its first node has the best score of the frontier (the
    score an [Unsolvable] result reports). *)
Theorem X10_frontier_bounded_and_sorted
    (getClickableSlots : list Z → list nat) (beamWidth maxExpansions : nat)
    (initialBoard : list Z) (depth : nat) (beam : list Node.t)
    (visited : gmap string Entry.t) (expansions : nat) :
  stateAt getClickableSlots beamWidth maxExpansions initialBoard (S depth)
  = Some (beam, visited, expansions) →
  (length beam ≤ beamWidth)%nat
  ∧ StronglySorted byScoreDesc beam
  ∧ (∀ node,
       node ∈ beam →
       ∃ best, head beam = Some best ∧ Node.score node ≤ Node.score best).
Proof.
  simpl.
  destruct (stateAt getClickableSlots beamWidth maxExpansions initialBoard
              depth) as [[[beam0 visited0] exps0]|]; simpl; [|done].
  case_bool_decide; [done|].
  destruct (forNodes _ _ _ _ _ _) as [[r|s]|]; simpl; try done.
  intros [= <- <- <-].
  pose proof (next_beam_sorted beamWidth (Vars.candidates s)) as Hs.
  split_and!; [rewrite length_take; lia | done |].
  intros node Hin. destruct (take _ _) as [|best rest]; [by inversion Hin|].
  exists best. split; [done|].
  apply StronglySorted_inv in Hs as [_ Hbest].
  apply elem_of_cons in Hin as [->|Hin]; [lia|].
  by apply (proj1 (Forall_forall _ _) Hbest).
Qed.

Lemma X10_witness :
  ∃ beam visited expansions,
    stateAt allPositions 2 5000 [0; 0; 0; 1; 1; 1] 2
    = Some (beam, visited, expansions)
    ∧ (length beam ≤ 2)%nat
    ∧ StronglySorted byScoreDesc beam.
Proof.
  assert (bool_decide
            (is_Some (stateAt allPositions 2 5000 [0; 0; 0; 1; 1; 1] 2))
          = true) as Hsome by (vm_compute; reflexivity).
  apply bool_decide_eq_true in Hsome as [[[beam visited] expansions] Hst].
  exists beam, visited, expansions. split; [exact Hst|].
  destruct (X10_frontier_bounded_and_sorted _ _ _ _ _ _ _ _ Hst)
    as (Hlen & Hs & _).
  by split.
Defined.

Lemma expandSlot_kept depth node remaining slotIdx s s' :
  expandSlot depth node remaining slotIdx s = Some s' →
  s' = s
  ∨ ∃ iconIdx,
      let newBoard := <[slotIdx := -1]> (Node.board node) in
      let result := resolveTrayTriples (Node.tray node ++ [iconIdx]) in
      let newScore :=
        Node.score node
        + scoreState newBoard (Resolved.tray result) (Node.tray node)
            remaining (countRemaining newBoard) in
      let newHash := hashState newBoard (Resolved.tray result) in
      Node.board node !! slotIdx = Some iconIdx
      ∧ iconIdx ≠ -1
      ∧ s' = Vars.mk
               (<[newHash :=
                    Entry.mk newScore (length (Resolved.tray result))]>
                  (Vars.visited s))
               (Vars.expansions s)
               (Vars.candidates s
                ++ [Node.mk newBoard (Resolved.tray result) newScore
                      (Node.moves node ++ [slotIdx]) (S depth) newHash]).
Proof.
  unfold expandSlot. destruct (Node.board node !! slotIdx) as [iconIdx|];
    [|done]. simpl.
  case_bool_decide; [intros [= <-]; auto|].
  case_bool_decide; [intros [= <-]; auto|].
  match goal with
  | |- (if ?d then _ else _) = _ → _ => destruct d
  end; intros [= <-]; [by left|].
  right. by exists iconIdx.
Qed.

(** What a node records, on positions inside the board. *)
Lemma stateAt_nodeRecords
    (getClickableSlots : list Z → list nat) (beamWidth maxExpansions : nat)
    (initialBoard : list Z) (depth : nat) (beam : list Node.t)
    (visited : gmap string Entry.t) (expansions : nat) :
  stateAt getClickableSlots beamWidth maxExpansions initialBoard depth
  = Some (beam, visited, expansions) →
  Forall (nodeRecords initialBoard depth) beam.
Proof.
  apply (stateAt_invariant (nodeRecords initialBoard)).
  - unfold nodeRecords. simpl. by split_and!.
  - intros d node remaining slotIdx s s' Hn Hc Hx.
    apply expandSlot_kept in Hx as [->|(iconIdx & Hb & Hne & ->)]; [done|].
    apply Forall_app. split; [done|]. constructor; [|constructor].
    destruct Hn as (Hd & Hm & Hh & Hlen & Hrem).
    unfold nodeRecords. simpl. split_and!.
    + done.
    + rewrite length_app. simpl. lia.
    + done.
    + by rewrite length_insert.
    + rewrite (countRemaining_insert _ _ _ Hb Hne) in Hrem. lia.
Qed.

(** ** The winning path stays within the tray capacity *)

Lemma replayWithin_app cap sel board tray ms1 ms2 :
  replayWithin cap sel board tray (ms1 ++ ms2)
  = match replayWithin cap sel board tray ms1 with
    | Some (board1, tray1) => replayWithin cap sel board1 tray1 ms2
    | None => None
    end.
Proof.
  revert board tray. induction ms1 as [|pos ms1 IH]; intros board tray;
    simpl; [done|].
  case_bool_decide; [|done].
  destruct (board !! pos) as [piece|]; [|done].
  case_bool_decide; [done|]. case_bool_decide; [done|]. apply IH.
Qed.

Lemma replayWithin_replay cap sel board tray ms r :
  replayWithin cap sel board tray ms = Some r →
  replay sel board tray ms = Some r.
Proof.
  revert board tray. induction ms as [|pos ms IH]; intros board tray; simpl;
    [done|].
  case_bool_decide; [|done].
  destruct (board !! pos) as [piece|]; [|done].
  case_bool_decide; [done|]. case_bool_decide; [done|]. apply IH.
Qed.

(** The tray reached by a replay within the capacity fits the capacity. *)
Lemma replayWithin_tray cap sel board tray ms board' tray' :
  (length tray ≤ cap)%nat →
  replayWithin cap sel board tray ms = Some (board', tray') →
  (length tray' ≤ cap)%nat.
Proof.
  revert board tray. induction ms as [|pos ms IH]; intros board tray Hle;
    simpl.
  - by intros [= <- <-].
  - case_bool_decide; [|done].
    destruct (board !! pos) as [piece|]; [|done].
    case_bool_decide; [done|]. case_bool_decide; [done|].
    apply IH. lia.
Qed.

Lemma replaysWithin_expand sel initialBoard depth node remaining slotIdx s s' :
  replaysWithin sel initialBoard node →
  slotIdx ∈ sel (Node.board node) →
  Forall (replaysWithin sel initialBoard) (Vars.candidates s) →
  expandSlot depth node remaining slotIdx s = Some s' →
  Forall (replaysWithin sel initialBoard) (Vars.candidates s').
Proof.
  intros Hn Hsel Hc E.
  apply expandSlot_inv in E as (iconIdx & Hb & _ & [->|E]); [done|].
  destruct E as (newScore & newHash & Hne & Hcap & ->).
  apply Forall_app. split; [done|]. constructor; [|constructor].
  unfold replaysWithin in *. simpl. rewrite replayWithin_app, Hn. simpl.
  rewrite bool_decide_eq_true_2 by done. rewrite Hb.
  rewrite bool_decide_eq_false_2 by done.
  by rewrite bool_decide_eq_false_2 by lia.
Qed.

(** The winning path can be played within the tray capacity, on
    positions inside the board. *)
Lemma isSolvable_within_capacity (initialBoard : list Z)
    (getClickableSlots : list Z → list nat) (params : Params.t)
    (winningMoves : list nat) (stats : Stats.t) :
  isSolvable initialBoard getClickableSlots params
  = Some (Solvable winningMoves stats) →
  (∃ board,
     replayWithin 7 getClickableSlots initialBoard [] winningMoves
     = Some (board, [])
     ∧ Forall (λ x, x = -1) board)
  ∧ (∀ n,
       ∃ board tray,
         replay getClickableSlots initialBoard [] (take n winningMoves)
         = Some (board, tray)
         ∧ (length tray ≤ 7)%nat).
Proof.
  unfold isSolvable, beamSearchSolve. intros H.
  eapply (forDepth_invariant getClickableSlots _ _
            (replaysWithin getClickableSlots initialBoard)) in H
    as (node & Hn & Hs & ->).
  - apply solved_spec in Hs as [Hb Ht]. unfold replaysWithin in Hn.
    rewrite Ht in Hn. split; [by exists (Node.board node)|].
    intros n. rewrite <- (take_drop n (Node.moves node)) in Hn.
    rewrite replayWithin_app in Hn.
    destruct (replayWithin _ _ _ _ (take n _)) as [[board tray]|] eqn:E;
      [|done].
    exists board, tray. split; [by eapply replayWithin_replay|].
    eapply (replayWithin_tray TRAY_CAPACITY); [|exact E]. simpl. lia.
  - intros. by eapply replaysWithin_expand.
  - by repeat constructor.
Qed.

(** ** [hashState] is injective *)

Lemma lacks_app c s1 s2 : lacks c (s1 +:+ s2) = lacks c s1 && lacks c s2.
Proof.
  induction s1 as [|a s1 IH]; simpl; [done|].
  rewrite IH. by rewrite andb_assoc.
Qed.

Lemma pretty_N_char_lacks c x :
  c = ","%char ∨ c = "|"%char → Ascii.eqb (pretty_N_char x) c = false.
Proof.
  intros [-> | ->]; unfold pretty_N_char; by repeat case_match.
Qed.

Lemma pretty_N_go_lacks c x s :
  c = ","%char ∨ c = "|"%char →
  lacks c s = true → lacks c (pretty_N_go x s) = true.
Proof.
  intros Hc. revert s. induction (N.lt_wf_0 x) as [x _ IH]; intros s Hs.
  assert (x = 0 ∨ 0 < x)%N as [->|Hpos] by lia.
  - by rewrite pretty_N_go_0.
  - rewrite pretty_N_go_step by done. apply IH.
    + by apply N.div_lt.
    + simpl. by rewrite pretty_N_char_lacks, Hs.
Qed.

Lemma pretty_N_go_nonempty x s : s ≠ "" → pretty_N_go x s ≠ "".
Proof.
  revert s. induction (N.lt_wf_0 x) as [x _ IH]; intros s Hs.
  assert (x = 0 ∨ 0 < x)%N as [->|Hpos] by lia.
  - by rewrite pretty_N_go_0.
  - rewrite pretty_N_go_step by done. apply IH; [by apply N.div_lt | done].
Qed.

Lemma pretty_positive_spec (p : positive) :
  pretty p = pretty_N_go (N.pos p) "".
Proof. done. Qed.

Lemma pretty_Z_lacks c (z : Z) :
  c = ","%char ∨ c = "|"%char → lacks c (pretty z) = true.
Proof.
  intros Hc. destruct z as [|p|p]; unfold pretty, pretty_Z.
  - by destruct Hc as [-> | ->].
  - rewrite pretty_positive_spec. by apply pretty_N_go_lacks.
  - rewrite lacks_app, pretty_positive_spec, pretty_N_go_lacks by done.
    by destruct Hc as [-> | ->].
Qed.

Lemma pretty_Z_nonempty (z : Z) : pretty z ≠ "".
Proof.
  destruct z as [|p|p]; unfold pretty, pretty_Z; [done | | done].
  rewrite pretty_positive_spec.
  rewrite pretty_N_go_step by lia. by apply pretty_N_go_nonempty.
Qed.

(** Two strings without [c], each followed by nothing or by something
    that starts with [c]: equal wholes have equal parts. *)
Lemma split_at_separator c s s' r r' :
  lacks c s = true → lacks c s' = true →
  (r = "" ∨ ∃ r0, r = String c r0) →
  (r' = "" ∨ ∃ r0, r' = String c r0) →
  s +:+ r = s' +:+ r' → s = s' ∧ r = r'.
Proof.
  revert s'. induction s as [|a s IH]; intros [|a' s'] Hs Hs' Hr Hr' Heq;
    simpl in *.
  - done.
  - destruct Hr as [-> | [r0 ->]]; [done|]. injection Heq as <- _.
    by rewrite Ascii.eqb_refl in Hs'.
  - destruct Hr' as [-> | [r0 ->]]; [done|]. injection Heq as -> _.
    by rewrite Ascii.eqb_refl in Hs.
  - injection Heq as -> Heq.
    apply andb_true_iff in Hs as [_ Hs]. apply andb_true_iff in Hs' as [_ Hs'].
    destruct (IH s' Hs Hs' Hr Hr' Heq) as [-> ->]. done.
Qed.

Lemma concat_joinTail (h : string) rest :
  String.concat "," (h :: rest) = h +:+ joinTail rest.
Proof.
  destruct rest as [|x rest]; simpl; [|done].
  induction h as [|a h IH]; [done|].
  change (String a h = String a (h +:+ "")). by f_equal.
Qed.

Lemma joinTail_shape rest :
  joinTail rest = "" ∨ ∃ r0, joinTail rest = String ","%char r0.
Proof. destruct rest; simpl; eauto. Qed.

Lemma concat_inj (l l' : list string) :
  Forall (λ s, s ≠ "" ∧ lacks "," s = true) l →
  Forall (λ s, s ≠ "" ∧ lacks "," s = true) l' →
  String.concat "," l = String.concat "," l' → l = l'.
Proof.
  revert l'. induction l as [|h t IH]; intros [|h' t'] Hl Hl' Heq.
  - done.
  - apply Forall_cons in Hl' as [[Hne _] _].
    rewrite concat_joinTail in Heq. simpl in Heq.
    destruct h'; [done | discriminate].
  - apply Forall_cons in Hl as [[Hne _] _].
    rewrite concat_joinTail in Heq. simpl in Heq.
    destruct h; [done | discriminate].
  - apply Forall_cons in Hl as [[_ Hh] Ht].
    apply Forall_cons in Hl' as [[_ Hh'] Ht'].
    rewrite !concat_joinTail in Heq.
    apply (split_at_separator ","%char) in Heq as [-> Htail];
      [|done|done|apply joinTail_shape|apply joinTail_shape].
    f_equal. destruct t as [|x t], t' as [|x' t']; simpl in Htail;
      try done.
    injection Htail as Htail. by apply IH.
Qed.

Lemma concat_lacks c (l : list string) :
  c ≠ ","%char → Forall (λ s, lacks c s = true) l →
  lacks c (String.concat "," l) = true.
Proof.
  intros Hc. induction 1 as [|h t Hh _ IH]; [done|].
  rewrite concat_joinTail, lacks_app, Hh.
  destruct t as [|x t]; [done|].
  cbn [joinTail lacks]. rewrite IH.
  by destruct (Ascii.eqb_spec ","%char c) as [<-|_].
Qed.

Lemma join_inj (a a' : list Z) : join "," a = join "," a' → a = a'.
Proof.
  unfold join. intros Heq. apply concat_inj in Heq.
  - by apply (inj (fmap pretty)) in Heq.
  - apply Forall_fmap, Forall_true. intros z. simpl.
    split; [apply pretty_Z_nonempty | apply pretty_Z_lacks; auto].
  - apply Forall_fmap, Forall_true. intros z. simpl.
    split; [apply pretty_Z_nonempty | apply pretty_Z_lacks; auto].
Qed.

Lemma hashState_inj (board tray board' tray' : list Z) :
  hashState board tray = hashState board' tray' →
  board = board' ∧ tray = tray'.
Proof.
  unfold hashState. intros Heq.
  apply (split_at_separator "|"%char) in Heq as [Hb Ht].
  - split; [by apply join_inj|]. injection Ht as Ht. by apply join_inj.
  - apply concat_lacks; [done|]. apply Forall_fmap, Forall_true.
    intros z. apply pretty_Z_lacks. auto.
  - apply concat_lacks; [done|]. apply Forall_fmap, Forall_true.
    intros z. apply pretty_Z_lacks. auto.
  - right. by eexists.
  - right. by eexists.
Qed.

(** X9 ([hashState] is a faithful key).  Two states with the same hash
    have the same board and the same tray, element by element and in the
    same order: the transposition table never takes two different states
    for one. *)
Theorem X9_hashState_injective (board tray board' tray' : list Z) :
  hashState board tray = hashState board' tray' →
  board = board' ∧ tray = tray'.
Proof. apply hashState_inj. Qed.

Lemma X9_witness : hashState [1; 12] [3] ≠ hashState [11; 2] [3].
Proof.
  intros Heq. destruct (X9_hashState_injective _ _ _ _ Heq) as [Hb _].
  discriminate Hb.
Defined.

(** ** The transposition table *)














(** * The search on any positions

    On positions inside the board it is the search on arrays of
    integers. *)

(** ** The Resolution Engine under a reading of its keys *)

Section ObjectAgreement.

Variable f : Z → Js.Value.
Hypothesis f_inj : Inj (=) (=) f.
Hypothesis f_index : ∀ z,
  Js.Object.index (f z) = if JsObject.is_array_index z then Some z else None.

Lemma stays_before_keys k' k :
  Js.Object.stays_before (f k') (f k) = JsObject.stays_before k' k.
Proof.
  unfold Js.Object.stays_before, JsObject.stays_before.
  rewrite !f_index.
  destruct (JsObject.is_array_index k), (JsObject.is_array_index k'); done.
Qed.

Lemma get_keys k o : Js.Object.get (f k) (keysBy f o) = JsObject.get k o.
Proof.
  induction o as [|[k' v] o IH]; simpl; [done|].
  rewrite IH. by rewrite (bool_decide_ext (f k' = f k) (k' = k))
    by (split; [apply f_inj | congruence]).
Qed.

Lemma create_keys k v o :
  Js.Object.create (f k) v (keysBy f o) = keysBy f (JsObject.create k v o).
Proof.
  induction o as [|[k' v'] o IH]; simpl; [done|].
  rewrite stays_before_keys. destruct (JsObject.stays_before k' k); simpl;
    [by rewrite IH | done].
Qed.

Lemma push_keys k idx o :
  Js.Object.push (f k) idx (keysBy f o) = keysBy f (JsObject.push k idx o).
Proof.
  induction o as [|[k' v] o IH]; simpl; [done|].
  rewrite (bool_decide_ext (f k' = f k) (k' = k))
    by (split; [apply f_inj | congruence]).
  case_bool_decide; simpl; [done | by rewrite IH].
Qed.

Lemma countIcons_keys tray idx o :
  Js.countIcons (f <$> tray) idx (keysBy f o) = keysBy f (countIcons tray idx o).
Proof.
  revert idx o. induction tray as [|k tray IH]; intros idx o; simpl; [done|].
  rewrite get_keys. destruct (JsObject.get k o).
  - by rewrite push_keys, IH.
  - by rewrite create_keys, push_keys, IH.
Qed.

Lemma firstTriple_keys o :
  Js.firstTriple (keysBy f o) = prod_map f id <$> firstTriple o.
Proof.
  unfold Js.firstTriple, firstTriple.
  induction o as [|[k v] o IH]; simpl; [done|].
  case_bool_decide; simpl; [done | exact IH].
Qed.

Lemma splice1_fmap {A B} (g : A → B) idx (a : list A) :
  splice1 idx (g <$> a) = g <$> splice1 idx a.
Proof. unfold splice1. by rewrite fmap_app, fmap_take, fmap_drop. Qed.

Lemma clearPass_keys (tray : list Z) :
  Js.clearPass (f <$> tray)
  = prod_map (fmap (M := list) f) f <$> clearPass tray.
Proof.
  unfold Js.clearPass, clearPass, Js.iconCounts, iconCounts.
  change (@nil (Js.Value * list nat)) with (keysBy f []).
  rewrite countIcons_keys, firstTriple_keys.
  destruct (firstTriple _) as [[k occ]|]; simpl; [|done].
  do 2 f_equal. generalize (sort_desc (take 3 occ)). intros l.
  revert tray. induction l as [|idx l IH]; intros tray; simpl; [done|].
  by rewrite splice1_fmap, IH.
Qed.

Lemma resolveLoop_keys fuel st :
  Js.resolveLoop fuel (resolvedBy f st) = resolvedBy f (resolveLoop fuel st).
Proof.
  revert st. induction fuel as [|fuel IH]; intros st; simpl; [done|].
  rewrite clearPass_keys.
  destruct (clearPass (Resolved.tray st)) as [[tray' k]|]; simpl; [|done].
  rewrite <- IH. unfold resolvedBy. simpl. by rewrite fmap_app.
Qed.

Lemma resolveTrayTriples_keys tray :
  Js.resolveTrayTriples (f <$> tray) = resolvedBy f (resolveTrayTriples tray).
Proof.
  unfold Js.resolveTrayTriples, resolveTrayTriples.
  rewrite length_fmap. by rewrite <- resolveLoop_keys.
Qed.

End ObjectAgreement.

(** ** The search on arrays of integers *)

Lemma Num_index z :
  Js.Object.index (Js.Num z)
  = if JsObject.is_array_index z then Some z else None.
Proof. done. Qed.

Lemma resolveTrayTriples_Num tray :
  Js.Resolved.tray (Js.resolveTrayTriples (Js.Num <$> tray))
  = Js.Num <$> Resolved.tray (resolveTrayTriples tray).
Proof.
  by rewrite (resolveTrayTriples_keys Js.Num Js.Num_inj Num_index).
Qed.

Lemma elemAt_ofArray board i z :
  board !! i = Some z → Js.elemAt (Js.ofArray board) i = Js.Num z.
Proof.
  intros Hi. unfold Js.elemAt, Js.ofArray. cbn [Js.Board.elems].
  by rewrite list_lookup_fmap, Hi.
Qed.

Lemma values_ofArray board : Js.values (Js.ofArray board) = Js.Num <$> board.
Proof.
  unfold Js.values, Js.ofArray. cbn [Js.Board.elems].
  by rewrite <- list_fmap_compose.
Qed.

Lemma spread_ofArray board : Js.spread (Js.ofArray board) = Js.ofArray board.
Proof.
  unfold Js.spread. rewrite values_ofArray. unfold Js.ofArray.
  by rewrite <- list_fmap_compose.
Qed.

Lemma setEmpty_ofArray board i :
  (i < length board)%nat →
  Js.setEmpty (Js.ofArray board) i = Js.ofArray (<[i := -1]> board).
Proof.
  intros Hi. unfold Js.setEmpty, Js.ofArray. cbn [Js.Board.elems Js.Board.props].
  rewrite length_fmap, bool_decide_eq_true_2 by done.
  by rewrite list_fmap_insert.
Qed.

Lemma present_ofArray board : Js.present (Js.ofArray board) = Js.Num <$> board.
Proof.
  unfold Js.present, Js.ofArray. cbn [Js.Board.elems].
  induction board as [|z board IH]; [done|]. csimpl. by rewrite IH.
Qed.

Lemma filter_fmap_inj {A B} (g : A → B) (P : B → Prop) (Q : A → Prop)
    `{∀ y, Decision (P y)} `{∀ x, Decision (Q x)} (l : list A) :
  (∀ x, P (g x) ↔ Q x) → filter P (g <$> l) = g <$> filter Q l.
Proof.
  intros HPQ. induction l as [|x l IH]; [done|]. csimpl.
  rewrite !filter_cons, IH.
  destruct (decide (P (g x))) as [HP|HP], (decide (Q x)) as [HQ|HQ];
    try done.
  - by apply HPQ in HP.
  - by apply HPQ in HQ.
Qed.

Lemma countRemaining_ofArray board :
  Js.countRemaining (Js.ofArray board) = countRemaining board.
Proof.
  unfold Js.countRemaining, countRemaining. rewrite present_ofArray.
  rewrite (filter_fmap_inj Js.Num _ (λ z, z ≠ -1)), length_fmap; [done|].
  intros z. split; congruence.
Qed.

Lemma join_Num sep a : Js.join sep (Js.Num <$> a) = join sep a.
Proof. unfold Js.join, join. by rewrite <- list_fmap_compose. Qed.

Lemma hashState_ofArray board tray :
  Js.hashState (Js.ofArray board) (Js.Num <$> tray) = hashState board tray.
Proof.
  unfold Js.hashState, hashState. by rewrite values_ofArray, !join_Num.
Qed.

Lemma tripleReward_Num tray prevTray :
  Js.tripleReward (Js.Num <$> tray) (Js.Num <$> prevTray)
  = tripleReward tray prevTray.
Proof. unfold Js.tripleReward, tripleReward. by rewrite !length_fmap. Qed.

Lemma occurrences_Num tray :
  Js.occurrences (Js.Num <$> tray) = kmap Js.Num (occurrences tray).
Proof.
  unfold Js.occurrences, occurrences.
  rewrite <- (kmap_empty Js.Num) at 1.
  generalize (∅ : gmap Z nat). induction tray as [|z tray IH]; intros m;
    [done|].
  csimpl. rewrite <- IH. by rewrite kmap_insert, lookup_kmap by apply _.
Qed.

Lemma pairs_fold `{Countable K} (m : gmap K nat) :
  map_fold (λ (_ : K) count acc,
              if bool_decide (count = 2%nat) then acc + 12 else acc) 0 m
  = 12 * Z.of_nat (length (filter (λ kc : K * nat, kc.2 = 2%nat)
                             (map_to_list m))).
Proof.
  rewrite map_fold_foldr. generalize (map_to_list m). intros l.
  induction l as [|[k c] l IH]; simpl; [done|].
  rewrite filter_cons, IH. simpl.
  case_bool_decide; case_decide; simpl; try congruence; lia.
Qed.

Lemma pairReward_Num tray :
  Js.pairReward (Js.Num <$> tray) = pairReward tray.
Proof.
  unfold Js.pairReward, pairReward.
  rewrite !pairs_fold, occurrences_Num.
  pose proof (map_to_list_kmap (M2 := gmap Js.Value) Js.Num
                (occurrences tray)) as Hperm.
  rewrite Hperm. do 2 f_equal.
  rewrite (filter_fmap_inj (prod_map Js.Num id) _
             (λ kc : Z * nat, kc.2 = 2%nat)), length_fmap; [done|].
  by intros [k c].
Qed.

Lemma size_list_to_set_dups `{Countable A} (l : list A) :
  size (list_to_set l : gset A) = length (remove_dups l).
Proof.
  assert ((list_to_set l : gset A) = list_to_set (remove_dups l)) as ->.
  { apply set_eq. intros k.
    by rewrite !elem_of_list_to_set, elem_of_remove_dups. }
  apply size_list_to_set, NoDup_remove_dups.
Qed.

Lemma remove_dups_fmap_inj `{EqDecision A} `{EqDecision B} (g : A → B)
    `{!Inj (=) (=) g} (l : list A) :
  remove_dups (g <$> l) = g <$> remove_dups l.
Proof.
  induction l as [|x l IH]; [done|]. csimpl.
  destruct (decide_rel elem_of (g x) (g <$> l)) as [Hin|Hin],
    (decide_rel elem_of x l) as [Hin'|Hin']; csimpl; rewrite ?IH; try done.
  - by apply list_elem_of_fmap_inj in Hin.
  - destruct Hin. by apply list_elem_of_fmap_inj.
Qed.

Lemma newIconCount_Num tray prevTray :
  Js.newIconCount (Js.Num <$> tray) (Js.Num <$> prevTray)
  = newIconCount tray prevTray.
Proof.
  unfold Js.newIconCount, newIconCount. rewrite !size_list_to_set_dups.
  rewrite (filter_fmap_inj Js.Num _
             (λ z, z ∉ (list_to_set prevTray : gset Z))).
  - rewrite (remove_dups_fmap_inj Js.Num). by rewrite length_fmap.
  - intros z. rewrite !elem_of_list_to_set.
    by rewrite (list_elem_of_fmap_inj Js.Num).
Qed.

Lemma scoreState_ofArray board board' tray prevTray prevRemaining newRemaining :
  Js.scoreState board (Js.Num <$> tray) (Js.Num <$> prevTray)
    prevRemaining newRemaining
  = scoreState board' tray prevTray prevRemaining newRemaining.
Proof.
  unfold Js.scoreState, scoreState.
  by rewrite tripleReward_Num, pairReward_Num, newIconCount_Num, length_fmap.
Qed.

Lemma expandSlot_agrees depth node remaining slotIdx s s' :
  expandSlot depth node remaining slotIdx s = Some s' →
  Js.expandSlot depth (nodeOf node) remaining slotIdx (varsOf s) = varsOf s'.
Proof.
  unfold expandSlot, Js.expandSlot.
  destruct (Node.board node !! slotIdx) as [iconIdx|] eqn:Hpos; [|done].
  cbn [mbind option_bind nodeOf Js.Node.board Js.Node.tray Js.Node.score
       Js.Node.moves].
  rewrite (elemAt_ofArray _ _ _ Hpos), spread_ofArray.
  rewrite setEmpty_ofArray by (by eapply lookup_lt_Some).
  rewrite (bool_decide_ext (Js.Num iconIdx = Js.Num (-1)) (iconIdx = -1))
    by (split; congruence).
  case_bool_decide; [by intros [= <-]|].
  change [Js.Num iconIdx] with (Js.Num <$> [iconIdx]).
  rewrite <- fmap_app, resolveTrayTriples_Num, length_fmap.
  case_bool_decide; [by intros [= <-]|].
  rewrite countRemaining_ofArray, hashState_ofArray.
  rewrite (scoreState_ofArray _ (<[slotIdx := -1]> (Node.board node))).
  cbn [varsOf Js.Vars.visited Js.Vars.expansions Js.Vars.candidates].
  match goal with
  | |- (if ?d then _ else _) = _ → _ => destruct d
  end; intros [= <-]; [done|].
  unfold varsOf. cbn [Vars.visited Vars.expansions Vars.candidates].
  by rewrite fmap_app.
Qed.

Lemma forSlots_agrees me depth node remaining slots s s' :
  forSlots me depth node remaining slots s = Some s' →
  Js.forSlots me depth (nodeOf node) remaining slots (varsOf s) = varsOf s'.
Proof.
  revert s. induction slots as [|slotIdx rest IH]; intros s; simpl.
  - by intros [= <-].
  - case_bool_decide; [by intros [= <-]|].
    destruct (expandSlot _ _ _ _ _) as [s1|] eqn:E; simpl; [|done].
    apply expandSlot_agrees in E. unfold varsOf at 1 in E.
    cbn [Vars.visited Vars.expansions Vars.candidates] in E.
    rewrite E. apply IH.
Qed.

Lemma solved_agrees node : Js.solved (nodeOf node) = solved node.
Proof.
  unfold Js.solved, solved. cbn [nodeOf Js.Node.board Js.Node.tray].
  by rewrite countRemaining_ofArray, length_fmap.
Qed.

Lemma forNodes_agrees g bw me depth beam s o :
  forNodes (Js.onArrays g) bw me depth beam s = Some o →
  Js.forNodes g bw me depth (nodeOf <$> beam) (varsOf s) = outcomeOf o.
Proof.
  revert s. induction beam as [|node rest IH]; intros s; simpl.
  - by intros [= <-].
  - case_bool_decide; [by intros [= <-]|].
    rewrite solved_agrees. destruct (solved node); [by intros [= <-]|].
    destruct (forSlots _ _ _ _ _ _) as [s1|] eqn:E; simpl; [|done].
    apply forSlots_agrees in E.
    cbn [nodeOf Js.Node.board] in *. rewrite countRemaining_ofArray.
    unfold Js.onArrays in E. rewrite E. apply IH.
Qed.

Lemma insertByScore_agrees x l :
  Js.insertByScore (nodeOf x) (nodeOf <$> l) = nodeOf <$> insertByScore x l.
Proof.
  induction l as [|y l IH]; [done|]. csimpl.
  case_bool_decide; csimpl; [by rewrite IH | done].
Qed.

Lemma sortByScore_agrees l :
  Js.sortByScore (nodeOf <$> l) = nodeOf <$> sortByScore l.
Proof.
  induction l as [|x l IH]; [done|]. csimpl.
  unfold Js.sortByScore, sortByScore in *. csimpl.
  by rewrite IH, insertByScore_agrees.
Qed.

Lemma next_beam_agrees bw l :
  take bw (Js.sortByScore (nodeOf <$> l))
  = nodeOf <$> take bw (sortByScore l).
Proof. by rewrite sortByScore_agrees, fmap_take. Qed.

Lemma noSolution_agrees bw beam exps :
  Js.noSolution bw (nodeOf <$> beam) exps = noSolution bw beam exps.
Proof. by destruct beam. Qed.

Lemma forDepth_agrees g bw me togo depth beam visited exps r :
  forDepth (Js.onArrays g) bw me togo depth beam visited exps = Some r →
  Js.forDepth g bw me togo depth (nodeOf <$> beam) visited exps = r.
Proof.
  revert depth beam visited exps.
  induction togo as [|togo IH]; intros depth beam visited exps; simpl.
  - intros [= <-]. apply noSolution_agrees.
  - rewrite (bool_decide_ext (nodeOf <$> beam = []) (beam = []))
      by (by destruct beam).
    case_bool_decide; [intros [= <-]; apply noSolution_agrees|].
    destruct (forNodes _ _ _ _ _ _) as [o|] eqn:E; simpl; [|done].
    apply forNodes_agrees in E.
    change (Js.Vars.mk visited exps [])
      with (varsOf (Vars.mk visited exps [])).
    rewrite E. destruct o as [r'|s]; simpl; [by intros [= <-]|].
    rewrite next_beam_agrees. apply IH.
Qed.

Lemma initialNode_agrees initialBoard :
  Js.initialNode initialBoard = nodeOf (initialNode initialBoard).
Proof.
  unfold Js.initialNode, initialNode, nodeOf. simpl.
  rewrite spread_ofArray. f_equal.
  apply (hashState_ofArray initialBoard []).
Qed.

Lemma isSolvable_agrees initialBoard g params r :
  isSolvable initialBoard (Js.onArrays g) params = Some r →
  Js.isSolvable initialBoard g params = r.
Proof.
  unfold isSolvable, beamSearchSolve, Js.isSolvable, Js.beamSearchSolve.
  rewrite initialNode_agrees. apply forDepth_agrees.
Qed.

Lemma stateAt_agrees g bw me initialBoard depth beam visited exps :
  stateAt (Js.onArrays g) bw me initialBoard depth
  = Some (beam, visited, exps) →
  Js.stateAt g bw me initialBoard depth
  = Some (nodeOf <$> beam, visited, exps).
Proof.
  revert beam visited exps.
  induction depth as [|depth IH]; intros beam visited exps;
    cbn [stateAt Js.stateAt].
  - intros [= <- <- <-]. by rewrite initialNode_agrees.
  - destruct (stateAt _ _ _ _ depth) as [[[beam0 visited0] exps0]|];
      simpl; [|done].
    rewrite (IH _ _ _ eq_refl). simpl.
    rewrite (bool_decide_ext (nodeOf <$> beam0 = []) (beam0 = []))
      by (by destruct beam0).
    case_bool_decide; [done|].
    destruct (forNodes _ _ _ _ _ _) as [o|] eqn:E; simpl; [|done].
    apply forNodes_agrees in E.
    change (Js.Vars.mk visited0 exps0 [])
      with (varsOf (Vars.mk visited0 exps0 [])).
    rewrite E. destruct o as [r|s]; simpl; [done|].
    intros [= <- <- <-]. by rewrite next_beam_agrees.
Qed.

Lemma stateAt_reflects g bw me initialBoard depth jbeam visited exps :
  wellFormed (Js.onArrays g) →
  Js.stateAt g bw me initialBoard depth = Some (jbeam, visited, exps) →
  ∃ beam,
    stateAt (Js.onArrays g) bw me initialBoard depth
    = Some (beam, visited, exps)
    ∧ jbeam = nodeOf <$> beam.
Proof.
  intros Hwf. revert jbeam visited exps.
  induction depth as [|depth IH]; intros jbeam visited exps;
    cbn [stateAt Js.stateAt].
  - rewrite initialNode_agrees. intros [= <- <- <-]. by eexists.
  - destruct (Js.stateAt _ _ _ _ depth) as [[[jbeam0 visited0] exps0]|];
      simpl; [|done].
    destruct (IH _ _ _ eq_refl) as (beam0 & -> & ->). simpl.
    rewrite (bool_decide_ext (nodeOf <$> beam0 = []) (beam0 = []))
      by (by destruct beam0).
    case_bool_decide; [done|].
    destruct (forNodes_total (Js.onArrays g) bw me depth beam0
                (Vars.mk visited0 exps0 []) Hwf) as [o Ho].
    rewrite Ho. simpl. apply forNodes_agrees in Ho.
    change (Js.Vars.mk visited0 exps0 [])
      with (varsOf (Vars.mk visited0 exps0 [])).
    rewrite Ho. destruct o as [r|s]; simpl; [done|].
    intros [= <- <- <-]. eexists. split; [done|].
    by rewrite next_beam_agrees.
Qed.

Lemma isSolvable_reflects initialBoard g params :
  wellFormed (Js.onArrays g) →
  isSolvable initialBoard (Js.onArrays g) params
  = Some (Js.isSolvable initialBoard g params).
Proof.
  intros Hwf.
  destruct (isSolvable_total initialBoard (Js.onArrays g) params Hwf)
    as [r Hr].
  by rewrite (isSolvable_agrees _ _ _ _ Hr).
Qed.

Lemma allPositions_onArrays board :
  Js.onArrays Js.allPositions board = allPositions board.
Proof.
  unfold Js.onArrays, Js.allPositions, allPositions, Js.ofArray.
  cbn [Js.Board.elems]. by rewrite length_fmap.
Qed.

Lemma Js_allPositions_wellFormed : wellFormed (Js.onArrays Js.allPositions).
Proof.
  intros board pos. rewrite allPositions_onArrays.
  apply allPositions_wellFormed.
Qed.

(** ** The general Resolution Engine ends by [changed = false] *)

Lemma below_spec tray :
  below tray < -1 ∧ ∀ z, Js.Num z ∈ tray → below tray < z.
Proof.
  unfold below. induction tray as [|v tray [IH1 IH2]]; simpl.
  - split; [lia|]. intros z Hz. by apply elem_of_nil in Hz.
  - split; [destruct v; lia|].
    intros z Hz. apply elem_of_cons in Hz as [<-|Hz]; [lia|].
    specialize (IH2 z Hz). destruct v; lia.
Qed.

Lemma asValue_inj z0 : Inj (=) (=) (asValue z0).
Proof.
  intros z1 z2. unfold asValue.
  repeat case_bool_decide; intros; simplify_eq; done.
Qed.

Lemma asValue_index z0 z :
  z0 < 0 →
  Js.Object.index (asValue z0 z)
  = if JsObject.is_array_index z then Some z else None.
Proof.
  intros Hneg. unfold asValue. case_bool_decide as Hz; [|done].
  subst z. unfold JsObject.is_array_index.
  by rewrite bool_decide_eq_false_2 by lia.
Qed.

Lemma asValue_asNumber tray :
  asValue (below tray) <$> (asNumber (below tray) <$> tray) = tray.
Proof.
  destruct (below_spec tray) as [_ Hlt]. revert Hlt.
  generalize (below tray). intros z0 Hlt.
  induction tray as [|v tray IH]; [done|]. csimpl.
  rewrite IH by (intros z Hz; apply Hlt; by right). f_equal.
  destruct v as [z|]; unfold asValue; simpl.
  - rewrite bool_decide_eq_false_2; [done|].
    specialize (Hlt z (list_elem_of_here _ _)). lia.
  - by rewrite bool_decide_eq_true_2.
Qed.

Lemma Js_resolveTrayTriples_stable tray :
  Js.clearPass (Js.Resolved.tray (Js.resolveTrayTriples tray)) = None.
Proof.
  assert (below tray < 0) as Hneg by (destruct (below_spec tray); lia).
  rewrite <- (asValue_asNumber tray) at 1.
  rewrite (resolveTrayTriples_keys _ (asValue_inj _)
             (λ z, asValue_index _ z Hneg)).
  cbn [resolvedBy Js.Resolved.tray].
  rewrite (clearPass_keys _ (asValue_inj _)
             (λ z, asValue_index _ z Hneg)).
  by rewrite resolveTrayTriples_stable.
Qed.


(** ** Winning paths of collaborators that stay inside the board *)

(** C3 (path validity).  For a collaborator that returns only positions
    of the board it is given: whenever [isSolvable] returns [Solvable],
    the replay of [winningMoves] from the initial board and the empty
    tray goes through (every chosen position is selectable on the current
    board and holds a piece; the piece leaves the board for the tray and
    the tray is resolved) and ends on a board without pieces and an empty
    tray. *)
Theorem C3_winning_moves_replay (initialBoard : list Z)
    (selectablePositions : Js.Board.t → list nat) (config : Params.t)
    (winningMoves : list nat) (stats : Stats.t) :
  wellFormed (Js.onArrays selectablePositions) →
  Js.isSolvable initialBoard selectablePositions config
  = Solvable winningMoves stats →
  ∃ board,
    replay (Js.onArrays selectablePositions) initialBoard [] winningMoves
    = Some (board, [])
    ∧ Forall (λ x, x = -1) board.
Proof.
  intros Hwf Hrun. apply (isSolvable_replays _ _ config _ stats).
  by rewrite isSolvable_reflects, Hrun.
Qed.

Lemma C3_witness :
  ∃ board,
    replay (Js.onArrays Js.allPositions) [4; -1; 4; 4] [] [0; 2; 3]%nat
    = Some (board, [])
    ∧ Forall (λ x, x = -1) board.
Proof.
  apply (C3_winning_moves_replay [4; -1; 4; 4] Js.allPositions Params.empty
           [0; 2; 3]%nat (Stats.mk 28 (Some 10) 100 (Some 3%nat))
           Js_allPositions_wellFormed).
  vm_compute. reflexivity.
Defined.

(** C3, as stated for every collaborator, fails.  On the board [0,0,0]
    the collaborator [pastTheEnd] hands out the positions 3, 4 and 5, one
    per level: the code takes [undefined] into the tray three times,
    clears it as a triple, then takes the three pieces, and returns
    [Solvable] with the moves 3, 4, 5, 0, 1, 2.  The replay stops at the
    first move: position 3 holds no piece of the board [0,0,0]. *)
Lemma C3_moves_outside_the_board :
  Js.isSolvable [0; 0; 0] Js.pastTheEnd Params.empty
  = Solvable [3; 4; 5; 0; 1; 2]%nat
      (Stats.mk 24 (Some 5) 100 (Some 6%nat))
  ∧ replay (Js.onArrays Js.pastTheEnd) [0; 0; 0] []
      [3; 4; 5; 0; 1; 2]%nat
    = None
  ∧ ¬ ∃ board,
        replay (Js.onArrays Js.pastTheEnd) [0; 0; 0] []
          [3; 4; 5; 0; 1; 2]%nat
        = Some (board, [])
        ∧ Forall (λ x, x = -1) board.
Proof.
  split; [vm_compute; reflexivity|].
  assert (replay (Js.onArrays Js.pastTheEnd) [0; 0; 0] []
            [3; 4; 5; 0; 1; 2]%nat = None) as Hnone
    by (vm_compute; reflexivity).
  split; [exact Hnone|]. intros (board & Hrep & _).
  rewrite Hnone in Hrep. discriminate Hrep.
Qed.

(** X7 (the shape of a winning path).  For a collaborator that returns
    only positions of the board it is given: in a [Solvable] result no
    position occurs twice in [winningMoves]; there are as many moves as
    the initial board has pieces; [stats.depth] is that number; and it is
    strictly below the effective [maxDepth]: a board with [n] pieces is
    only ever reported solvable when [maxDepth > n]. *)
Theorem X7_winning_path_shape (initialBoard : list Z)
    (getClickableSlots : Js.Board.t → list nat) (params : Params.t)
    (winningMoves : list nat) (stats : Stats.t) :
  wellFormed (Js.onArrays getClickableSlots) →
  Js.isSolvable initialBoard getClickableSlots params
  = Solvable winningMoves stats →
  NoDup winningMoves
  ∧ length winningMoves = countRemaining initialBoard
  ∧ Stats.depth stats = Some (length winningMoves)
  ∧ (countRemaining initialBoard
     < orDefault (Params.maxDepth params) SOLVER_MAX_DEPTH)%nat.
Proof.
  intros Hwf Hrun.
  apply (isSolvable_path_shape _ (Js.onArrays getClickableSlots)).
  by rewrite isSolvable_reflects, Hrun.
Qed.

Lemma X7_witness :
  NoDup [0; 2; 3]%nat
  ∧ length [0; 2; 3]%nat = countRemaining [4; -1; 4; 4]
  ∧ Stats.depth (Stats.mk 28 (Some 10) 100 (Some 3%nat)) = Some 3%nat
  ∧ (countRemaining [4; -1; 4; 4]%Z < 4)%nat.
Proof.
  apply (X7_winning_path_shape [4; -1; 4; 4] Js.allPositions
           (Params.mk None None (Some 4%nat)) [0; 2; 3]%nat
           (Stats.mk 28 (Some 10) 100 (Some 3%nat))
           Js_allPositions_wellFormed).
  vm_compute. reflexivity.
Defined.

(** X11 (the winning path can be played).  For a collaborator that
    returns only positions of the board it is given: the moves of a
    [Solvable] result replay from the initial board and the empty tray
    without the tray, after resolution, ever holding more than 7 pieces;
    the replay of every prefix of the moves succeeds as well, with a tray
    of at most 7 pieces. *)
Theorem X11_winning_path_within_capacity (initialBoard : list Z)
    (getClickableSlots : Js.Board.t → list nat) (params : Params.t)
    (winningMoves : list nat) (stats : Stats.t) :
  wellFormed (Js.onArrays getClickableSlots) →
  Js.isSolvable initialBoard getClickableSlots params
  = Solvable winningMoves stats →
  (∃ board,
     replayWithin 7 (Js.onArrays getClickableSlots) initialBoard []
       winningMoves
     = Some (board, [])
     ∧ Forall (λ x, x = -1) board)
  ∧ (∀ n,
       ∃ board tray,
         replay (Js.onArrays getClickableSlots) initialBoard []
           (take n winningMoves)
         = Some (board, tray)
         ∧ (length tray ≤ 7)%nat).
Proof.
  intros Hwf Hrun.
  apply (isSolvable_within_capacity _ _ params _ stats).
  by rewrite isSolvable_reflects, Hrun.
Qed.

Lemma X11_witness :
  ∃ board,
    replayWithin 7 (Js.onArrays Js.allPositions) [4; -1; 4; 4] []
      [0; 2; 3]%nat
    = Some (board, [])
    ∧ Forall (λ x, x = -1) board.
Proof.
  refine (proj1 (X11_winning_path_within_capacity [4; -1; 4; 4]
                   Js.allPositions Params.empty [0; 2; 3]%nat
                   (Stats.mk 28 (Some 10) 100 (Some 3%nat))
                   Js_allPositions_wellFormed _)).
  vm_compute. reflexivity.
Defined.

(** X12 (what a node records).  For a collaborator that returns only
    positions of the board it is given, and every node of the frontier at
    depth [d]: its [depth] field is [d], its move path has [d] moves, its
    [hash] is [hashState] of its own board and tray, its board has the
    length of the initial board and holds [d] pieces less, and neither
    its board nor its tray holds [undefined] or a hole. *)
Theorem X12_node_bookkeeping
    (getClickableSlots : Js.Board.t → list nat)
    (beamWidth maxExpansions : nat) (initialBoard : list Z) (depth : nat)
    (beam : list Js.Node.t) (visited : gmap string Entry.t)
    (expansions : nat) :
  wellFormed (Js.onArrays getClickableSlots) →
  Js.stateAt getClickableSlots beamWidth maxExpansions initialBoard depth
  = Some (beam, visited, expansions) →
  Forall (nodeRecordsOnBoard initialBoard depth) beam.
Proof.
  intros Hwf Hst.
  apply stateAt_reflects in Hst as (beam0 & Hst & ->); [|done].
  apply stateAt_nodeRecords in Hst. apply Forall_fmap.
  eapply Forall_impl; [exact Hst|].
  intros node (Hd & Hm & Hh & Hlen & Hrem).
  unfold nodeRecordsOnBoard, nodeOf. simpl. split_and!.
  - done.
  - done.
  - by rewrite hashState_ofArray.
  - by rewrite length_fmap.
  - by rewrite countRemaining_ofArray.
  - by exists (Node.board node), (Node.tray node).
Qed.

Lemma X12_witness :
  ∃ beam visited expansions,
    Js.stateAt Js.allPositions 2 5000 [0; 0; 0; 1; 1; 1] 2
    = Some (beam, visited, expansions)
    ∧ Forall (nodeRecordsOnBoard [0; 0; 0; 1; 1; 1] 2) beam.
Proof.
  assert (bool_decide
            (is_Some (Js.stateAt Js.allPositions 2 5000
                        [0; 0; 0; 1; 1; 1] 2))
          = true) as Hsome by (vm_compute; reflexivity).
  apply bool_decide_eq_true in Hsome as [[[beam visited] expansions] Hst].
  exists beam, visited, expansions. split; [exact Hst|].
  exact (X12_node_bookkeeping _ _ _ _ _ _ _ _ Js_allPositions_wellFormed
           Hst).
Defined.

(** ** Runs on any positions *)

Lemma Js_expandSlot_kept depth node remaining slotIdx s :
  let s' := Js.expandSlot depth node remaining slotIdx s in
  Js.Vars.expansions s' = Js.Vars.expansions s
  ∧ (Js.Vars.candidates s' = Js.Vars.candidates s
     ∨ ∃ board tray score hash,
         Js.Vars.candidates s'
         = Js.Vars.candidates s
           ++ [Js.Node.mk board tray score
                 (Js.Node.moves node ++ [slotIdx]) (S depth) hash]
         ∧ hash = Js.hashState board tray
         ∧ (length tray ≤ TRAY_CAPACITY)%nat
         ∧ Js.clearPass tray = None).
Proof.
  unfold Js.expandSlot.
  case_bool_decide; [by split; [|left]|].
  case_bool_decide as Hcap; [by split; [|left]|].
  match goal with
  | |- context [if ?d then _ else _] => destruct d
  end; [by split; [|left]|].
  split; [done|]. right. do 4 eexists. split; [done|].
  split; [done|]. split; [lia|]. apply Js_resolveTrayTriples_stable.
Qed.

Lemma Js_forSlots_invariant me depth node remaining slots s :
  nodeRecordsAnywhere depth node →
  Forall (nodeRecordsAnywhere (S depth)) (Js.Vars.candidates s) →
  (Js.Vars.expansions s ≤ me)%nat →
  let s' := Js.forSlots me depth node remaining slots s in
  Forall (nodeRecordsAnywhere (S depth)) (Js.Vars.candidates s')
  ∧ (Js.Vars.expansions s' ≤ me)%nat.
Proof.
  intros (Hd & Hm & _). revert s.
  induction slots as [|slotIdx rest IH]; intros s Hc Hle; simpl; [done|].
  case_bool_decide as Hb; [done|].
  destruct (Js_expandSlot_kept depth node remaining slotIdx
              (Js.Vars.mk (Js.Vars.visited s) (S (Js.Vars.expansions s))
                 (Js.Vars.candidates s))) as [He Hk].
  apply IH.
  - destruct Hk as [->|(board & tray & score & hash & -> & Hh & Hcap & Hst)];
      [done|].
    apply Forall_app. split; [done|]. apply Forall_singleton.
    unfold nodeRecordsAnywhere. simpl. rewrite length_app. simpl.
    split_and!; [done | lia | done | done | done].
  - rewrite He. simpl. lia.
Qed.

Lemma Js_forNodes_invariant g bw me depth beam s s' :
  Forall (nodeRecordsAnywhere depth) beam →
  Forall (nodeRecordsAnywhere (S depth)) (Js.Vars.candidates s) →
  (Js.Vars.expansions s ≤ me)%nat →
  Js.forNodes g bw me depth beam s = Js.Left s' →
  Forall (nodeRecordsAnywhere (S depth)) (Js.Vars.candidates s')
  ∧ (Js.Vars.expansions s' ≤ me)%nat.
Proof.
  revert s. induction beam as [|node rest IH]; intros s Hb Hc Hle; simpl.
  - by intros [= <-].
  - case_bool_decide; [by intros [= <-]|].
    destruct (Js.solved node); [done|].
    apply Forall_cons in Hb as [Hn Hb].
    destruct (Js_forSlots_invariant me depth node
                (Js.countRemaining (Js.Node.board node))
                (g (Js.Node.board node)) s Hn Hc Hle) as [Hc1 Hle1].
    by apply IH.
Qed.

Lemma Js_insertByScore_perm x l : Js.insertByScore x l ≡ₚ x :: l.
Proof.
  induction l as [|y l IH]; simpl; [done|].
  case_bool_decide; [|done]. rewrite IH. apply Permutation_swap.
Qed.

Lemma Js_sortByScore_perm l : Js.sortByScore l ≡ₚ l.
Proof.
  induction l as [|x l IH]; simpl; [done|].
  unfold Js.sortByScore in *. simpl.
  by rewrite Js_insertByScore_perm, IH.
Qed.

Lemma Js_stateAt_invariant g bw me initialBoard depth beam visited exps :
  Js.stateAt g bw me initialBoard depth = Some (beam, visited, exps) →
  Forall (nodeRecordsAnywhere depth) beam ∧ (exps ≤ me)%nat
  ∧ (length beam ≤ Nat.max 1 bw)%nat.
Proof.
  revert beam visited exps.
  induction depth as [|depth IH]; intros beam visited exps;
    cbn [Js.stateAt].
  - intros [= <- <- <-]. split; [|simpl; lia].
    apply Forall_singleton. unfold nodeRecordsAnywhere, Js.initialNode.
    cbn [Js.Node.depth Js.Node.moves Js.Node.hash Js.Node.board
         Js.Node.tray length].
    rewrite spread_ofArray. split_and!; try done.
    unfold TRAY_CAPACITY. lia.
  - destruct (Js.stateAt g bw me initialBoard depth)
      as [[[beam0 visited0] exps0]|]; simpl; [|done].
    destruct (IH _ _ _ eq_refl) as (Hb & Hle & _).
    case_bool_decide; [done|].
    destruct (Js.forNodes _ _ _ _ _ _) as [r|s] eqn:E; [done|].
    intros [= <- <- <-].
    apply Js_forNodes_invariant in E as [Hc He]; [|done|constructor|done].
    split_and!.
    + apply Forall_take. by rewrite Js_sortByScore_perm.
    + done.
    + rewrite length_take. lia.
Qed.


(** X16 (the frontier on any positions).  Whatever positions the
    collaborator hands out, inside the board or not: at the head of every
    level the loop reaches, the expansions counted so far do not exceed
    [maxExpansions], the frontier holds at most [beamWidth] nodes (one at
    level 0), and every frontier node has the level as its [depth] and as
    the number of its moves, carries the hash of its own board and tray,
    and has a resolved tray of at most 7 values. *)
Theorem X16_frontier_on_any_positions
    (getClickableSlots : Js.Board.t → list nat)
    (beamWidth maxExpansions : nat) (initialBoard : list Z) (depth : nat)
    (beam : list Js.Node.t) (visited : gmap string Entry.t)
    (expansions : nat) :
  Js.stateAt getClickableSlots beamWidth maxExpansions initialBoard depth
  = Some (beam, visited, expansions) →
  (expansions ≤ maxExpansions)%nat
  ∧ (length beam ≤ Nat.max 1 beamWidth)%nat
  ∧ ∀ node,
      node ∈ beam →
      Js.Node.depth node = depth
      ∧ length (Js.Node.moves node) = depth
      ∧ Js.Node.hash node
        = Js.hashState (Js.Node.board node) (Js.Node.tray node)
      ∧ (length (Js.Node.tray node) ≤ 7)%nat
      ∧ Js.clearPass (Js.Node.tray node) = None.
Proof.
  intros Hst. apply Js_stateAt_invariant in Hst as (Hb & He & Hlen).
  split; [done|]. split; [done|].
  intros node Hin. exact (proj1 (Forall_forall _ _) Hb node Hin).
Qed.

Lemma X16_witness :
  ∃ beam visited expansions,
    Js.stateAt Js.pastTheEnd 100 5000 [0; 0; 0] 3
    = Some (beam, visited, expansions)
    ∧ (expansions ≤ 5000)%nat
    ∧ (length beam ≤ Nat.max 1 100)%nat.
Proof.
  assert (bool_decide
            (is_Some (Js.stateAt Js.pastTheEnd 100 5000 [0; 0; 0] 3))
          = true) as Hsome by (vm_compute; reflexivity).
  apply bool_decide_eq_true in Hsome as [[[beam visited] expansions] Hst].
  exists beam, visited, expansions. split; [exact Hst|].
  destruct (X16_frontier_on_any_positions _ _ _ _ _ _ _ _ Hst)
    as (He & Hlen & _).
  split; [exact He | exact Hlen].
Defined.

(** X17 (runs inside the board are runs on arrays of integers).  Wherever
    the search on arrays of integers has a value, the code returns that
    value; and for a collaborator that returns only positions of the
    board it is given it always has one: the result of the code is that
    value, and every frontier the depth loop reaches consists of the
    nodes of the search on integers, no board or tray holding
    [undefined] or a hole. *)
Theorem X17_inside_the_board_integers_only
    (getClickableSlots : Js.Board.t → list nat) (initialBoard : list Z)
    (params : Params.t) :
  (∀ r,
     isSolvable initialBoard (Js.onArrays getClickableSlots) params = Some r →
     Js.isSolvable initialBoard getClickableSlots params = r)
  ∧ (wellFormed (Js.onArrays getClickableSlots) →
     isSolvable initialBoard (Js.onArrays getClickableSlots) params
     = Some (Js.isSolvable initialBoard getClickableSlots params)
     ∧ ∀ beamWidth maxExpansions depth beam visited expansions,
         Js.stateAt getClickableSlots beamWidth maxExpansions initialBoard
           depth
         = Some (beam, visited, expansions) →
         ∃ beam0,
           stateAt (Js.onArrays getClickableSlots) beamWidth maxExpansions
             initialBoard depth
           = Some (beam0, visited, expansions)
           ∧ beam = nodeOf <$> beam0).
Proof.
  split.
  - intros r. apply isSolvable_agrees.
  - intros Hwf. split; [by apply isSolvable_reflects|].
    intros bw me depth beam visited exps. by apply stateAt_reflects.
Qed.
